(** * Byte-budgeted animated thumbnails: the quality allocation passes

    A shallow embedding of [thumbnailer_slope_optim.cc] (the slope-optimised
    pass, the refinement pass, the extra top-up pass and the driver that
    chains them) and of [AnimData2Frames], [AnimData2PSNR] and
    [CompareThumbnail] from [thumbnailer_utils.cc].

    Conventions of the embedding.
    - [int] values are mathematical integers: sizes, budgets and qualities
      are taken inside the range where C++ [int] arithmetic does not
      overflow and where conversions between [int] and [size_t] keep the
      value. Integer division is C++ division ([Z.quot], truncating).
    - [float] is IEEE-754 binary32, computed with the executable
      specification of the Standard Library ([SpecFloat], [prec = 24],
      [emax = 128], round to nearest even); [double] is binary64.
    - The codec, the container assembler and the decoder are outside the
      repository: they are parameters of the development.
    - [std::sort] is modelled by an insertion sort. The standard leaves
      open the order of elements that compare equivalent: the model keeps
      them in their order, the library may not, so that statements on the
      frames after the sort of lines 123-126 are made up to the order of
      frames with the same timestamp. The standard defines no result when
      the comparison is not a strict weak ordering of the values, as for
      floats different from each other with a NaN among them: sorting the
      slopes is undefined behaviour then.
    - The tests [size <= byte_budget_] of lines 165, 252 and 307 compare a
      [size_t] with an [int], which C++ converts to [size_t]; they are the
      comparison of the two numbers when [byte_budget_] is not negative,
      and the properties of the buffer are stated for such budgets. *)

From Stdlib Require Import ZArith Lia List Bool Floats.SpecFloat Sorting.Sorted.
From stdpp Require Import base list.
Import ListNotations.
Local Open Scope Z_scope.

(** ** Single and double precision numbers *)

Module F32.
Definition prec : Z := 24.
Definition emax : Z := 128.
Definition sub : spec_float -> spec_float -> spec_float := SFsub prec emax.
Definition div : spec_float -> spec_float -> spec_float := SFdiv prec emax.
Definition ltb : spec_float -> spec_float -> bool := SFltb.
Definition leb : spec_float -> spec_float -> bool := SFleb.
Definition eqb : spec_float -> spec_float -> bool := SFeqb.
(** [float(z)] for an [int] z. *)
Definition of_int (z : Z) : spec_float := binary_normalize prec emax z 0 false.
Definition zero : spec_float := S754_zero false.
Definition one : spec_float := of_int 1.
Definition is_nan (x : spec_float) : bool :=
  match x with S754_nan => true | _ => false end.
Definition is_finite (x : spec_float) : bool :=
  match x with S754_zero _ | S754_finite _ _ _ => true | _ => false end.
End F32.

Module F64.
Definition prec : Z := 53.
Definition emax : Z := 1024.
Definition add : spec_float -> spec_float -> spec_float := SFadd prec emax.
Definition div : spec_float -> spec_float -> spec_float := SFdiv prec emax.
Definition of_int (z : Z) : spec_float := binary_normalize prec emax z 0 false.
Definition zero : spec_float := S754_zero false.
End F64.

(** Conversion of a number to the format [(p, e)]: exact when the target
    is wider, rounding to nearest even when it is narrower. *)
Definition convert (p e : Z) (x : spec_float) : spec_float :=
  match x with
  | S754_finite s m ex => binary_normalize p e (cond_Zopp s (Zpos m)) ex s
  | _ => x
  end.

Definition f32_to_f64 : spec_float -> spec_float := convert F64.prec F64.emax.
Definition f64_to_f32 : spec_float -> spec_float := convert F32.prec F32.emax.

Abbreviation float := spec_float (only parsing).

(** ** Sorting, as [std::sort] is used on frames and on slopes *)

Section Sort.
Context {A : Type} (lt : A -> A -> bool).

Fixpoint insert_sorted (x : A) (l : list A) : list A :=
  match l with
  | [] => [x]
  | y :: l' => if lt y x then y :: insert_sorted x l' else x :: y :: l'
  end.

Definition sort (l : list A) : list A := foldr insert_sorted [] l.

(** What [std::sort] asks of its comparison on the values it sorts: a
    strict weak ordering. *)
Definition equivalent (x y : A) : bool := negb (lt x y) && negb (lt y x).

Definition strict_weak_order (l : list A) : bool :=
  forallb (fun a =>
    negb (lt a a)
    && forallb (fun b =>
         forallb (fun c =>
           implb (lt a b && lt b c) (lt a c)
           && implb (equivalent a b && equivalent b c) (equivalent a c))
           l) l) l.
End Sort.

(** ** Data model ([thumbnailer.h]) *)

Inductive Status : Type :=
| kOk | kMemoryError | kImageFormatError | kByteBudgetError | kStatsError.

(** The statuses other than [kOk], with which a callee can fail. *)
Inductive Failure : Type :=
| MemoryFailure | ImageFormatFailure | ByteBudgetFailure | StatsFailure.

Definition status_of_failure (e : Failure) : Status :=
  match e with
  | MemoryFailure => kMemoryError
  | ImageFormatFailure => kImageFormatError
  | ByteBudgetFailure => kByteBudgetError
  | StatsFailure => kStatsError
  end.

(** Result of a call into the external codec or assembler. *)
Inductive ext_result (A : Type) : Type :=
| ExtOk (a : A)
| ExtErr (e : Failure).
Arguments ExtOk {A} a.
Arguments ExtErr {A} e.

(** A picture is a handle on a pixel buffer that only the codec reads. *)
Definition WebPPicture : Type := nat.

(** [WebPData]: the bytes of an assembled animation; [size] is their count. *)
Definition WebPData : Type := list Byte.byte.
Definition WebPData_size (d : WebPData) : Z := Z.of_nat (length d).
Definition WebPDataInit : WebPData := [].

(** The two fields of [WebPConfig] the passes touch. [quality] is a C
    [float] that only ever receives [int] values. *)
Record WebPConfig : Type := {
  quality : Z;
  lossless : Z
}.

Record FrameData : Type := {
  pic : WebPPicture;
  timestamp_ms : Z;
  config : WebPConfig;
  encoded_size : Z;
  final_quality : Z;
  final_psnr : float;
  near_lossless : bool
}.

Definition set_quality (q : Z) (f : FrameData) : FrameData :=
  {| pic := pic f; timestamp_ms := timestamp_ms f;
     config := {| quality := q; lossless := lossless (config f) |};
     encoded_size := encoded_size f; final_quality := final_quality f;
     final_psnr := final_psnr f; near_lossless := near_lossless f |}.

Definition set_lossless (b : Z) (f : FrameData) : FrameData :=
  {| pic := pic f; timestamp_ms := timestamp_ms f;
     config := {| quality := quality (config f); lossless := b |};
     encoded_size := encoded_size f; final_quality := final_quality f;
     final_psnr := final_psnr f; near_lossless := near_lossless f |}.

Definition set_final_quality (q : Z) (f : FrameData) : FrameData :=
  {| pic := pic f; timestamp_ms := timestamp_ms f; config := config f;
     encoded_size := encoded_size f; final_quality := q;
     final_psnr := final_psnr f; near_lossless := near_lossless f |}.

Definition set_stats (sz : Z) (p : float) (f : FrameData) : FrameData :=
  {| pic := pic f; timestamp_ms := timestamp_ms f; config := config f;
     encoded_size := sz; final_quality := final_quality f;
     final_psnr := p; near_lossless := near_lossless f |}.

Definition set_near_lossless (b : bool) (f : FrameData) : FrameData :=
  {| pic := pic f; timestamp_ms := timestamp_ms f; config := config f;
     encoded_size := encoded_size f; final_quality := final_quality f;
     final_psnr := final_psnr f; near_lossless := b |}.

(** The passes the driver chains. *)
Inductive Pass : Type :=
| PSlopeOptim | PNearLosslessEqual | PEqualQuality | PNoSlopeOptim | PExtraLossy.

(** The mutable state a pass works on: the frames of the object and the
    buffer [*webp_data] the caller passed. [history] is a ghost field: the
    driver appends each pass it calls, with the size of [*webp_data] at
    that moment, and no code reads it. *)
Record State : Type := {
  frames_ : list FrameData;
  webp_data : WebPData;
  history : list (Pass * Z)
}.

(** ** Control flow: state, early [return], undefined behaviour *)

Inductive Outcome (A : Type) : Type :=
| Done (a : A) (s : State)        (* the block ran to its end *)
| Return (st : Status) (s : State) (* [return st;] was executed *)
| Undefined                        (* the C++ standard gives no meaning *)
| OutOfFuel.                       (* a loop of the model ran out of fuel *)
Arguments Done {A} a s.
Arguments Return {A} st s.
Arguments Undefined {A}.
Arguments OutOfFuel {A}.

Definition M (A : Type) : Type := State -> Outcome A.

Definition ret {A} (a : A) : M A := fun s => Done a s.

Definition bind {A B} (m : M A) (k : A -> M B) : M B :=
  fun s =>
    match m s with
    | Done a s' => k a s'
    | Return st s' => Return st s'
    | Undefined => Undefined
    | OutOfFuel => OutOfFuel
    end.

Declare Scope thumb_scope.
Delimit Scope thumb_scope with thumb.
Notation "'let*' x ':=' m 'in' k" := (bind m (fun x => k))
  (at level 10, x name, m at level 100, k at level 200) : thumb_scope.
Notation "'let*' ' pat ':=' m 'in' k" :=
  (bind m (fun x => match x with pat => k end))
  (at level 10, pat pattern, m at level 100, k at level 200) : thumb_scope.
Notation "'run' m1 'then' m2" := (bind m1 (fun _ => m2))
  (at level 10, m1 at level 100, m2 at level 200) : thumb_scope.
Local Open Scope thumb_scope.

Definition return_ {A} (st : Status) : M A := fun s => Return st s.
Definition undefined {A} : M A := fun _ => Undefined.
Definition get : M State := fun s => Done s s.
Definition put (s : State) : M unit := fun _ => Done tt s.

(** The boundary of a function whose result is a [Status]: falling off the
    end and [return kOk] both give [kOk] to the caller. Composed with
    [bind], this is [CHECK_THUMBNAILER_STATUS(f(...))]: a status other than
    [kOk] also leaves the caller. *)
Definition CHECK_THUMBNAILER_STATUS (body : M unit) : M unit :=
  fun s =>
    match body s with
    | Return kOk s' => Done tt s'
    | o => o
    end.

(** The status a caller sees. *)
Definition status_of {A} (o : Outcome A) : option Status :=
  match o with
  | Done _ _ => Some kOk
  | Return st _ => Some st
  | _ => None
  end.

Definition state_of {A} (o : Outcome A) : option State :=
  match o with
  | Done _ s | Return _ s => Some s
  | _ => None
  end.

(** [frames_[i]], read and updated in place. *)
Definition get_frame (i : nat) : M FrameData :=
  fun s => match frames_ s !! i with
           | Some f => Done f s
           | None => Undefined
           end.

Definition upd_frame (i : nat) (g : FrameData -> FrameData) : M unit :=
  fun s => Done tt {| frames_ := alter g i (frames_ s);
                      webp_data := webp_data s; history := history s |}.

Definition set_webp_data (d : WebPData) : M unit :=
  fun s => Done tt {| frames_ := frames_ s; webp_data := d;
                      history := history s |}.

Definition set_frames (fs : list FrameData) : M unit :=
  fun s => Done tt {| frames_ := fs; webp_data := webp_data s;
                      history := history s |}.

Definition enter (p : Pass) : M unit :=
  fun s => Done tt {| frames_ := frames_ s; webp_data := webp_data s;
                      history :=
                        history s ++ [(p, WebPData_size (webp_data s))] |}.

(** A [for] over the elements of a vector. *)
Fixpoint for_each {A} (l : list A) (body : A -> M unit) : M unit :=
  match l with
  | [] => ret tt
  | x :: l' => run body x then for_each l' body
  end.

(** The indices of [frames_], for the loops [for (auto& frame : frames_)]. *)
Definition frame_indices : M (list nat) :=
  fun s => Done (seq 0 (length (frames_ s))) s.

(** A [while] loop with local variables [L]; the body says whether the loop
    goes on or was left by [break]. *)
Inductive LoopStep (L : Type) : Type :=
| Continue (l : L)
| Break (l : L).
Arguments Continue {L} l.
Arguments Break {L} l.

Fixpoint while {L} (fuel : nat) (cond : L -> bool)
    (body : L -> M (LoopStep L)) (l : L) : M L :=
  if cond l then
    match fuel with
    | O => fun _ => OutOfFuel
    | S n =>
        let* r := body l in
        match r with
        | Continue l' => while n cond body l'
        | Break l' => ret l'
        end
    end
  else ret l.

(** [collect l f]: run [f] on each element in order and gather the results,
    as a loop that ends each round with [push_back]. *)
Fixpoint collect {A B} (l : list A) (f : A -> M B) : M (list B) :=
  match l with
  | [] => ret []
  | x :: l' =>
      let* y := f x in
      let* ys := collect l' f in
      ret (y :: ys)
  end.

(** The bounds of a binary search over qualities. *)
Record Window : Type := {
  min_quality : Z;
  max_quality : Z
}.

Definition window_open (w : Window) : bool := min_quality w <=? max_quality w.

(** Each round of a search shrinks its window by one at least: this much
    fuel lets the loop reach its exit. *)
Definition window_fuel (w : Window) : nat :=
  Z.to_nat (max_quality w - min_quality w + 1).

Definition mid_quality (w : Window) : Z := (min_quality w + max_quality w) ÷ 2.

Definition raise_min (w : Window) : Window :=
  {| min_quality := mid_quality w + 1; max_quality := max_quality w |}.

Definition lower_max (w : Window) : Window :=
  {| min_quality := min_quality w; max_quality := mid_quality w - 1 |}.

Definition b2z (b : bool) : Z := if b then 1 else 0.

(** ** The passes ([thumbnailer_slope_optim.cc]) *)

Section Thumbnailer.
Variable byte_budget_ : Z.
Variable minimum_lossy_quality_ : Z.

(** The codec: size and PSNR of a picture encoded with a configuration.
    [GetPictureStats(ind, ...)] answers from it (through a per-frame cache
    that does not change the answers). *)
Variable EncodeStats : WebPPicture -> WebPConfig -> ext_result (Z * float).

(** The container assembler behind [GenerateAnimationNoBudget]: it sees
    each frame's picture, timestamp and current configuration. *)
Variable Assemble :
  list (WebPPicture * Z * WebPConfig) -> ext_result WebPData.

Variable GetAnimationSize : WebPData -> Z.

(** Two passes of the driver whose code is not part of the sources. *)
Variable NearLosslessEqual : M unit.
Variable GenerateAnimationEqualQuality : M unit.

Definition GetPictureStats (ind : nat) : M (Z * float) :=
  let* f := get_frame ind in
  match EncodeStats (pic f) (config f) with
  | ExtOk r => ret r
  | ExtErr e => return_ (status_of_failure e)
  end.

Definition assembler_input (fs : list FrameData)
  : list (WebPPicture * Z * WebPConfig) :=
  map (fun f => (pic f, timestamp_ms f, config f)) fs.

Definition GenerateAnimationNoBudget : M WebPData :=
  let* s := get in
  match Assemble (assembler_input (frames_ s)) with
  | ExtOk d => ret d
  | ExtErr e => return_ (status_of_failure e)
  end.

(** *** FindMedianSlope *)

(** The boundary slope, as line 80 computes it. *)
Definition boundary_slope (size_100 : Z) (psnr_100 : float)
    (new_size : Z) (new_psnr : float) : float :=
  F32.div (F32.sub psnr_100 new_psnr) (F32.of_int (size_100 - new_size)).

Definition within_1dB (psnr_100 new_psnr : float) : bool :=
  F32.leb (F32.sub psnr_100 new_psnr) F32.one.

(** One round of the [while] of lines 71-85; [pic_final_slope] starts
    without a value. *)
Definition threshold_probe (curr_ind : nat) (size_100 : Z) (psnr_100 : float)
    (v : Window * option float) : M (LoopStep (Window * option float)) :=
  let '(w, pic_final_slope) := v in
  run upd_frame curr_ind (set_quality (mid_quality w)) then
  let* '(new_size, new_psnr) := GetPictureStats curr_ind in
  if within_1dB psnr_100 new_psnr then
    ret (Continue
           (lower_max w,
            Some (boundary_slope size_100 psnr_100 new_size new_psnr)))
  else ret (Continue (raise_min w, pic_final_slope)).

Definition threshold_search (curr_ind : nat) : M float :=
  run upd_frame curr_ind (set_quality 100) then
  let* '(size_100, psnr_100) := GetPictureStats curr_ind in
  let w0 := {| min_quality := 0; max_quality := 100 |} in
  let* v := while (window_fuel w0) (fun v => window_open (fst v))
              (threshold_probe curr_ind size_100 psnr_100) (w0, None) in
  match snd v with
  | Some pic_final_slope => ret pic_final_slope
  | None => undefined   (* [push_back] of a variable never assigned *)
  end.

(** [slopes[slopes.size() / 2]] after [std::sort]: no value when the vector
    is empty, and none when [<] is no strict weak ordering of the slopes
    (a NaN among slopes that differ), where [std::sort] is undefined. *)
Definition median (slopes : list float) : option float :=
  if strict_weak_order F32.ltb slopes
  then sort F32.ltb slopes !! (length slopes / 2)%nat
  else None.

Definition FindMedianSlope : M float :=
  let* idxs := frame_indices in
  let* slopes := collect idxs threshold_search in
  match median slopes with
  | Some median_slope => ret median_slope
  | None => undefined   (* no frame: [slopes[0]] of an empty vector;
                           or slopes that [std::sort] cannot sort *)
  end.

(** *** ComputeSlope *)

Definition ComputeSlope (ind : nat) (low_quality high_quality : Z) : M float :=
  run upd_frame ind (set_quality low_quality) then
  let* '(low_size, low_psnr) := GetPictureStats ind in
  run upd_frame ind (set_quality high_quality) then
  let* '(high_size, high_psnr) := GetPictureStats ind in
  if high_size =? low_size then ret F32.zero
  else ret (F32.div (F32.sub high_psnr low_psnr)
                    (F32.of_int (high_size - low_size))).

(** *** LossyEncodeSlopeOptim *)

(** Lines 123-126. The timestamps order any frames, so the sort is
    defined; which of two frames with the same timestamp comes first is the
    library's choice. *)
Definition sort_frames : M unit :=
  let* s := get in
  set_frames (sort (fun a b => timestamp_ms a <? timestamp_ms b) (frames_ s)).

(** The [for] of lines 150-159: which frames of [optim_list] go to
    [new_optim_list]. *)
Fixpoint keep_active (w : Window) (limit_slope : float)
    (optim_list : list nat) : M (list nat) :=
  match optim_list with
  | [] => ret []
  | curr_frame :: rest =>
      let* curr_slope :=
        ComputeSlope curr_frame (min_quality w) (max_quality w) in
      let* f := get_frame curr_frame in
      if (final_quality f =? -1) || F32.ltb limit_slope curr_slope then
        run upd_frame curr_frame (set_quality (mid_quality w)) then
        let* new_optim_list := keep_active w limit_slope rest in
        ret (curr_frame :: new_optim_list)
      else keep_active w limit_slope rest
  end.

Definition is_nil {A} (l : list A) : bool :=
  match l with [] => true | _ => false end.

(** One round of the [while] of lines 145-178. *)
Definition slope_round (limit_slope : float) (v : Window * list nat)
  : M (LoopStep (Window * list nat)) :=
  let '(w, optim_list) := v in
  let* new_optim_list := keep_active w limit_slope optim_list in
  if is_nil new_optim_list then ret (Break v)
  else
    let* new_webp_data := GenerateAnimationNoBudget in
    if WebPData_size new_webp_data <=? byte_budget_ then
      run for_each new_optim_list
            (fun curr_frame =>
               upd_frame curr_frame (set_final_quality (mid_quality w))) then
      run set_webp_data new_webp_data then
      ret (Continue (raise_min w, new_optim_list))
    else ret (Continue (lower_max w, new_optim_list)).

Definition slope_cond (v : Window * list nat) : bool :=
  window_open (fst v) && negb (is_nil (snd v)).

(** The [for] of lines 182-187. *)
Definition record_final_stats (curr_ind : nat) : M unit :=
  let* frame := get_frame curr_ind in
  run upd_frame curr_ind (set_quality (final_quality frame)) then
  let* '(sz, psnr) := GetPictureStats curr_ind in
  upd_frame curr_ind (set_stats sz psnr).

(** [return (webp_data->size > 0) ? kOk : kByteBudgetError;] *)
Definition return_by_size : M unit :=
  let* s := get in
  if 0 <? WebPData_size (webp_data s) then ret tt
  else return_ kByteBudgetError.

Definition LossyEncodeSlopeOptim : M unit :=
  run sort_frames then
  let* limit_slope := FindMedianSlope in
  let w0 := {| min_quality := minimum_lossy_quality_; max_quality := 100 |} in
  let* optim_list := frame_indices in
  let* _ := while (window_fuel w0) slope_cond (slope_round limit_slope)
              (w0, optim_list) in
  let* idxs := frame_indices in
  run for_each idxs record_final_stats then
  return_by_size.

(** *** LossyEncodeNoSlopeOptim *)

Definition improves (new_size : Z) (new_psnr : float) (frame : FrameData)
  : bool :=
  F32.ltb (final_psnr frame) new_psnr
  || (F32.eqb new_psnr (final_psnr frame) && (new_size <=? encoded_size frame)).

(** [extra_budget], an [int] quotient stored in a [float]. *)
Definition extra_budget (anim_size num_remaining_frames : Z) : float :=
  F32.of_int ((byte_budget_ - anim_size) ÷ num_remaining_frames).

Definition affordable (new_size : Z) (frame : FrameData)
    (anim_size num_remaining_frames : Z) : bool :=
  F32.leb (F32.of_int (new_size - encoded_size frame))
          (extra_budget anim_size num_remaining_frames).

Definition accept (mid : Z) (new_size : Z) (new_psnr : float)
    (f : FrameData) : FrameData :=
  set_near_lossless false (set_final_quality mid (set_stats new_size new_psnr f)).

(** One round of the [while] of lines 213-237, for the frame [curr_ind];
    the local variables are the window and [anim_size]. *)
Definition refine_probe (curr_ind : nat) (num_remaining_frames : Z)
    (v : Window * Z) : M (LoopStep (Window * Z)) :=
  let '(w, anim_size) := v in
  run upd_frame curr_ind (set_quality (mid_quality w)) then
  let* '(new_size, new_psnr) := GetPictureStats curr_ind in
  let* frame := get_frame curr_ind in
  if improves new_size new_psnr frame then
    if affordable new_size frame anim_size num_remaining_frames then
      run upd_frame curr_ind (accept (mid_quality w) new_size new_psnr) then
      ret (Continue (raise_min w, anim_size - encoded_size frame + new_size))
    else ret (Continue (lower_max w, anim_size))
  else ret (Continue (raise_min w, anim_size)).

(** The window in which a frame is searched (lines 207-211). *)
Definition refine_window (frame : FrameData) : Window :=
  let start := if lossless (config frame) =? 0
               then final_quality frame else 70 in
  {| min_quality := start; max_quality := Z.min (start + 30) 100 |}.

(** The body of the [for] of lines 206-241 for one frame; the result is
    [anim_size] after the frame. *)
Definition refine_frame (curr_ind : nat) (num_remaining_frames anim_size : Z)
  : M Z :=
  let* frame := get_frame curr_ind in
  let w0 := refine_window frame in
  run upd_frame curr_ind (set_lossless 0) then
  let* v := while (window_fuel w0) (fun v => window_open (fst v))
              (refine_probe curr_ind num_remaining_frames) (w0, anim_size) in
  ret (snd v).

Fixpoint refine_scan (idxs : list nat) (num_remaining_frames anim_size : Z)
  : M Z :=
  match idxs with
  | [] => ret anim_size
  | curr_ind :: rest =>
      let* anim_size' :=
        refine_frame curr_ind num_remaining_frames anim_size in
      refine_scan rest (num_remaining_frames - 1) anim_size'
  end.

(** The [for] of lines 243-246. *)
Definition restore_config (f : FrameData) : FrameData :=
  set_lossless (b2z (near_lossless f)) (set_quality (final_quality f) f).

Definition LossyEncodeNoSlopeOptim : M unit :=
  let* s := get in
  let anim_size := GetAnimationSize (webp_data s) in
  if anim_size >? byte_budget_ then return_ kOk
  else
    let* idxs := frame_indices in
    let* _ := refine_scan idxs (Z.of_nat (length (frames_ s))) anim_size in
    run for_each idxs (fun i => upd_frame i restore_config) then
    let* new_webp_data := GenerateAnimationNoBudget in
    if WebPData_size new_webp_data <=? byte_budget_ then
      run set_webp_data new_webp_data then
      return_by_size
    else return_ kOk.

(** *** ExtraLossyEncode *)

(** Lines 274-280: the frames that are not near-lossless, each with the
    slope between its final quality and 100. *)
Fixpoint slopes_to_100 (idxs : list nat) : M (list (float * nat)) :=
  match idxs with
  | [] => ret []
  | i :: rest =>
      let* f := get_frame i in
      if near_lossless f then slopes_to_100 rest
      else
        let* slope := ComputeSlope i (final_quality f) 100 in
        let* order := slopes_to_100 rest in
        ret ((slope, i) :: order)
  end.

(** Lines 291-295, read on the frames as they are. *)
Definition lowest_next_quality (fs : list FrameData)
    (encoding_order : list (float * nat)) : option Z :=
  foldl (fun acc e =>
           match acc, fs !! e.2 with
           | Some m, Some f => Some (Z.min m (final_quality f + 1))
           | _, _ => None
           end) (Some 100) encoding_order.

(** One round of the [while] of lines 299-316; the local variables are the
    window and [final_quality]. *)
Definition topup_probe (encoding_order : list (float * nat))
    (v : Window * Z) : M (LoopStep (Window * Z)) :=
  let '(w, final_q) := v in
  run for_each encoding_order
        (fun e =>
           let* f := get_frame e.2 in
           upd_frame e.2 (set_quality (Z.max (final_quality f) (mid_quality w)))) then
  let* new_webp_data := GenerateAnimationNoBudget in
  if WebPData_size new_webp_data <=? byte_budget_ then
    run set_webp_data new_webp_data then
    ret (Continue (raise_min w, mid_quality w))
  else ret (Continue (lower_max w, final_q)).

(** Lines 318-327 for one frame of the order. *)
Definition commit_topup (final_q : Z) (e : float * nat) : M unit :=
  let* f := get_frame e.2 in
  if final_quality f <? final_q then
    run upd_frame e.2 (fun f => set_final_quality final_q (set_quality final_q f)) then
    let* '(sz, psnr) := GetPictureStats e.2 in
    upd_frame e.2 (set_stats sz psnr)
  else ret tt.

(** One round of the [while] of lines 290-334. [num_remaining_frames] is the
    length of [encoding_order] throughout, so the loops over
    [i < num_remaining_frames] are loops over the whole vector. *)
Definition topup_round (encoding_order : list (float * nat))
  : M (LoopStep (list (float * nat))) :=
  let* s := get in
  match lowest_next_quality (frames_ s) encoding_order with
  | None => undefined
  | Some lo =>
      let w0 := {| min_quality := lo; max_quality := Z.min (lo + 30) 100 |} in
      let* v := while (window_fuel w0) (fun v => window_open (fst v))
                  (topup_probe encoding_order) (w0, -1) in
      if snd v =? -1 then ret (Break encoding_order)
      else
        run for_each encoding_order (commit_topup (snd v)) then
        ret (Continue (tail encoding_order))
  end.

Definition ExtraLossyEncode : M unit :=
  let* idxs := frame_indices in
  let* unsorted := slopes_to_100 idxs in
  let encoding_order := sort (fun x y => F32.ltb x.1 y.1) unsorted in
  let* _ := while (length encoding_order) (fun o => negb (is_nil o))
              topup_round encoding_order in
  return_by_size.

(** *** GenerateAnimationSlopeOptim, the driver *)

Definition call (p : Pass) (body : M unit) : M unit :=
  run enter p then CHECK_THUMBNAILER_STATUS body.

Definition KMaxIter : nat := 5.

(** The [for] of lines 44-48, with [n] rounds left. *)
Fixpoint refine_rounds (n : nat) (curr_anim_size : Z) : M unit :=
  match n with
  | O => ret tt
  | S n' =>
      run call PNoSlopeOptim LossyEncodeNoSlopeOptim then
      let* s := get in
      if curr_anim_size =? WebPData_size (webp_data s) then ret tt
      else refine_rounds n' (WebPData_size (webp_data s))
  end.

Definition num_near_ll_frames (fs : list FrameData) : nat :=
  length (filter (fun f => near_lossless f = true) fs).

(** The first loop of the driver resets the cache of [GetPictureStats]; the
    cache is part of the codec parameter and has no counterpart here. *)
Definition GenerateAnimationSlopeOptim : M unit :=
  run call PSlopeOptim LossyEncodeSlopeOptim then
  run call PNearLosslessEqual NearLosslessEqual then
  let* s := get in
  if (num_near_ll_frames (frames_ s) =? 0)%nat then
    run call PEqualQuality GenerateAnimationEqualQuality then
    return_ kOk
  else
    run refine_rounds KMaxIter (WebPData_size (webp_data s)) then
    run call PExtraLossy ExtraLossyEncode then
    return_ kOk.

End Thumbnailer.

(** ** Measuring an animation against its source ([thumbnailer_utils.cc]) *)

Module Utils.

Inductive UtilsStatus : Type := kOk | kMemoryError | kGenericError.

Record Frame : Type := {
  pic : WebPPicture;
  timestamp : Z
}.

Record ThumbnailStatsPSNR : Type := {
  psnr : list float;
  min_psnr : float;
  max_psnr : float;
  mean_psnr : float;
  median_psnr : float
}.

(** What a call leaves: the status returned and the object behind [stats]
    ([None] for a null pointer), or no defined behaviour. *)
Inductive Result : Type :=
| Returned (st : UtilsStatus) (stats : option ThumbnailStatsPSNR)
| Undefined.

Definition set_psnr (l : list float) (st : ThumbnailStatsPSNR)
  : ThumbnailStatsPSNR :=
  {| psnr := l; min_psnr := min_psnr st; max_psnr := max_psnr st;
     mean_psnr := mean_psnr st; median_psnr := median_psnr st |}.

Section PSNR.
(** The decoder loop of [AnimData2Frames]: status and frames pushed. *)
Variable AnimData2Frames : WebPData -> UtilsStatus * list Frame.
(** [WebPPictureDistortion]: PSNR-all ([distortion_results[4]]), or failure. *)
Variable PictureDistortion : WebPPicture -> WebPPicture -> option float.

(** Lines 76-79: the index after looking at the next decoded frame. *)
Definition advance (new_frames : list Frame) (new_frame_index : nat)
    (original_frame : Frame) : nat :=
  match new_frames !! (new_frame_index + 1)%nat with
  | Some next =>
      if timestamp next =? timestamp original_frame
      then (new_frame_index + 1)%nat else new_frame_index
  | None => new_frame_index
  end.

(** The [for] of lines 70-89 from the original frame it has reached: the
    vector [stats->psnr] when the loop is left, or [None] when
    [new_frames[new_frame_index]] is read out of range. *)
Fixpoint measure (new_frames originals : list Frame) (new_frame_index : nat)
    (acc : list float) : option (list float) :=
  match originals with
  | [] => Some acc
  | original_frame :: rest =>
      let idx := advance new_frames new_frame_index original_frame in
      match new_frames !! idx with
      | None => None
      | Some new_frame =>
          match PictureDistortion (pic original_frame) (pic new_frame) with
          | None => Some acc                                  (* [break] *)
          | Some d => measure new_frames rest idx (acc ++ [d])
          end
      end
  end.

(** [std::accumulate(first, last, 0.0)]: a sum of [double]s. *)
Definition accumulate (l : list float) : float :=
  foldl (fun acc x => F64.add acc (f32_to_f64 x)) F64.zero l.

(** Lines 95-101, for a vector of [frame_count] values. *)
Definition record_statistics (frame_count : nat) (l : list float)
  : option ThumbnailStatsPSNR :=
  let new_psnr := sort F32.ltb l in
  match head new_psnr, last new_psnr, new_psnr !! (frame_count / 2)%nat with
  | Some lo, Some hi, Some med =>
      Some {| psnr := l; min_psnr := lo; max_psnr := hi;
              mean_psnr :=
                f64_to_f32 (F64.div (accumulate new_psnr)
                                    (F64.of_int (Z.of_nat frame_count)));
              median_psnr := med |}
  | _, _, _ => None
  end.

Definition AnimData2PSNR (original_frames : list Frame) (webp_data : WebPData)
    (stats : option ThumbnailStatsPSNR) : Result :=
  match stats with
  | None => Returned kMemoryError None
  | Some st =>
      let '(data2frames_status, new_frames) := AnimData2Frames webp_data in
      match data2frames_status with
      | kOk =>
          let frame_count := length original_frames in
          match measure new_frames original_frames 0 (psnr st) with
          | None => Undefined
          | Some l =>
              if negb (length l =? frame_count)%nat
              then Returned kGenericError (Some (set_psnr l st))
              else
                match record_statistics frame_count l with
                | Some st' => Returned kOk (Some st')
                | None => Undefined
                end
          end
      | _ => Returned data2frames_status stats
      end
  end.

(** The number of frames the loop measured: what it appended. *)
Definition measured (new_frames originals : list Frame) (acc : list float)
  : option nat :=
  match measure new_frames originals 0 acc with
  | Some l => Some (length l - length acc)%nat
  | None => None
  end.

End PSNR.

(** *** CompareThumbnail *)

Record ThumbnailDiffPSNR : Type := {
  psnr_diff : list float;
  max_psnr_decrease : float;
  max_psnr_increase : float;
  mean_psnr_diff : float;
  median_psnr_diff : float
}.

(** What a call of [CompareThumbnail] leaves: the status returned and the
    object behind [diff] ([None] for a null pointer), or no defined
    behaviour. *)
Inductive DiffResult : Type :=
| DiffReturned (st : UtilsStatus) (diff : option ThumbnailDiffPSNR)
| DiffUndefined.

Section Compare.
Variable AnimData2Frames : WebPData -> UtilsStatus * list Frame.
Variable PictureDistortion : WebPPicture -> WebPPicture -> option float.
(** The value of a [float] member that was never written: the two objects
    of line 116 are declared without an initialiser. *)
Variable indeterminate : float.

(** [ThumbnailStatsPSNR stats_1, stats_2;] *)
Definition declared_stats : ThumbnailStatsPSNR :=
  {| psnr := []; min_psnr := indeterminate; max_psnr := indeterminate;
     mean_psnr := indeterminate; median_psnr := indeterminate |}.

(** The [for] of lines 124-126 from the index [i], with [acc] in
    [diff->psnr_diff]: [None] when a vector is read out of range. *)
Fixpoint differences (stats_1_psnr stats_2_psnr : list float)
    (i : nat) (rounds : nat) (acc : list float) : option (list float) :=
  match rounds with
  | O => Some acc
  | S rounds' =>
      match stats_2_psnr !! i, stats_1_psnr !! i with
      | Some b, Some a =>
          differences stats_1_psnr stats_2_psnr (S i) rounds'
            (acc ++ [F32.sub b a])
      | _, _ => None
      end
  end.

(** Lines 129-136, for [frame_count] original frames. *)
Definition record_diff_statistics (frame_count : nat) (l : list float)
  : option ThumbnailDiffPSNR :=
  let psnr_diff_copy := sort F32.ltb l in
  match head psnr_diff_copy, last psnr_diff_copy,
        psnr_diff_copy !! (frame_count / 2)%nat with
  | Some lo, Some hi, Some med =>
      Some {| psnr_diff := l; max_psnr_decrease := lo;
              max_psnr_increase := hi;
              mean_psnr_diff :=
                f64_to_f32 (F64.div (accumulate psnr_diff_copy)
                                    (F64.of_int (Z.of_nat frame_count)));
              median_psnr_diff := med |}
  | _, _, _ => None
  end.

(** The message written to [std::cerr] for an empty thumbnail is not
    modelled. *)
Definition CompareThumbnail (original_frames : list Frame)
    (webp_data_1 webp_data_2 : WebPData) (diff : option ThumbnailDiffPSNR)
  : DiffResult :=
  match original_frames with
  | [] => DiffReturned kOk diff
  | _ :: _ =>
      match diff with
      | None => DiffReturned kMemoryError None
      | Some df =>
          match AnimData2PSNR AnimData2Frames PictureDistortion
                  original_frames webp_data_1 (Some declared_stats) with
          | Undefined => DiffUndefined
          | Returned kOk stats_1 =>
              match AnimData2PSNR AnimData2Frames PictureDistortion
                      original_frames webp_data_2 (Some declared_stats) with
              | Undefined => DiffUndefined
              | Returned kOk stats_2 =>
                  let frame_count := length original_frames in
                  match differences
                          (psnr (default declared_stats stats_1))
                          (psnr (default declared_stats stats_2))
                          0 frame_count (psnr_diff df) with
                  | None => DiffUndefined
                  | Some l =>
                      match record_diff_statistics frame_count l with
                      | Some df' => DiffReturned kOk (Some df')
                      | None => DiffUndefined
                      end
                  end
              | Returned status _ => DiffReturned status (Some df)
              end
          | Returned status _ => DiffReturned status (Some df)
          end
      end
  end.

End Compare.

(** *** AnimData2Frames *)

(** The decoder of the WebP library, as [AnimData2Frames] uses it: the
    canvas size that [WebPAnimDecoderGetInfo] gives, or its failure, and
    what the successive calls of [WebPAnimDecoderGetNext] give, a frame of
    RGBA samples with its timestamp or a failure;
    [WebPAnimDecoderHasMoreFrames] holds while calls are left. *)
Definition RGBA : Type := list Byte.byte.

Record WebPAnimDecoder : Type := {
  anim_info : option (Z * Z);
  next_frames : list (option (RGBA * Z))
}.

Section Decode.
(** [WebPAnimDecoderNew(webp_data, NULL)], [None] for a null decoder. *)
Variable WebPAnimDecoderNew : WebPData -> option WebPAnimDecoder.
(** [WebPPictureInit]: a test of the library version, the same on every
    call. *)
Variable WebPPictureInit : bool.
(** [WebPPictureImportRGBA(pic, rgba, stride)] on a picture of the given
    width and height: the picture it fills, or failure. *)
Variable WebPPictureImportRGBA : Z -> Z -> RGBA -> Z -> option WebPPicture.
(** The picture of [new WebPPicture] before it receives samples. *)
Variable empty_picture : WebPPicture.

(** The [while] of lines 37-54, over the calls of [GetNext] that are
    left; [frames] is the vector so far. *)
Fixpoint decode_frames (width height : Z)
    (pending : list (option (RGBA * Z))) (frames : list Frame)
  : UtilsStatus * list Frame :=
  match pending with
  | [] => (kOk, frames)
  | None :: _ => (kMemoryError, frames)
  | Some (frame_rgba, timestamp) :: rest =>
      let pushed :=
        frames ++ [{| pic := empty_picture; timestamp := timestamp |}] in
      if negb WebPPictureInit then (kMemoryError, pushed)
      else
        match WebPPictureImportRGBA width height frame_rgba (width * 4) with
        | None => (kMemoryError, pushed)
        | Some p =>
            decode_frames width height rest
              (frames ++ [{| pic := p; timestamp := timestamp |}])
        end
  end.

Definition AnimData2Frames (webp_data : WebPData) (frames : list Frame)
  : UtilsStatus * list Frame :=
  match WebPAnimDecoderNew webp_data with
  | None => (kMemoryError, frames)
  | Some dec =>
      match anim_info dec with
      | None => (kGenericError, frames)
      | Some (width, height) =>
          decode_frames width height (next_frames dec) frames
      end
  end.

End Decode.
End Utils.

(** * Vocabulary of the statements *)

(** What the codec answers for a frame at the quality [q], the rest of its
    configuration kept. *)
Definition stats_at
    (EncodeStats : WebPPicture -> WebPConfig -> ext_result (Z * float))
    (f : FrameData) (q : Z) : ext_result (Z * float) :=
  EncodeStats (pic f) {| quality := q; lossless := lossless (config f) |}.

(** The slope of a frame between two qualities, as [ComputeSlope] forms it
    from the two answers of the codec. *)
Definition slope_between
    (EncodeStats : WebPPicture -> WebPConfig -> ext_result (Z * float))
    (f : FrameData) (low_quality high_quality : Z) : option float :=
  match stats_at EncodeStats f low_quality,
        stats_at EncodeStats f high_quality with
  | ExtOk (low_size, low_psnr), ExtOk (high_size, high_psnr) =>
      Some (if high_size =? low_size then F32.zero
            else F32.div (F32.sub high_psnr low_psnr)
                         (F32.of_int (high_size - low_size)))
  | _, _ => None
  end.

(** Two frames that differ at most in [config.quality]. *)
Definition requantised (f f' : FrameData) : Prop :=
  f' = set_quality (quality (config f')) f.

(** Two states that differ at most in the [config.quality] of frames. *)
Definition same_but_quality (s s' : State) : Prop :=
  Forall2 requantised (frames_ s) (frames_ s')
  /\ webp_data s' = webp_data s /\ history s' = history s.

(** The decision of lines 155-158 for a frame, from the state in which the
    round starts. *)
Definition kept_by
    (EncodeStats : WebPPicture -> WebPConfig -> ext_result (Z * float))
    (limit_slope : float) (w : Window) (s s' : State)
    (new_optim_list : list nat) (i : nat) : Prop :=
  exists f sl,
    frames_ s !! i = Some f
    /\ slope_between EncodeStats f (min_quality w) (max_quality w) = Some sl
    /\ (In i new_optim_list <->
        final_quality f = -1 \/ F32.ltb limit_slope sl = true)
    /\ (In i new_optim_list ->
        exists f', frames_ s' !! i = Some f'
                   /\ quality (config f') = mid_quality w).

(** The sizes in a list change from each element to the next. *)
Fixpoint adjacent_differ (l : list Z) : Prop :=
  match l with
  | a :: (b :: _) as t => a <> b /\ adjacent_differ t
  | _ => True
  end.

(** Calls of the refinement pass, one for each size seen on entry. *)
Definition refinement_calls (sizes : list Z) : list (Pass * Z) :=
  map (fun z => (PNoSlopeOptim, z)) sizes.

(** The driver's calls as the third claim reads them: the refinement pass
    at most five times, as long as the size changes, and then the top-up
    pass, once. [sizes] are the sizes on entry of the refinement pass and
    [ze] the size on entry of the top-up pass. *)
Definition refined_then_topped_up (h : list (Pass * Z)) : Prop :=
  exists z0 z1 sizes ze,
    h = [(PSlopeOptim, z0); (PNearLosslessEqual, z1)]
          ++ refinement_calls sizes ++ [(PExtraLossy, ze)]
    /\ (length sizes <= 5)%nat
    /\ adjacent_differ sizes
    /\ ((length sizes < 5)%nat -> last sizes = Some ze).

(** No restriction on the updates of a frame. *)
Definition any_update (g : FrameData -> FrameData) : Prop := True.

(** The scan of lines 206-241 as [LossyEncodeNoSlopeOptim] starts it: over
    all frames, from the animation size of the buffer. *)
Definition refine_scan_of
    (byte_budget_ : Z)
    (EncodeStats : WebPPicture -> WebPConfig -> ext_result (Z * float))
    (GetAnimationSize : WebPData -> Z) (s : State) : Outcome Z :=
  refine_scan byte_budget_ EncodeStats (seq 0 (length (frames_ s)))
    (Z.of_nat (length (frames_ s))) (GetAnimationSize (webp_data s)) s.

(** The codec answers for a frame at every quality from 0 to 100, with
    the size [sz q] and the PSNR [ps q]. *)
Definition answers
    (EncodeStats : WebPPicture -> WebPConfig -> ext_result (Z * float))
    (f : FrameData) (sz : Z -> Z) (ps : Z -> float) : Prop :=
  forall q, 0 <= q <= 100 -> stats_at EncodeStats f q = ExtOk (sz q, ps q).

(** [q] is the smallest quality in [0, 100] with
    [PSNR(100) - PSNR(q) <= 1.0]. *)
Definition threshold_quality (ps : Z -> float) (q : Z) : Prop :=
  0 <= q <= 100
  /\ within_1dB (ps 100) (ps q) = true
  /\ forall q', 0 <= q' < q -> within_1dB (ps 100) (ps q') = false.

(** [q] is a quality in [0, 100] within 1 dB of quality 100 whose
    predecessor, if it has one, is not. *)
Definition threshold_boundary (ps : Z -> float) (q : Z) : Prop :=
  0 <= q <= 100
  /\ within_1dB (ps 100) (ps q) = true
  /\ (q = 0 \/ within_1dB (ps 100) (ps (q - 1)) = false).

(** Being within 1 dB of quality 100 is kept when the quality is raised:
    what the contract "a higher quality never has a lower PSNR" gives to the
    threshold test. *)
Definition threshold_monotone (ps : Z -> float) : Prop :=
  forall q q', 0 <= q <= q' -> q' <= 100 ->
    within_1dB (ps 100) (ps q) = true -> within_1dB (ps 100) (ps q') = true.

(** The slope (PSNR(100) - PSNR(q)) / (size(100) - size(q)), in [float]
    arithmetic. *)
Definition slope_to_100 (sz : Z -> Z) (ps : Z -> float) (q : Z) : float :=
  boundary_slope (sz 100) (ps 100) (sz q) (ps q).

(** size(q) and PSNR(q) of a frame: what the codec answers at quality
    [q]. *)
Definition size_at
    (EncodeStats : WebPPicture -> WebPConfig -> ext_result (Z * float))
    (f : FrameData) (q : Z) : Z :=
  match stats_at EncodeStats f q with ExtOk r => r.1 | ExtErr _ => 0 end.

Definition psnr_at
    (EncodeStats : WebPPicture -> WebPConfig -> ext_result (Z * float))
    (f : FrameData) (q : Z) : float :=
  match stats_at EncodeStats f q with ExtOk r => r.2 | ExtErr _ => S754_nan end.

(** The codec encodes the frame at every quality from 0 to 100. *)
Definition answered
    (EncodeStats : WebPPicture -> WebPConfig -> ext_result (Z * float))
    (f : FrameData) : Prop :=
  forall q, 0 <= q <= 100 -> exists r, stats_at EncodeStats f q = ExtOk r.

(** The slope the threshold search of [FindMedianSlope] is to record for a
    frame: the one at the smallest quality within 1 dB of quality 100. *)
Definition threshold_slope
    (EncodeStats : WebPPicture -> WebPConfig -> ext_result (Z * float))
    (f : FrameData) (slope : float) : Prop :=
  exists q,
    threshold_quality (psnr_at EncodeStats f) q
    /\ slope = slope_to_100 (size_at EncodeStats f) (psnr_at EncodeStats f) q.

(** The same at a boundary of the 1 dB test. *)
Definition boundary_slope_of
    (EncodeStats : WebPPicture -> WebPConfig -> ext_result (Z * float))
    (f : FrameData) (slope : float) : Prop :=
  exists q,
    threshold_boundary (psnr_at EncodeStats f) q
    /\ (threshold_monotone (psnr_at EncodeStats f) ->
        threshold_quality (psnr_at EncodeStats f) q)
    /\ slope = slope_to_100 (size_at EncodeStats f) (psnr_at EncodeStats f) q.

(** The buffer is within the byte budget. *)
Definition fits (byte_budget_ : Z) (s : State) : Prop :=
  WebPData_size (webp_data s) <= byte_budget_.

(** The same frame of an animation, at a quality that is not lower. *)
Definition raised (x x' : WebPPicture * Z * WebPConfig) : Prop :=
  x'.1 = x.1 /\ lossless x'.2 = lossless x.2 /\ quality x.2 <= quality x'.2.

(** Raising qualities never makes the assembled animation smaller: the
    size half of the codec's monotonicity contract, for whole animations. *)
Definition assembly_monotone
    (Assemble : list (WebPPicture * Z * WebPConfig) -> ext_result WebPData)
  : Prop :=
  forall l l' d d',
    Forall2 raised l l' -> Assemble l = ExtOk d -> Assemble l' = ExtOk d' ->
    WebPData_size d <= WebPData_size d'.

(** The codec and the assembler answer every call. *)
Definition codec_total
    (EncodeStats : WebPPicture -> WebPConfig -> ext_result (Z * float))
  : Prop :=
  forall p c, exists sz ps,
    EncodeStats p c = ExtOk (sz, ps) /\ F32.is_finite ps = true.

Definition assembler_total
    (Assemble : list (WebPPicture * Z * WebPConfig) -> ext_result WebPData)
  : Prop :=
  forall l, exists d, Assemble l = ExtOk d.

(** The frames in the order of their timestamps, as the sort of the
    embedding arranges them: frames with the same timestamp stay in the
    order in which they were given. *)
Definition by_timestamp (fs : list FrameData) : list FrameData :=
  sort (fun a b => timestamp_ms a <? timestamp_ms b) fs.

(** The animation with every frame at the quality [q] exceeds the budget. *)
Definition exceeds_at
    (byte_budget_ : Z)
    (Assemble : list (WebPPicture * Z * WebPConfig) -> ext_result WebPData)
    (q : Z) (fs : list FrameData) : Prop :=
  forall d, Assemble (assembler_input (map (set_quality q) fs)) = ExtOk d ->
            byte_budget_ < WebPData_size d.

(** The rounds of a [while] loop: the local variables and the state with
    which the body is entered, in order. *)
Fixpoint rounds {L} (fuel : nat) (cond : L -> bool)
    (body : L -> M (LoopStep L)) (l : L) (s : State) : list (L * State) :=
  if cond l then
    match fuel with
    | O => []
    | S n =>
        (l, s) :: match body l s with
                  | Done (Continue l') s' => rounds n cond body l' s'
                  | _ => []
                  end
    end
  else [].

(** The rounds of the search of lines 213-237 for the frame [curr_ind],
    entered as [refine_frame] enters it. *)
Definition refine_rounds_of
    (byte_budget_ : Z)
    (EncodeStats : WebPPicture -> WebPConfig -> ext_result (Z * float))
    (curr_ind : nat) (num_remaining_frames anim_size : Z) (s : State)
  : list (Window * Z * State) :=
  match frames_ s !! curr_ind with
  | Some frame =>
      let w0 := refine_window frame in
      rounds (window_fuel w0) (fun v => window_open (fst v))
        (refine_probe byte_budget_ EncodeStats curr_ind num_remaining_frames)
        (w0, anim_size)
        {| frames_ := alter (set_lossless 0) curr_ind (frames_ s);
           webp_data := webp_data s; history := history s |}
  | None => []
  end.

(** What a round of that search does with the answer [(new_size,
    new_psnr)] of the codec at the midpoint: the candidate is accepted when
    it improves the frame and is affordable, and then the frame, the
    animation size and the lower bound move; otherwise one bound moves. *)
Definition probe_result (byte_budget_ : Z) (num_remaining_frames : Z)
    (w : Window) (anim_size : Z) (frame : FrameData)
    (new_size : Z) (new_psnr : float) : FrameData * Window * Z :=
  if improves new_size new_psnr frame then
    if affordable byte_budget_ new_size frame anim_size num_remaining_frames
    then (accept (mid_quality w) new_size new_psnr frame, raise_min w,
          anim_size - encoded_size frame + new_size)
    else (frame, lower_max w, anim_size)
  else (frame, raise_min w, anim_size).

(** A candidate encoding improves a frame: a higher PSNR, or the same PSNR
    with a size that is not larger. *)
Definition improved (new_size : Z) (new_psnr : float) (g : FrameData) : Prop :=
  F32.ltb (final_psnr g) new_psnr = true
  \/ (F32.eqb new_psnr (final_psnr g) = true /\ new_size <= encoded_size g).

(** The size increase of a candidate is within the share of the slack: the
    comparison is made in [float], between the increase and the [int]
    quotient (byte_budget - anim_size) / num_remaining_frames. *)
Definition within_share (byte_budget_ num_remaining_frames anim_size : Z)
    (new_size : Z) (g : FrameData) : Prop :=
  F32.leb (F32.of_int (new_size - encoded_size g))
          (F32.of_int ((byte_budget_ - anim_size) ÷ num_remaining_frames))
  = true.

(** The quality at which the search of a frame starts. *)
Definition search_start (f : FrameData) : Z :=
  if lossless (config f) =? 0 then final_quality f else 70.

(** The codec answers for the frame, with a lossy configuration, at every
    quality of the window in which the scan searches it. *)
Definition answered_in_window
    (EncodeStats : WebPPicture -> WebPConfig -> ext_result (Z * float))
    (f : FrameData) : Prop :=
  forall q, search_start f <= q <= Z.min (search_start f + 30) 100 ->
    exists r, EncodeStats (pic f) {| quality := q; lossless := 0 |} = ExtOk r.

(** One round of the quality search of the frame [i], from the window [w],
    the running animation size [a] and the state [x] to [w'], [a'] and
    [x']: the codec is asked at the midpoint of the window; a candidate
    that improves the frame within the share is accepted, which writes the
    frame, books the size difference and moves the lower bound; one that
    improves it beyond the share moves the upper bound; one that does not
    improve it moves the lower bound. *)
Definition search_round
    (byte_budget_ : Z)
    (EncodeStats : WebPPicture -> WebPConfig -> ext_result (Z * float))
    (i : nat) (num_remaining_frames : Z)
    (w : Window) (a : Z) (x : State) (w' : Window) (a' : Z) (x' : State)
  : Prop :=
  exists g new_size new_psnr g',
    frames_ x !! i = Some g
    /\ stats_at EncodeStats g (mid_quality w) = ExtOk (new_size, new_psnr)
    /\ x' = {| frames_ := <[i := g']> (frames_ x);
               webp_data := webp_data x; history := history x |}
    /\ ((improved new_size new_psnr g
         /\ within_share byte_budget_ num_remaining_frames a new_size g
         /\ g' = accept (mid_quality w) new_size new_psnr
                   (set_quality (mid_quality w) g)
         /\ a' = a - encoded_size g + new_size
         /\ w' = raise_min w)
        \/ (improved new_size new_psnr g
            /\ ~ within_share byte_budget_ num_remaining_frames a new_size g
            /\ g' = set_quality (mid_quality w) g
            /\ a' = a
            /\ w' = lower_max w)
        \/ (~ improved new_size new_psnr g
            /\ g' = set_quality (mid_quality w) g
            /\ a' = a
            /\ w' = raise_min w)).

(** The quality search of the frame [i], round after round until the
    window is empty; every round probes a quality between [start] and
    [start + 30], capped at 100. *)
Inductive searched
    (byte_budget_ : Z)
    (EncodeStats : WebPPicture -> WebPConfig -> ext_result (Z * float))
    (i : nat) (num_remaining_frames : Z) (start : Z)
  : Window -> Z -> State -> Z -> State -> Prop :=
| searched_end w a x :
    max_quality w < min_quality w ->
    searched byte_budget_ EncodeStats i num_remaining_frames start w a x a x
| searched_round w a x w' a' x' a_end x_end :
    min_quality w <= max_quality w ->
    start <= mid_quality w <= Z.min (start + 30) 100 ->
    search_round byte_budget_ EncodeStats i num_remaining_frames
      w a x w' a' x' ->
    searched byte_budget_ EncodeStats i num_remaining_frames start
      w' a' x' a_end x_end ->
    searched byte_budget_ EncodeStats i num_remaining_frames start
      w a x a_end x_end.

(** The scan over the frames [idxs]: each frame is searched in the window
    from its start, with a lossy configuration, the running animation size
    that the frames before it have left, and one remaining frame less than
    the frame before it. *)
Inductive scanned
    (byte_budget_ : Z)
    (EncodeStats : WebPPicture -> WebPConfig -> ext_result (Z * float))
  : list nat -> Z -> Z -> State -> Z -> State -> Prop :=
| scanned_end rem a x : scanned byte_budget_ EncodeStats [] rem a x a x
| scanned_frame i rest rem a x f a' x' a_end x_end :
    frames_ x !! i = Some f ->
    searched byte_budget_ EncodeStats i rem (search_start f)
      {| min_quality := search_start f;
         max_quality := Z.min (search_start f + 30) 100 |}
      a
      {| frames_ := alter (set_lossless 0) i (frames_ x);
         webp_data := webp_data x; history := history x |}
      a' x' ->
    scanned byte_budget_ EncodeStats rest (rem - 1) a' x' a_end x_end ->
    scanned byte_budget_ EncodeStats (i :: rest) rem a x a_end x_end.

(** A PSNR that is not lower: unchanged, or above in the order of
    [float]. *)
Definition psnr_le (p p' : float) : Prop :=
  p' = p \/ F32.leb p p' = true.

(** A frame whose [final_quality] is as it was, and one whose
    [final_quality] is not lower than it was. *)
Definition same_final_quality (f f' : FrameData) : Prop :=
  final_quality f' = final_quality f.

Definition not_lowered (f f' : FrameData) : Prop :=
  final_quality f <= final_quality f'.

(** No frame has a [final_quality] above [q]. *)
Definition qualities_up_to (q : Z) (fs : list FrameData) : Prop :=
  forall f, In f fs -> final_quality f <= q.

(** What the scan of [LossyEncodeNoSlopeOptim] may do to a frame: the
    quality is not lowered unless the configuration was lossless, where the
    search restarts at 70; the PSNR is not lowered. *)
Definition refined (f f' : FrameData) : Prop :=
  (lossless (config f) = 0 -> final_quality f <= final_quality f')
  /\ (lossless (config f) <> 0 ->
      final_quality f' = final_quality f \/ 70 <= final_quality f')
  /\ psnr_le (final_psnr f) (final_psnr f').

(** What [ExtraLossyEncode] may do to a frame: raise its quality, and then
    record the PSNR of the codec at a higher quality. *)
Definition topped_up
    (EncodeStats : WebPPicture -> WebPConfig -> ext_result (Z * float))
    (f f' : FrameData) : Prop :=
  pic f' = pic f /\ lossless (config f') = lossless (config f)
  /\ final_quality f <= final_quality f'
  /\ (final_psnr f' = final_psnr f
      \/ exists q, final_quality f < q <= 100
                   /\ final_psnr f' = psnr_at EncodeStats f q).

(** The PSNR half of the codec's monotonicity contract for a frame, on the
    qualities from 0 to 100, and the frame recording the PSNR of its final
    quality. *)
Definition psnr_monotone
    (EncodeStats : WebPPicture -> WebPConfig -> ext_result (Z * float))
    (f : FrameData) : Prop :=
  forall q q', 0 <= q <= q' -> q' <= 100 ->
    F32.leb (psnr_at EncodeStats f q) (psnr_at EncodeStats f q') = true.

Definition psnr_recorded
    (EncodeStats : WebPPicture -> WebPConfig -> ext_result (Z * float))
    (f : FrameData) : Prop :=
  final_psnr f = psnr_at EncodeStats f (final_quality f).

(** The decoded frame against which [AnimData2PSNR] measures the original
    frame [k]: the index of lines 76-79 after the original frames 0..k. *)
Definition matched (new_frames originals : list Utils.Frame) (k : nat) : nat :=
  foldl (Utils.advance new_frames) 0%nat (take (S k) originals).

(** No value is a NaN. *)
Definition ordered_values (l : list float) : Prop :=
  forall d, In d l -> F32.is_nan d = false.

(** Two frames of the same picture and timestamp. *)
Definition same_source (f f' : FrameData) : Prop :=
  pic f' = pic f /\ timestamp_ms f' = timestamp_ms f.

(** A frame whose configuration is at its final quality and whose
    [encoded_size] and [final_psnr] are what the codec answers for that
    configuration. *)
Definition recorded
    (EncodeStats : WebPPicture -> WebPConfig -> ext_result (Z * float))
    (f : FrameData) : Prop :=
  quality (config f) = final_quality f
  /\ EncodeStats (pic f) (config f) = ExtOk (encoded_size f, final_psnr f).

(** A frame whose results are as they were: quality, PSNR, size and
    near-lossless flag. *)
Definition untouched (f f' : FrameData) : Prop :=
  final_quality f' = final_quality f /\ final_psnr f' = final_psnr f
  /\ encoded_size f' = encoded_size f /\ near_lossless f' = near_lossless f.

(** What the scan of [LossyEncodeNoSlopeOptim] leaves of a frame [f]: its
    results as they were, or a lossy encoding at a quality of the window in
    which the frame is searched. *)
Definition rescanned (f f' : FrameData) : Prop :=
  untouched f f'
  \/ (near_lossless f' = false
      /\ min_quality (refine_window f) <= final_quality f'
         <= max_quality (refine_window f)).

(** A configuration as lines 243-246 leave it. *)
Definition restored (f : FrameData) : Prop :=
  quality (config f) = final_quality f
  /\ lossless (config f) = b2z (near_lossless f).

(** The sum of the [encoded_size] of the frames. *)
Definition total_encoded (fs : list FrameData) : Z :=
  foldr (fun f acc => encoded_size f + acc) 0 fs.

(** The index of a frame that is not near-lossless. *)
Definition lossy_index (fs : list FrameData) (j : nat) : Prop :=
  exists f, fs !! j = Some f /\ near_lossless f = false.

(** What [ExtraLossyEncode] keeps of a frame: its near-lossless flag; the
    whole frame when it is near-lossless; a [final_quality] of at most
    100. *)
Definition topup_keeps (f f' : FrameData) : Prop :=
  near_lossless f' = near_lossless f
  /\ (near_lossless f = true -> f' = f)
  /\ (final_quality f <= 100 -> final_quality f' <= 100).

(** A frame of the vector as [AnimData2Frames] makes it from a decoded
    frame [x]: the picture imported from its samples, with its timestamp. *)
Definition imported
    (WebPPictureImportRGBA : Z -> Z -> Utils.RGBA -> Z -> option WebPPicture)
    (width height : Z) (x : Utils.RGBA * Z) (fr : Utils.Frame) : Prop :=
  WebPPictureImportRGBA width height x.1 (width * 4) = Some (Utils.pic fr)
  /\ Utils.timestamp fr = x.2.

(** * Concrete codecs and frame sets, for the examples *)

Module Examples.

Definition frame (p : WebPPicture) (ts : Z) : FrameData :=
  {| pic := p; timestamp_ms := ts;
     config := {| quality := 0; lossless := 0 |};
     encoded_size := 0; final_quality := -1;
     final_psnr := F32.zero; near_lossless := false |}.

Definition bytes (n : Z) : WebPData := repeat Byte.x00 (Z.to_nat n).

Definition start (fs : list FrameData) : State :=
  {| frames_ := fs; webp_data := WebPDataInit; history := [] |}.

(** A codec whose sizes and PSNR grow with the quality: [10 + q] bytes and
    [20 + q / 5] dB, for every picture. *)
Definition ramp_stats (p : WebPPicture) (c : WebPConfig)
  : ext_result (Z * float) :=
  ExtOk (10 + quality c, F32.of_int (20 + quality c ÷ 5)).

(** The same codec, answering below quality 0 as at 0 and above 100 as at
    100: it answers every call with a finite PSNR. *)
Definition clamp (q : Z) : Z := Z.max 0 (Z.min q 100).

Definition clamped_stats (p : WebPPicture) (c : WebPConfig)
  : ext_result (Z * float) :=
  ExtOk (10 + clamp (quality c), F32.of_int (20 + clamp (quality c) ÷ 5)).

(** An assembler that adds up the sizes a codec gives to the frames. *)
Definition total_size
    (stats : WebPPicture -> WebPConfig -> ext_result (Z * float))
    (l : list (WebPPicture * Z * WebPConfig)) : Z :=
  foldr (fun x acc =>
           match stats x.1.1 x.2 with
           | ExtOk r => r.1 + acc
           | ExtErr _ => acc
           end) 0 l.

Definition sum_sizes
    (stats : WebPPicture -> WebPConfig -> ext_result (Z * float))
    (l : list (WebPPicture * Z * WebPConfig)) : ext_result WebPData :=
  ExtOk (bytes (total_size stats l)).

(** A codec that gives every quality the same encoding: 100 bytes, 40 dB. *)
Definition flat_stats (p : WebPPicture) (c : WebPConfig)
  : ext_result (Z * float) :=
  ExtOk (100, F32.of_int 40).

(** The qualities 0, 1, ..., 100. *)
Definition qualities : list Z := map Z.of_nat (seq 0 101).

(** The 1 dB test of a codec is monotone, checked on the table of its
    answers. *)
Definition monotone_on_table (ps : Z -> float) : bool :=
  forallb (fun q =>
             forallb (fun q' =>
                        implb (q <=? q')
                          (implb (within_1dB (ps 100) (ps q))
                                 (within_1dB (ps 100) (ps q'))))
               qualities)
    qualities.

(** The PSNR of a codec does not fall when the quality rises, checked on
    the table of its answers. *)
Definition psnr_monotone_on_table (ps : Z -> float) : bool :=
  forallb (fun q =>
             forallb (fun q' => implb (q <=? q') (F32.leb (ps q) (ps q')))
               qualities)
    qualities.

(** The slope at a boundary of the 1 dB test is no NaN, checked on the
    table of a codec's answers. *)
Definition ordered_on_table (sz : Z -> Z) (ps : Z -> float) : bool :=
  forallb (fun q =>
             implb (within_1dB (ps 100) (ps q)
                    && ((q =? 0) || negb (within_1dB (ps 100) (ps (q - 1)))))
                   (negb (F32.is_nan (slope_to_100 sz ps q))))
    qualities.

(** A codec whose sizes grow faster for the pictures with a larger number:
    [10 + p * q] bytes and [20 + q / 5] dB for the picture [p]. *)
Definition scaled_stats (p : WebPPicture) (c : WebPConfig)
  : ext_result (Z * float) :=
  ExtOk (10 + Z.of_nat p * quality c, F32.of_int (20 + quality c ÷ 5)).

Definition one_frame : list FrameData := [frame 1%nat 0].

Definition three_frames : list FrameData :=
  [frame 1%nat 0; frame 4%nat 10; frame 2%nat 20].

Definition two_frames : list FrameData := [frame 1%nat 0; frame 2%nat 10].

(** 0.2, the slope of [ramp_stats] between the qualities 95 and 100. *)
Definition one_fifth : float := F32.div F32.one (F32.of_int 5).

(** The driver on [ramp_stats] with a budget of 150 bytes, when the
    near-lossless pass switches no frame and the equal-quality pass keeps
    the animation it is given. *)
Definition plain_driver : M unit :=
  GenerateAnimationSlopeOptim 150 0 ramp_stats (sum_sizes ramp_stats)
    WebPData_size (ret tt) (ret tt).

(** A near-lossless pass that switches the first frame. *)
Definition switch_first : M unit :=
  upd_frame 0 (fun f => set_lossless 1 (set_near_lossless true f)).

Definition switching_driver : M unit :=
  GenerateAnimationSlopeOptim 150 0 ramp_stats (sum_sizes ramp_stats)
    WebPData_size switch_first (ret tt).

(** The same driver with a budget of 208 bytes: two frames at quality 94
    have 208 bytes. *)
Definition tight_driver : M unit :=
  GenerateAnimationSlopeOptim 208 0 ramp_stats (sum_sizes ramp_stats)
    WebPData_size switch_first (ret tt).

(** The driver on [scaled_stats] with a budget of 700 bytes, when the
    near-lossless pass switches no frame and the equal-quality pass keeps
    the animation it is given. *)
Definition scaled_driver : M unit :=
  GenerateAnimationSlopeOptim 700 0 scaled_stats (sum_sizes scaled_stats)
    WebPData_size (ret tt) (ret tt).

(** Two frames as the slope pass leaves them at quality 50 under
    [ramp_stats], with the 120 bytes of their animation. *)
Definition at_quality_50 : State :=
  {| frames_ := map (fun f => set_stats 60 (F32.of_int 30)
                                (set_final_quality 50 f)) two_frames;
     webp_data := bytes 120; history := [] |}.

(** An assembler whose container always has 1000 bytes. *)
Definition bulky (l : list (WebPPicture * Z * WebPConfig))
  : ext_result WebPData :=
  ExtOk (bytes 1000).

(** A codec whose encodings all have 2^24 + 1 bytes, with the PSNR of
    [ramp_stats]. *)
Definition huge_stats (p : WebPPicture) (c : WebPConfig)
  : ext_result (Z * float) :=
  ExtOk (16777217, F32.of_int (20 + quality c ÷ 5)).

(** One frame at quality 70, with no byte and 30 dB recorded. *)
Definition light_frame : State :=
  {| frames_ := [set_stats 0 (F32.of_int 30)
                   (set_final_quality 70 (frame 1%nat 0))];
     webp_data := []; history := [] |}.

(** The driver on [clamped_stats], with missing passes that do nothing. *)
Definition clamped_driver (byte_budget_ : Z) : M unit :=
  GenerateAnimationSlopeOptim byte_budget_ 0 clamped_stats
    (sum_sizes clamped_stats) WebPData_size (ret tt) (ret tt).

(** The codec [ramp_stats] on the qualities from 0 to 100, with a stats
    error at any other quality, and the driver on it. *)
Definition strict_stats (p : WebPPicture) (c : WebPConfig)
  : ext_result (Z * float) :=
  if (0 <=? quality c) && (quality c <=? 100) then ramp_stats p c
  else ExtErr StatsFailure.

Definition strict_driver (byte_budget_ : Z) : M unit :=
  GenerateAnimationSlopeOptim byte_budget_ 0 strict_stats
    (sum_sizes strict_stats) WebPData_size (ret tt) (ret tt).

(** Two original frames, a decoder that gives them back, and a statistics
    object: fresh, or holding a value of an earlier use. *)
Definition movie : list Utils.Frame :=
  [{| Utils.pic := 1%nat; Utils.timestamp := 0 |};
   {| Utils.pic := 2%nat; Utils.timestamp := 10 |}].

Definition decoded_as_given (d : WebPData) : Utils.UtilsStatus * list Utils.Frame :=
  (Utils.kOk, movie).

(** A decoder that succeeds and gives no frame. *)
Definition decoded_nothing (d : WebPData)
  : Utils.UtilsStatus * list Utils.Frame :=
  (Utils.kOk, []).

Definition fresh_stats : Utils.ThumbnailStatsPSNR :=
  {| Utils.psnr := []; Utils.min_psnr := F32.zero; Utils.max_psnr := F32.zero;
     Utils.mean_psnr := F32.zero; Utils.median_psnr := F32.zero |}.

Definition used_stats : Utils.ThumbnailStatsPSNR :=
  Utils.set_psnr [F32.of_int 35] fresh_stats.

(** A distortion of [40 - p] dB for the picture [p], and one that fails on
    the picture 2. *)
Definition distortion_by_picture (p q : WebPPicture) : option float :=
  Some (F32.of_int (40 - Z.of_nat p)).

Definition second_fails (p q : WebPPicture) : option float :=
  if (p =? 2)%nat then None else distortion_by_picture p q.

(** A codec that reproduces every picture exactly: the PSNR is infinite. *)
Definition exact_stats (p : WebPPicture) (c : WebPConfig)
  : ext_result (Z * float) :=
  ExtOk (10 + quality c, S754_infinity false).

(** Two near-lossless frames with an animation of 120 bytes. *)
Definition all_near_lossless : State :=
  {| frames_ := map (set_near_lossless true) two_frames;
     webp_data := bytes 120; history := [] |}.

(** The statistics of [movie] under [distortion_by_picture], and a
    difference object that holds no value. *)
Definition movie_stats : Utils.ThumbnailStatsPSNR :=
  {| Utils.psnr := [F32.of_int 39; F32.of_int 38];
     Utils.min_psnr := F32.of_int 38; Utils.max_psnr := F32.of_int 39;
     Utils.mean_psnr := F32.div (F32.of_int 77) (F32.of_int 2);
     Utils.median_psnr := F32.of_int 39 |}.

Definition fresh_diff : Utils.ThumbnailDiffPSNR :=
  {| Utils.psnr_diff := []; Utils.max_psnr_decrease := F32.zero;
     Utils.max_psnr_increase := F32.zero; Utils.mean_psnr_diff := F32.zero;
     Utils.median_psnr_diff := F32.zero |}.

(** A decoder with a canvas of 2 by 2 pixels and two frames, and an import
    that fails on samples that are not empty. *)
Definition two_frame_decoder (d : WebPData) : option Utils.WebPAnimDecoder :=
  Some {| Utils.anim_info := Some (2, 2);
          Utils.next_frames := [Some ([], 0); Some ([Byte.x01], 10)] |}.

Definition import_empty (width height : Z) (rgba : Utils.RGBA) (stride : Z)
  : option WebPPicture :=
  match rgba with [] => Some 7%nat | _ => None end.

End Examples.

(** * Reasoning principles *)

(** A triple for the monad: from a state in [P], the computation ends in
    [Q] when it runs to its end and in [R] when it returns early. With
    [bad := True] the triple says nothing of runs that are undefined or out
    of fuel (partial correctness); with [bad := False] it excludes them. *)
Definition triple (bad : Prop) {A} (P : State -> Prop) (m : M A)
    (Q : A -> State -> Prop) (R : Status -> State -> Prop) : Prop :=
  forall s, P s ->
    match m s with
    | Done a s' => Q a s'
    | Return st s' => R st s'
    | Undefined | OutOfFuel => bad
    end.

(** A property of the state that a computation keeps, however it ends. *)
Definition preserves {A} (I : State -> Prop) (m : M A) : Prop :=
  triple True I m (fun _ => I) (fun _ => I).

(** The ghost history is not touched. *)
Definition keeps_history {A} (m : M A) : Prop :=
  forall h, preserves (fun s => history s = h) m.

(** A computation that leaves its function early only with an error. *)
Definition fails_only {A} (m : M A) : Prop :=
  triple True (fun _ => True) m (fun _ _ => True) (fun st _ => st <> kOk).

Lemma triple_ret bad {A} (P : State -> Prop) (a : A) Q R :
  (forall s, P s -> Q a s) -> triple bad P (ret a) Q R.
Proof. intros H s Hs. simpl. auto. Qed.

Lemma triple_return bad {A} (P : State -> Prop) st Q R :
  (forall s, P s -> R st s) -> triple bad P (@return_ A st) Q R.
Proof. intros H s Hs. simpl. auto. Qed.

Lemma triple_bind bad {A B} P (m : M A) (k : A -> M B) Q1 Q R :
  triple bad P m Q1 R ->
  (forall a, triple bad (Q1 a) (k a) Q R) ->
  triple bad P (bind m k) Q R.
Proof.
  intros Hm Hk s Hs. unfold bind. specialize (Hm s Hs).
  destruct (m s) as [a s'| st s'| |]; auto.
  apply (Hk a s' Hm).
Qed.

Lemma triple_weaken bad {A} (P P' : State -> Prop) (m : M A)
    (Q Q' : A -> State -> Prop) (R R' : Status -> State -> Prop) :
  triple bad P' m Q' R' ->
  (forall s, P s -> P' s) ->
  (forall a s, Q' a s -> Q a s) ->
  (forall st s, R' st s -> R st s) ->
  triple bad P m Q R.
Proof.
  intros Hm HP HQ HR s Hs. specialize (Hm s (HP s Hs)).
  destruct (m s); auto.
Qed.

Lemma triple_get bad (P : State -> Prop) Q R :
  (forall s, P s -> Q s s) -> triple bad P get Q R.
Proof. intros H s Hs. simpl. auto. Qed.

Lemma triple_get_frame bad (P : State -> Prop) i Q R :
  (forall s f, P s -> frames_ s !! i = Some f -> Q f s) ->
  (forall s, P s -> frames_ s !! i = None -> bad) ->
  triple bad P (get_frame i) Q R.
Proof.
  intros H Hb s Hs. unfold get_frame.
  destruct (frames_ s !! i) eqn:E; eauto.
Qed.

Lemma triple_for_each bad {A} (I : State -> Prop) (l : list A) body R :
  (forall x, In x l -> triple bad I (body x) (fun _ => I) R) ->
  triple bad I (for_each l body) (fun _ => I) R.
Proof.
  induction l as [|x l IH]; intros H.
  - apply triple_ret. auto.
  - simpl. eapply triple_bind.
    + apply H. now left.
    + intros u. apply IH. intros y Hy. apply H. now right.
Qed.

Lemma triple_collect bad {A B} (I : State -> Prop) (l : list A)
    (f : A -> M B) R :
  (forall x, In x l -> triple bad I (f x) (fun _ => I) R) ->
  triple bad I (collect l f) (fun _ => I) R.
Proof.
  induction l as [|x l IH]; intros H.
  - apply triple_ret. auto.
  - simpl. eapply triple_bind.
    + apply H. now left.
    + intros y. eapply triple_bind.
      * apply IH. intros z Hz. apply H. now right.
      * intros ys. apply triple_ret. auto.
Qed.

(** The loop rule: [I] is the invariant, [mu] bounds the rounds left. *)
Lemma triple_while bad {L} (I : L -> State -> Prop) (mu : L -> nat)
    (cond : L -> bool) (body : L -> M (LoopStep L)) Q R :
  (forall l s, I l s -> cond l = false -> Q l s) ->
  (forall l s, I l s -> cond l = true -> bad \/ (0 < mu l)%nat) ->
  (forall l, cond l = true ->
     triple bad (I l) (body l)
       (fun r s' => match r with
                    | Continue l' => I l' s' /\ (bad \/ (mu l' < mu l)%nat)
                    | Break l' => Q l' s'
                    end) R) ->
  forall fuel l, bad \/ (mu l <= fuel)%nat ->
    triple bad (I l) (while fuel cond body l) Q R.
Proof.
  intros Hexit Hpos Hbody fuel.
  induction fuel as [|n IH]; intros l Hfuel s Hs; simpl;
    destruct (cond l) eqn:Hc; simpl; auto.
  - destruct Hfuel as [Hb|Hf]; [exact Hb|].
    destruct (Hpos l s Hs Hc) as [Hb|Hp]; [exact Hb|lia].
  - specialize (Hbody l Hc s Hs). unfold bind.
    destruct (body l s) as [[l'|l'] s'| st s'| |]; auto.
    destruct Hbody as [HI Hmu]. apply IH; [|exact HI].
    destruct Hmu as [Hb|Hlt]; [now left|].
    destruct Hfuel as [Hb|Hf]; [now left|right; lia].
Qed.

(** Insertion sort: a permutation, sorted when the order is total. *)
Section SortFacts.
Context {A : Type} (lt : A -> A -> bool) (le : A -> A -> Prop) (P : A -> Prop).
Hypothesis lt_le : forall a b, lt a b = true -> le a b.
Hypothesis total : forall a b, P a -> P b -> lt a b = false -> le b a.
Hypothesis le_trans : forall a b c, le a b -> le b c -> le a c.

Lemma insert_sorted_perm x l : Permutation (insert_sorted lt x l) (x :: l).
Proof using Type.
  induction l as [|y l IH]; simpl; [reflexivity|].
  destruct (lt y x); [|reflexivity].
  rewrite IH. apply perm_swap.
Qed.

Lemma sort_perm l : Permutation (sort lt l) l.
Proof using Type.
  unfold sort. induction l as [|x l IH]; simpl; [reflexivity|].
  rewrite insert_sorted_perm. now rewrite IH.
Qed.

Lemma insert_sorted_sorted x l :
  P x -> List.Forall P l ->
  StronglySorted le l -> StronglySorted le (insert_sorted lt x l).
Proof using lt_le total le_trans.
  intros Hx HP Hs. induction Hs as [|y l Hs IH Hy]; simpl.
  - repeat constructor.
  - apply List.Forall_cons_iff in HP. destruct HP as [Py HP].
    destruct (lt y x) eqn:E.
    + constructor; [now apply IH|].
      eapply Permutation_Forall; [symmetry; apply insert_sorted_perm|].
      constructor; [now apply lt_le|exact Hy].
    + assert (Hxy : le x y) by now apply total.
      constructor; [now constructor|]. constructor; [exact Hxy|].
      eapply List.Forall_impl; [|exact Hy]. intros z Hz.
      eapply le_trans; eassumption.
Qed.

Lemma sort_sorted l : List.Forall P l -> StronglySorted le (sort lt l).
Proof using lt_le total le_trans.
  unfold sort. induction l as [|x l IH]; intros HP; simpl; [constructor|].
  apply List.Forall_cons_iff in HP. destruct HP as [Px HP].
  apply insert_sorted_sorted; auto.
  eapply Permutation_Forall; [symmetry; apply (sort_perm l)|exact HP].
Qed.

Lemma sorted_last l z :
  StronglySorted le (l ++ [z]) -> List.Forall (fun d => le d z) l.
Proof using Type.
  induction l as [|x l IH]; simpl; intros H; [constructor|].
  apply StronglySorted_inv in H. destruct H as [Hs Hx].
  constructor; [|now apply IH].
  apply List.Forall_forall with (x := z) in Hx; [exact Hx|].
  apply in_or_app. right. now left.
Qed.
End SortFacts.

(** ** The order of [float] values *)

Lemma F32_ltb_leb a b : F32.ltb a b = true -> F32.leb a b = true.
Proof.
  unfold F32.ltb, F32.leb, SFltb, SFleb.
  destruct (SFcompare a b) as [[]|]; congruence.
Qed.

Lemma SFcompare_Eq_sym a b :
  SFcompare a b = Some Eq -> SFcompare b a = Some Eq.
Proof.
  destruct a as [[]|[]| |[] ma ea], b as [[]|[]| |[] mb eb]; simpl;
    try congruence;
    rewrite (Z.compare_antisym ea eb);
    change (Pos.compare_cont Eq mb ma) with (Pos.compare mb ma);
    change (Pos.compare_cont Eq ma mb) with (Pos.compare ma mb);
    rewrite (Pos.compare_antisym ma mb);
    destruct (ea ?= eb); simpl; try congruence;
    destruct (ma ?= mb)%positive; simpl; congruence.
Qed.

Lemma F32_eqb_leb a b : F32.eqb b a = true -> F32.leb a b = true.
Proof.
  unfold F32.eqb, F32.leb, SFeqb, SFleb. intros H.
  destruct (SFcompare b a) as [[]|] eqn:E; try discriminate.
  now rewrite (SFcompare_Eq_sym _ _ E).
Qed.

Lemma F32_leb_trans a b c :
  F32.leb a b = true -> F32.leb b c = true -> F32.leb a c = true.
Proof.
  unfold F32.leb, SFleb.
  destruct a as [[]|[]| |[] ma ea], b as [[]|[]| |[] mb eb],
           c as [[]|[]| |[] mc ec]; simpl; try congruence;
    repeat match goal with
           | |- context [Z.compare ?x ?y] =>
               destruct (Z.compare_spec x y); subst; simpl; try congruence
           | |- context [Pos.compare_cont Eq ?x ?y] =>
               change (Pos.compare_cont Eq x y) with (Pos.compare x y);
               destruct (Pos.compare_spec x y); subst; simpl; try congruence
           end; try lia.
Qed.

Lemma SFcompare_antisym a b c :
  SFcompare a b = Some c -> SFcompare b a = Some (CompOpp c).
Proof.
  destruct a as [[]|[]| |[] ma ea], b as [[]|[]| |[] mb eb]; simpl;
    try (intros H; injection H as <-; reflexivity); try discriminate;
    rewrite (Z.compare_antisym ea eb);
    change (Pos.compare_cont Eq mb ma) with (Pos.compare mb ma);
    change (Pos.compare_cont Eq ma mb) with (Pos.compare ma mb);
    rewrite (Pos.compare_antisym ma mb);
    destruct (ea ?= eb); simpl;
    try (intros H; injection H as <-; reflexivity);
    destruct (ma ?= mb)%positive; simpl;
    intros H; injection H as <-; reflexivity.
Qed.

Lemma SFcompare_ordered a b :
  F32.is_nan a = false -> F32.is_nan b = false ->
  exists c, SFcompare a b = Some c.
Proof.
  destruct a as [[]|[]| |[] ma ea], b as [[]|[]| |[] mb eb]; simpl;
    intros; try discriminate; eauto.
Qed.

Lemma F32_ltb_false_leb a b :
  F32.is_nan a = false -> F32.is_nan b = false ->
  F32.ltb a b = false -> F32.leb b a = true.
Proof.
  intros Ha Hb. unfold F32.ltb, F32.leb, SFltb, SFleb.
  destruct (SFcompare_ordered a b Ha Hb) as [c E]. rewrite E.
  rewrite (SFcompare_antisym _ _ _ E). destruct c; simpl; congruence.
Qed.

Lemma F32_leb_refl a : F32.is_nan a = false -> F32.leb a a = true.
Proof.
  intros Ha. apply F32_ltb_false_leb; auto.
  unfold F32.ltb, SFltb. destruct (SFcompare_ordered a a Ha Ha) as [c E].
  pose proof (SFcompare_antisym _ _ _ E) as E'. rewrite E in *.
  destruct c; simpl in *; congruence.
Qed.

Lemma F32_ltb_not_leb a b : F32.ltb a b = true -> F32.leb b a = false.
Proof.
  unfold F32.ltb, F32.leb, SFltb, SFleb.
  destruct (SFcompare a b) as [c|] eqn:E; [|discriminate].
  rewrite (SFcompare_antisym _ _ _ E). destruct c; simpl; congruence.
Qed.

Lemma F32_ltb_ordered a b :
  F32.ltb a b = true -> F32.is_nan a = false /\ F32.is_nan b = false.
Proof.
  destruct a as [[]|[]| |[] ma ea], b as [[]|[]| |[] mb eb];
    try discriminate; auto.
Qed.

Lemma F32_ltb_irrefl a : F32.ltb a a = false.
Proof.
  unfold F32.ltb, SFltb. destruct (SFcompare a a) as [c|] eqn:E; [|reflexivity].
  pose proof (SFcompare_antisym _ _ _ E) as E'. rewrite E in E'.
  destruct c; simpl in E'; congruence.
Qed.

Lemma F32_ltb_trans a b c :
  F32.ltb a b = true -> F32.ltb b c = true -> F32.ltb a c = true.
Proof.
  intros Hab Hbc.
  destruct (F32_ltb_ordered _ _ Hab) as [Ha _].
  destruct (F32_ltb_ordered _ _ Hbc) as [_ Hc].
  destruct (F32.ltb a c) eqn:E; [reflexivity|].
  pose proof (F32_ltb_false_leb a c Ha Hc E) as Hca.
  pose proof (F32_leb_trans _ _ _ Hca (F32_ltb_leb _ _ Hab)) as Hcb.
  rewrite (F32_ltb_not_leb _ _ Hbc) in Hcb. discriminate.
Qed.

Lemma F32_equivalent_leb a b :
  F32.is_nan a = false -> F32.is_nan b = false ->
  equivalent F32.ltb a b = true ->
  F32.leb a b = true /\ F32.leb b a = true.
Proof.
  intros Ha Hb H. unfold equivalent in H.
  apply andb_prop in H. destruct H as [H1 H2].
  apply negb_true_iff in H1, H2.
  split; now apply F32_ltb_false_leb.
Qed.

(** [<] is a strict weak ordering of floats none of which is a NaN. *)
Lemma strict_weak_order_ordered (l : list float) :
  (forall d, In d l -> F32.is_nan d = false) ->
  strict_weak_order F32.ltb l = true.
Proof.
  intros Hord. unfold strict_weak_order.
  apply forallb_forall. intros a Ha. apply andb_true_intro. split.
  { now rewrite F32_ltb_irrefl. }
  apply forallb_forall. intros b Hb. apply forallb_forall. intros c Hc.
  apply andb_true_intro. split.
  - destruct (F32.ltb a b) eqn:Hab; [|reflexivity].
    destruct (F32.ltb b c) eqn:Hbc; [|reflexivity].
    simpl. now rewrite (F32_ltb_trans _ _ _ Hab Hbc).
  - destruct (equivalent F32.ltb a b) eqn:Hab; [|reflexivity].
    destruct (equivalent F32.ltb b c) eqn:Hbc; [|reflexivity].
    simpl.
    destruct (F32_equivalent_leb a b) as [H1 H2]; auto.
    destruct (F32_equivalent_leb b c) as [H3 H4]; auto.
    unfold equivalent.
    destruct (F32.ltb a c) eqn:E1.
    { apply F32_ltb_not_leb in E1.
      rewrite (F32_leb_trans _ _ _ H4 H2) in E1. discriminate. }
    destruct (F32.ltb c a) eqn:E2; [|reflexivity].
    apply F32_ltb_not_leb in E2.
    rewrite (F32_leb_trans _ _ _ H1 H3) in E2. discriminate.
Qed.

(** * The passes *)

Section Facts.
Variable byte_budget_ : Z.
Variable minimum_lossy_quality_ : Z.
Variable EncodeStats : WebPPicture -> WebPConfig -> ext_result (Z * float).
Variable Assemble : list (WebPPicture * Z * WebPConfig) -> ext_result WebPData.
Variable GetAnimationSize : WebPData -> Z.
Variable NearLosslessEqual : M unit.
Variable GenerateAnimationEqualQuality : M unit.

Local Abbreviation NoSlopeOptim :=
  (LossyEncodeNoSlopeOptim byte_budget_ EncodeStats Assemble GetAnimationSize).
Local Abbreviation SlopeOptim :=
  (LossyEncodeSlopeOptim byte_budget_ minimum_lossy_quality_ EncodeStats Assemble).
Local Abbreviation ExtraLossy :=
  (ExtraLossyEncode byte_budget_ EncodeStats Assemble).
Local Abbreviation Driver :=
  (GenerateAnimationSlopeOptim byte_budget_ minimum_lossy_quality_ EncodeStats
     Assemble GetAnimationSize NearLosslessEqual GenerateAnimationEqualQuality).

(** ** LossyEncodeNoSlopeOptim: the guard on entry *)

(** C9. When the animation size on entry exceeds the byte budget,
    [LossyEncodeNoSlopeOptim] returns [kOk] and leaves the whole state as it
    was: the buffer [webp_data] and every field of every frame. *)
Theorem NoSlopeOptim_over_budget_is_noop (s : State) :
  GetAnimationSize (webp_data s) > byte_budget_ ->
  NoSlopeOptim s = Return kOk s.
Proof.
  intros Hover. unfold LossyEncodeNoSlopeOptim, bind, get.
  destruct (Z.gtb_spec (GetAnimationSize (webp_data s)) byte_budget_) as [_|Hle].
  - reflexivity.
  - lia.
Qed.


(** ** Frames that only change quality *)

Lemma requantised_refl f : requantised f f.
Proof. unfold requantised. destruct f as [? ? [] ? ? ? ?]. reflexivity. Qed.

Lemma requantised_trans f g h :
  requantised f g -> requantised g h -> requantised f h.
Proof.
  unfold requantised. intros -> ->. destruct f as [? ? [] ? ? ? ?]. reflexivity.
Qed.

Lemma requantised_set_quality q f : requantised f (set_quality q f).
Proof. unfold requantised. destruct f as [? ? [] ? ? ? ?]. reflexivity. Qed.

Lemma same_but_quality_refl s : same_but_quality s s.
Proof.
  repeat split. apply Forall2_same_length_lookup. split; [reflexivity|].
  intros i x y Hx Hy. rewrite Hx in Hy. injection Hy as <-. apply requantised_refl.
Qed.

Lemma Forall2_requantised_trans l1 l2 l3 :
  Forall2 requantised l1 l2 -> Forall2 requantised l2 l3 ->
  Forall2 requantised l1 l3.
Proof.
  intros H12. revert l3. induction H12; intros l3 H23; inversion H23; subst.
  - constructor.
  - constructor; eauto using requantised_trans.
Qed.

Lemma same_but_quality_trans s1 s2 s3 :
  same_but_quality s1 s2 -> same_but_quality s2 s3 -> same_but_quality s1 s3.
Proof.
  intros (F12 & W12 & H12) (F23 & W23 & H23). repeat split.
  - eauto using Forall2_requantised_trans.
  - congruence.
  - congruence.
Qed.

Lemma Forall2_requantised_refl l : Forall2 requantised l l.
Proof. induction l; constructor; auto using requantised_refl. Qed.

Lemma Forall2_requantised_alter q i l :
  Forall2 requantised l (alter (set_quality q) i l).
Proof.
  revert i. induction l as [|f l IH]; intros [|i]; simpl; constructor;
    auto using requantised_refl, requantised_set_quality,
               Forall2_requantised_refl.
  apply IH.
Qed.

Lemma upd_quality_same s i q :
  exists s', upd_frame i (set_quality q) s = Done tt s'
             /\ same_but_quality s s'
             /\ frames_ s' = alter (set_quality q) i (frames_ s).
Proof.
  eexists. split; [reflexivity|]. split; [|reflexivity].
  repeat split; simpl. apply Forall2_requantised_alter.
Qed.

Lemma stats_at_requantised f f' q :
  requantised f f' -> stats_at EncodeStats f' q = stats_at EncodeStats f q.
Proof. unfold requantised. intros ->. reflexivity. Qed.

Lemma slope_between_requantised f f' lo hi :
  requantised f f' ->
  slope_between EncodeStats f' lo hi = slope_between EncodeStats f lo hi.
Proof.
  intros H. unfold slope_between. now rewrite !(stats_at_requantised f f').
Qed.

(** What [GetPictureStats] answers once the quality of the frame is set. *)
Lemma GetPictureStats_after_set s i f q :
  frames_ s !! i = Some f ->
  GetPictureStats EncodeStats i
    {| frames_ := alter (set_quality q) i (frames_ s);
       webp_data := webp_data s; history := history s |}
  = match stats_at EncodeStats f q with
    | ExtOk r => Done r {| frames_ := alter (set_quality q) i (frames_ s);
                           webp_data := webp_data s; history := history s |}
    | ExtErr e => Return (status_of_failure e)
                    {| frames_ := alter (set_quality q) i (frames_ s);
                       webp_data := webp_data s; history := history s |}
    end.
Proof.
  intros Hf. unfold GetPictureStats, bind, get_frame. simpl.
  rewrite list_lookup_alter_eq, Hf. simpl. unfold stats_at.
  destruct (EncodeStats _ _); reflexivity.
Qed.

(** [ComputeSlope] on a frame in range: it fails with the codec, or gives
    the slope and leaves the frame at [high_quality]. *)
Lemma ComputeSlope_eval s i f lo hi :
  frames_ s !! i = Some f ->
  match ComputeSlope EncodeStats i lo hi s with
  | Done sl s' =>
      slope_between EncodeStats f lo hi = Some sl
      /\ s' = {| frames_ := alter (set_quality hi) i (frames_ s);
                 webp_data := webp_data s; history := history s |}
  | Return st s' =>
      slope_between EncodeStats f lo hi = None /\ st <> kOk
      /\ same_but_quality s s'
  | _ => False
  end.
Proof.
  intros Hf. unfold ComputeSlope, bind at 1. unfold upd_frame at 1.
  unfold bind at 1. rewrite (GetPictureStats_after_set _ _ f) by exact Hf.
  unfold slope_between.
  destruct (stats_at EncodeStats f lo) as [[ls lp]|e] eqn:Elo.
  2:{ split; [reflexivity|]. split; [destruct e; discriminate|].
      repeat split; simpl. apply Forall2_requantised_alter. }
  unfold bind at 1. unfold upd_frame at 1. simpl frames_. simpl webp_data.
  simpl history. unfold bind at 1.
  assert (Hf' : alter (set_quality lo) i (frames_ s) !! i
                = Some (set_quality lo f)).
  { rewrite list_lookup_alter_eq, Hf. reflexivity. }
  pose proof (GetPictureStats_after_set
                {| frames_ := alter (set_quality lo) i (frames_ s);
                   webp_data := webp_data s; history := history s |}
                i (set_quality lo f) hi Hf') as E.
  simpl in E. rewrite E. clear E.
  rewrite (stats_at_requantised f (set_quality lo f))
    by apply requantised_set_quality.
  assert (Halt : alter (set_quality hi) i (alter (set_quality lo) i (frames_ s))
                 = alter (set_quality hi) i (frames_ s)).
  { rewrite list_alter_alter_eq. apply list_alter_ext; [|reflexivity].
    intros g _. destruct g as [? ? [] ? ? ? ?]. reflexivity. }
  rewrite Halt.
  destruct (stats_at EncodeStats f hi) as [[hs hp]|e] eqn:Ehi.
  - destruct (hs =? ls); simpl; auto.
  - split; [reflexivity|]. split; [destruct e; discriminate|].
    repeat split; simpl. apply Forall2_requantised_alter.
Qed.

(** ** LossyEncodeSlopeOptim: the active set *)

Lemma same_but_quality_lookup s s' i f' :
  same_but_quality s s' -> frames_ s' !! i = Some f' ->
  exists f, frames_ s !! i = Some f /\ requantised f f'.
Proof.
  intros (HF & _ & _) Hi.
  destruct (Forall2_lookup_r _ _ _ _ _ HF Hi) as (f & Hf & Hr). eauto.
Qed.

Lemma requantised_final_quality f f' :
  requantised f f' -> final_quality f' = final_quality f.
Proof. unfold requantised. intros ->. reflexivity. Qed.

Lemma ComputeSlope_out_of_range s i lo hi :
  frames_ s !! i = None ->
  ComputeSlope EncodeStats i lo hi s = Undefined.
Proof.
  intros Hn. unfold ComputeSlope, bind, upd_frame, GetPictureStats, bind,
    get_frame. simpl. rewrite list_lookup_alter_eq, Hn. reflexivity.
Qed.

Lemma keep_active_spec w limit_slope optim_list :
  forall s new_optim_list s',
    keep_active EncodeStats w limit_slope optim_list s
    = Done new_optim_list s' ->
    same_but_quality s s'
    /\ sublist new_optim_list optim_list
    /\ (forall i, ~ In i optim_list -> frames_ s' !! i = frames_ s !! i)
    /\ (forall i, In i optim_list ->
          kept_by EncodeStats limit_slope w s s' new_optim_list i).
Proof.
  induction optim_list as [|i0 rest IH]; intros s new s' Hrun.
  - simpl in Hrun. injection Hrun as <- <-.
    split; [apply same_but_quality_refl|]. split; [apply sublist_nil|].
    split; [reflexivity|]. intros i [].
  - simpl in Hrun. unfold bind at 1 in Hrun.
    destruct (frames_ s !! i0) as [f|] eqn:Hf.
    2:{ rewrite ComputeSlope_out_of_range in Hrun by assumption. discriminate. }
    pose proof (ComputeSlope_eval s i0 f (min_quality w) (max_quality w) Hf) as HC.
    destruct (ComputeSlope EncodeStats i0 (min_quality w) (max_quality w) s)
      as [sl s1| | |]; try discriminate.
    destruct HC as [Hsl ->].
    unfold bind at 1 in Hrun. unfold get_frame at 1 in Hrun. simpl in Hrun.
    rewrite list_lookup_alter_eq, Hf in Hrun. simpl in Hrun.
    set (c := (final_quality f =? -1) || F32.ltb limit_slope sl) in *.
    assert (Hc : c = true <-> final_quality f = -1 \/ F32.ltb limit_slope sl = true).
    { unfold c. rewrite orb_true_iff, Z.eqb_eq. reflexivity. }
    destruct c eqn:Ec.
    + (* the frame stays active *)
      unfold bind at 1 in Hrun. unfold upd_frame at 1 in Hrun. simpl in Hrun.
      unfold bind at 1 in Hrun.
      destruct (keep_active EncodeStats w limit_slope rest _)
        as [new_rest s2| | |] eqn:Hrest; try discriminate.
      simpl in Hrun. injection Hrun as <- <-.
      destruct (IH _ _ _ Hrest) as (Hsame & Hsub & Hout & Hin).
      assert (Hsame0 : same_but_quality s
                {| frames_ := alter (set_quality (mid_quality w)) i0
                                (alter (set_quality (max_quality w)) i0 (frames_ s));
                   webp_data := webp_data s; history := history s |}).
      { repeat split; simpl.
        eapply Forall2_requantised_trans; apply Forall2_requantised_alter. }
      split; [eapply same_but_quality_trans; eassumption|].
      split; [now apply sublist_skip|].
      split.
      { intros i Hi. rewrite Hout by (intros ?; apply Hi; now right).
        simpl. rewrite !list_lookup_alter_ne by (intros ->; apply Hi; now left).
        reflexivity. }
      intros i Hi.
      destruct (Nat.eq_dec i i0) as [->|Hne].
      * exists f, sl. repeat split; auto.
        -- intros _. now apply Hc.
        -- intros _. now left.
        -- intros _. destruct (in_dec Nat.eq_dec i0 rest) as [Hr|Hr].
           ++ destruct (Hin i0 Hr) as (f2 & sl2 & Hf2 & Hsl2 & Hiff & Hq).
              apply Hq. apply Hiff. simpl in Hf2.
              rewrite !list_lookup_alter_eq, Hf in Hf2. simpl in Hf2.
              injection Hf2 as <-. simpl.
              unfold slope_between, stats_at in Hsl2, Hsl. simpl in Hsl2.
              rewrite Hsl in Hsl2. injection Hsl2 as <-. now apply Hc.
           ++ rewrite (Hout i0 Hr). simpl.
              rewrite !list_lookup_alter_eq, Hf. simpl. eauto.
      * destruct Hi as [Hi|Hi]; [congruence|].
        destruct (Hin i Hi) as (f2 & sl2 & Hf2 & Hsl2 & Hiff & Hq).
        destruct (same_but_quality_lookup _ _ _ _ Hsame0 Hf2) as (fi & Hfi & Hri).
        exists fi, sl2. split; [exact Hfi|]. split.
        { now rewrite <- (slope_between_requantised fi f2). }
        rewrite <- (requantised_final_quality fi f2) by assumption.
        split.
        -- rewrite <- Hiff. simpl. split; [intros [?|?]; [congruence|auto]|auto].
        -- intros [?|Hn]; [congruence|auto].
    + (* the frame is dropped *)
      destruct (IH _ _ _ Hrun) as (Hsame & Hsub & Hout & Hin).
      assert (Hsame0 : same_but_quality s
                {| frames_ := alter (set_quality (max_quality w)) i0 (frames_ s);
                   webp_data := webp_data s; history := history s |}).
      { repeat split; simpl. apply Forall2_requantised_alter. }
      split; [eapply same_but_quality_trans; eassumption|].
      split; [now apply sublist_cons|].
      split.
      { intros i Hi. rewrite Hout by (intros ?; apply Hi; now right).
        simpl. rewrite list_lookup_alter_ne by (intros ->; apply Hi; now left).
        reflexivity. }
      intros i Hi.
      assert (Hgen : forall j, In j rest -> kept_by EncodeStats limit_slope w s s' new j).
      { intros j Hj.
        destruct (Hin j Hj) as (f2 & sl2 & Hf2 & Hsl2 & Hiff & Hq).
        destruct (same_but_quality_lookup _ _ _ _ Hsame0 Hf2) as (fi & Hfi & Hri).
        exists fi, sl2. split; [exact Hfi|]. split.
        { now rewrite <- (slope_between_requantised fi f2). }
        rewrite <- (requantised_final_quality fi f2) by assumption.
        split; assumption. }
      destruct (in_dec Nat.eq_dec i rest) as [Hr|Hr]; [now apply Hgen|].
      destruct Hi as [<-|Hi]; [|contradiction].
      exists f, sl. split; [exact Hf|]. split; [exact Hsl|].
      assert (Hnot : ~ In i0 new).
      { intros Hn. apply Hr. apply list_elem_of_In.
        eapply elem_of_sublist; [|exact Hsub]. now apply list_elem_of_In. }
      split; [|contradiction].
      split; [contradiction|]. intros Hx. apply Hc in Hx. discriminate.
Qed.

(** A loop that applies one update to the frames of a list of indices. *)
Lemma for_each_upd_eval (g : FrameData -> FrameData) (l : list nat) s :
  for_each l (fun i => upd_frame i g) s
  = Done tt {| frames_ := foldl (fun fs i => alter g i fs) (frames_ s) l;
               webp_data := webp_data s; history := history s |}.
Proof.
  revert s. induction l as [|i l IH]; intros s; simpl.
  - destruct s; reflexivity.
  - unfold bind, upd_frame. rewrite IH. reflexivity.
Qed.

(** Updates of single frames, seen through a preorder on frames. *)
Section Pointwise.
Variable R : FrameData -> FrameData -> Prop.
Hypothesis R_refl : forall f, R f f.
Hypothesis R_trans : forall f g h, R f g -> R g h -> R f h.

Lemma pointwise_refl (l : list FrameData) : Forall2 R l l.
Proof. induction l; constructor; auto. Qed.

Lemma pointwise_trans (l1 l2 l3 : list FrameData) :
  Forall2 R l1 l2 -> Forall2 R l2 l3 -> Forall2 R l1 l3.
Proof.
  intros H12. revert l3. induction H12; intros l3 H23; inversion H23; subst;
    constructor; eauto.
Qed.

Lemma pointwise_alter (g : FrameData -> FrameData) i (l : list FrameData) :
  (forall f, l !! i = Some f -> R f (g f)) -> Forall2 R l (alter g i l).
Proof.
  revert i. induction l as [|f l IH]; intros [|i] Hg; simpl; constructor;
    auto using pointwise_refl.
  apply IH. exact Hg.
Qed.

Lemma pointwise_foldl_alter (g : FrameData -> FrameData) (idxs : list nat)
    (l : list FrameData) :
  (forall f, R f (g f)) ->
  Forall2 R l (foldl (fun fs i => alter g i fs) l idxs).
Proof.
  intros Hg. revert l. induction idxs as [|i idxs IH]; intros l; simpl.
  - apply pointwise_refl.
  - eapply pointwise_trans; [|apply IH]. apply pointwise_alter. auto.
Qed.
End Pointwise.

Lemma GenerateAnimationNoBudget_eval s :
  GenerateAnimationNoBudget Assemble s
  = match Assemble (assembler_input (frames_ s)) with
    | ExtOk d => Done d s
    | ExtErr e => Return (status_of_failure e) s
    end.
Proof.
  unfold GenerateAnimationNoBudget, bind, get.
  destruct (Assemble _); reflexivity.
Qed.

(** C5. In a round of the global search of [LossyEncodeSlopeOptim] that
    goes on to a next round, a frame of the active set is in the next active
    set exactly when its [final_quality] is still -1 or its slope between
    the bounds of the round exceeds [limit_slope]; a frame that is kept has
    its quality at the midpoint; and the next active set is a sublist of the
    current one. *)
Theorem slope_round_active_set (limit_slope : float) (w w' : Window)
    (optim_list new_optim_list : list nat) (s s' : State) :
  slope_round byte_budget_ EncodeStats Assemble limit_slope (w, optim_list) s
  = Done (Continue (w', new_optim_list)) s' ->
  sublist new_optim_list optim_list
  /\ forall i, In i optim_list ->
       exists f sl,
         frames_ s !! i = Some f
         /\ slope_between EncodeStats f (min_quality w) (max_quality w) = Some sl
         /\ (In i new_optim_list <->
             final_quality f = -1 \/ F32.ltb limit_slope sl = true)
         /\ (In i new_optim_list ->
             exists f', frames_ s' !! i = Some f'
                        /\ quality (config f') = mid_quality w).
Proof using Type.
  intros Hrun. unfold slope_round, bind at 1 in Hrun.
  destruct (keep_active EncodeStats w limit_slope optim_list s)
    as [new s1| | |] eqn:Hkeep; try discriminate.
  destruct (keep_active_spec _ _ _ _ _ _ Hkeep) as (_ & Hsub & _ & Hin).
  destruct (is_nil new); [discriminate|].
  unfold bind at 1 in Hrun. rewrite GenerateAnimationNoBudget_eval in Hrun.
  destruct (Assemble _) as [d|e]; [|discriminate].
  destruct (WebPData_size d <=? byte_budget_).
  - unfold bind at 1 in Hrun. rewrite for_each_upd_eval in Hrun.
    simpl in Hrun. injection Hrun as <- <- <-.
    split; [exact Hsub|]. intros i Hi.
    destruct (Hin i Hi) as (f & sl & Hf & Hsl & Hiff & Hq).
    exists f, sl. split; [exact Hf|]. split; [exact Hsl|].
    split; [exact Hiff|].
    intros Hn. destruct (Hq Hn) as (f1 & Hf1 & Hq1). simpl.
    pose proof (pointwise_foldl_alter (fun f g => config g = config f)
                  (fun f => eq_refl) (fun f g h H1 H2 => eq_trans H2 H1)
                  (set_final_quality (mid_quality w)) new (frames_ s1)
                  (fun f => eq_refl)) as HF.
    destruct (Forall2_lookup_l _ _ _ _ _ HF Hf1) as (f' & Hf' & Hc).
    exists f'. split; [exact Hf'|]. now rewrite Hc.
  - simpl in Hrun. injection Hrun as <- <- <-.
    split; [exact Hsub|]. exact Hin.
Qed.

(** ** Properties of the state that the passes keep *)

Lemma pres_ret {A} I (a : A) : preserves I (ret a).
Proof. apply triple_ret. auto. Qed.

Lemma pres_return {A} I st : preserves I (@return_ A st).
Proof. apply triple_return. auto. Qed.

Lemma pres_undefined {A} I : preserves I (@undefined A).
Proof. intros s _. exact Logic.I. Qed.

Lemma pres_get I : preserves I get.
Proof. apply triple_get. auto. Qed.

Lemma pres_bind {A B} I (m : M A) (k : A -> M B) :
  preserves I m -> (forall a, preserves I (k a)) -> preserves I (bind m k).
Proof. intros Hm Hk. eapply triple_bind; [exact Hm|]. exact Hk. Qed.

Lemma pres_for_each {A} I (l : list A) body :
  (forall x, preserves I (body x)) -> preserves I (for_each l body).
Proof. intros H. apply triple_for_each. intros x _. apply H. Qed.

Lemma pres_collect {A B} I (l : list A) (f : A -> M B) :
  (forall x, preserves I (f x)) -> preserves I (collect l f).
Proof. intros H. apply triple_collect. intros x _. apply H. Qed.

Lemma pres_while {L} I fuel cond (body : L -> M (LoopStep L)) l :
  (forall l, preserves I (body l)) -> preserves I (while fuel cond body l).
Proof.
  intros H.
  apply (triple_while True (fun _ => I) (fun _ => O) cond body
           (fun _ => I) (fun _ => I)); auto.
  intros l' _. eapply triple_weaken; [apply H|auto..].
  intros [?|?] s' Hs'; auto.
Qed.

Lemma pres_CHECK I (body : M unit) :
  preserves I body -> preserves I (CHECK_THUMBNAILER_STATUS body).
Proof.
  intros H s Hs. specialize (H s Hs). unfold CHECK_THUMBNAILER_STATUS.
  destruct (body s) as [a s'|[] s'| |]; auto.
Qed.

(** Properties of the state that are kept by the updates of one frame that
    are [allowed], by sorting the frames, and by replacing the buffer with
    one that fits the budget. *)
Section Invariant.
Variable I : State -> Prop.
Variable allowed : (FrameData -> FrameData) -> Prop.
Hypothesis I_upd :
  forall s i g, allowed g -> I s ->
    I {| frames_ := alter g i (frames_ s); webp_data := webp_data s;
         history := history s |}.
Hypothesis I_sort :
  forall s, I s ->
    I {| frames_ := sort (fun a b => timestamp_ms a <? timestamp_ms b)
                      (frames_ s);
         webp_data := webp_data s; history := history s |}.
Hypothesis I_webp_data :
  forall s d, I s -> WebPData_size d <= byte_budget_ ->
    I {| frames_ := frames_ s; webp_data := d; history := history s |}.
Hypothesis allowed_set_quality : forall q, allowed (set_quality q).
Hypothesis allowed_set_lossless_0 : allowed (set_lossless 0).
Hypothesis allowed_set_stats : forall sz p, allowed (set_stats sz p).
Hypothesis allowed_set_final_quality : forall q, allowed (set_final_quality q).
Hypothesis allowed_accept : forall q sz p, allowed (accept q sz p).
Hypothesis allowed_restore_config : allowed restore_config.
Hypothesis allowed_commit :
  forall q, allowed (fun f => set_final_quality q (set_quality q f)).

Lemma pres_get_frame i : preserves I (get_frame i).
Proof. apply triple_get_frame; auto. Qed.

Lemma pres_upd_frame i g : allowed g -> preserves I (upd_frame i g).
Proof. intros Hg s Hs. simpl. now apply I_upd. Qed.

Lemma pres_sort_frames : preserves I sort_frames.
Proof. intros s Hs. simpl. now apply I_sort. Qed.

Lemma pres_frame_indices : preserves I frame_indices.
Proof. intros s Hs. simpl. exact Hs. Qed.

Lemma pres_set_webp_data d :
  WebPData_size d <= byte_budget_ -> preserves I (set_webp_data d).
Proof. intros Hd s Hs. simpl. now apply I_webp_data. Qed.

Lemma pres_GenerateAnimationNoBudget :
  preserves I (GenerateAnimationNoBudget Assemble).
Proof.
  intros s Hs. rewrite GenerateAnimationNoBudget_eval.
  destruct (Assemble _); exact Hs.
Qed.

Ltac pres_step :=
  lazymatch goal with
  | |- preserves _ (bind _ _) => apply pres_bind; [|intros ?]
  | |- preserves _ (ret _) => apply pres_ret
  | |- preserves _ (return_ _) => apply pres_return
  | |- preserves _ undefined => apply pres_undefined
  | |- preserves _ get => apply pres_get
  | |- preserves _ (get_frame _) => apply pres_get_frame
  | |- preserves _ (upd_frame _ _) => apply pres_upd_frame; auto
  | |- preserves _ sort_frames => apply pres_sort_frames
  | |- preserves _ frame_indices => apply pres_frame_indices
  | |- preserves _ (GenerateAnimationNoBudget _) =>
      apply pres_GenerateAnimationNoBudget
  | |- preserves _ (set_webp_data _) =>
      apply pres_set_webp_data; lia
  | |- preserves _ (for_each _ _) => apply pres_for_each; intros ?
  | |- preserves _ (collect _ _) => apply pres_collect; intros ?
  | |- preserves _ (while _ _ _ _) => apply pres_while; intros ?
  | |- preserves _ (CHECK_THUMBNAILER_STATUS _) => apply pres_CHECK
  | |- preserves _ (if ?c <=? ?d then _ else _) =>
      destruct (Z.leb_spec c d)
  | |- preserves _ (if ?c then _ else _) => destruct c
  | |- preserves _ (match ?x with _ => _ end) => destruct x
  | |- preserves _ (let '(_, _) := ?x in _) => destruct x
  end.

Create HintDb pres discriminated.

Ltac pres := repeat first [pres_step | solve [auto with pres]].

Lemma pres_GetPictureStats ind : preserves I (GetPictureStats EncodeStats ind).
Proof. unfold GetPictureStats. pres. Qed.
#[local] Hint Resolve pres_GetPictureStats : pres.

Lemma pres_ComputeSlope ind lo hi :
  preserves I (ComputeSlope EncodeStats ind lo hi).
Proof. unfold ComputeSlope. pres. Qed.
#[local] Hint Resolve pres_ComputeSlope : pres.

Lemma pres_threshold_search ind :
  preserves I (threshold_search EncodeStats ind).
Proof. unfold threshold_search, threshold_probe. pres. Qed.
#[local] Hint Resolve pres_threshold_search : pres.

Lemma pres_FindMedianSlope : preserves I (FindMedianSlope EncodeStats).
Proof. unfold FindMedianSlope. pres. Qed.
#[local] Hint Resolve pres_FindMedianSlope : pres.

Lemma pres_keep_active w limit_slope optim_list :
  preserves I (keep_active EncodeStats w limit_slope optim_list).
Proof. induction optim_list as [|i l IH]; simpl; pres. Qed.
#[local] Hint Resolve pres_keep_active : pres.

Lemma pres_return_by_size : preserves I return_by_size.
Proof. unfold return_by_size. pres. Qed.
#[local] Hint Resolve pres_return_by_size : pres.

Lemma pres_LossyEncodeSlopeOptim :
  preserves I (LossyEncodeSlopeOptim byte_budget_ minimum_lossy_quality_
                 EncodeStats Assemble).
Proof.
  unfold LossyEncodeSlopeOptim, slope_round, record_final_stats.
  pres.
Qed.

(** [LossyEncodeSlopeOptim] after the sort of its first line. *)
Lemma pres_slope_search :
  preserves I
    (let* limit_slope := FindMedianSlope EncodeStats in
     let w0 := {| min_quality := minimum_lossy_quality_; max_quality := 100 |} in
     let* optim_list := frame_indices in
     let* _ := while (window_fuel w0) slope_cond
                 (slope_round byte_budget_ EncodeStats Assemble limit_slope)
                 (w0, optim_list) in
     let* idxs := frame_indices in
     run for_each idxs (record_final_stats EncodeStats) then
     return_by_size).
Proof.
  unfold slope_round, record_final_stats.
  pres.
Qed.

Lemma pres_refine_scan idxs n a :
  preserves I (refine_scan byte_budget_ EncodeStats idxs n a).
Proof.
  revert n a. induction idxs as [|i idxs IH]; intros n a; simpl; pres.
  unfold refine_frame, refine_probe. pres.
Qed.
#[local] Hint Resolve pres_refine_scan : pres.

Lemma pres_LossyEncodeNoSlopeOptim :
  preserves I (LossyEncodeNoSlopeOptim byte_budget_ EncodeStats Assemble
                 GetAnimationSize).
Proof. unfold LossyEncodeNoSlopeOptim. pres. Qed.

Lemma pres_slopes_to_100 idxs :
  preserves I (slopes_to_100 EncodeStats idxs).
Proof. induction idxs as [|i idxs IH]; simpl; pres. Qed.
#[local] Hint Resolve pres_slopes_to_100 : pres.

Lemma pres_commit_topup q e :
  preserves I (commit_topup EncodeStats q e).
Proof. unfold commit_topup. pres. Qed.

(** The top-up pass keeps what its commits (lines 318-327) keep. *)
Lemma pres_ExtraLossyEncode_gen :
  (forall q e, preserves I (commit_topup EncodeStats q e)) ->
  preserves I (ExtraLossyEncode byte_budget_ EncodeStats Assemble).
Proof.
  intros Hcommit. unfold ExtraLossyEncode, topup_round, topup_probe.
  repeat first [apply Hcommit | pres_step | solve [auto with pres]].
Qed.

Lemma pres_ExtraLossyEncode :
  preserves I (ExtraLossyEncode byte_budget_ EncodeStats Assemble).
Proof. apply pres_ExtraLossyEncode_gen. apply pres_commit_topup. Qed.

End Invariant.

(** ** The driver: which passes run *)


Lemma NoSlopeOptim_keeps_history : keeps_history NoSlopeOptim.
Proof.
  intros h. apply (pres_LossyEncodeNoSlopeOptim _ any_update); unfold any_update; auto.
Qed.

Lemma ExtraLossy_keeps_history : keeps_history ExtraLossy.
Proof.
  intros h. apply (pres_ExtraLossyEncode _ any_update); unfold any_update; auto.
Qed.

Lemma SlopeOptim_keeps_history : keeps_history SlopeOptim.
Proof.
  intros h. apply (pres_LossyEncodeSlopeOptim _ any_update); unfold any_update; auto.
Qed.

(** A call that comes back to the driver has added one entry. *)
Lemma call_history p (body : M unit) s s' :
  keeps_history body ->
  call p body s = Done tt s' ->
  history s' = history s ++ [(p, WebPData_size (webp_data s))].
Proof.
  intros Hk Hrun. unfold call, bind, enter in Hrun.
  pose proof (pres_CHECK _ _ (Hk (history s ++ [(p, WebPData_size (webp_data s))]))
                {| frames_ := frames_ s; webp_data := webp_data s;
                   history := history s ++ [(p, WebPData_size (webp_data s))] |}
                eq_refl) as H.
  simpl in H.
  destruct (CHECK_THUMBNAILER_STATUS body _) as [[] s1| | |]; try discriminate.
  injection Hrun as <-. exact H.
Qed.

Lemma refine_rounds_history n :
  forall z s s',
    refine_rounds byte_budget_ EncodeStats Assemble GetAnimationSize n z s
    = Done tt s' ->
    z = WebPData_size (webp_data s) ->
    exists sizes,
      history s' = history s ++ refinement_calls sizes
      /\ (length sizes <= n)%nat
      /\ ((0 < n)%nat -> head sizes = Some z)
      /\ adjacent_differ sizes
      /\ ((length sizes < n)%nat ->
          last sizes = Some (WebPData_size (webp_data s'))).
Proof.
  induction n as [|n IH]; intros z s s' Hrun Hz.
  - simpl in Hrun. injection Hrun as <-. exists [].
    unfold refinement_calls. simpl. rewrite app_nil_r.
    repeat split; simpl; auto; lia.
  - simpl in Hrun. unfold bind at 1 in Hrun.
    destruct (call PNoSlopeOptim NoSlopeOptim s) as [[] s1| | |] eqn:Hcall;
      try discriminate.
    pose proof (call_history _ _ _ _ NoSlopeOptim_keeps_history Hcall) as Hh.
    unfold bind at 1, get at 1 in Hrun.
    destruct (Z.eqb_spec z (WebPData_size (webp_data s1))) as [Heq|Hne].
    + injection Hrun as <-. exists [z]. simpl.
      rewrite Hh, <- Hz. repeat split; auto; try lia.
      intros _. now rewrite Heq.
    + destruct (IH _ _ _ Hrun eq_refl) as (sizes & Hs & Hlen & Hhd & Hadj & Hlast).
      exists (z :: sizes). rewrite Hs, Hh, <- Hz, <- app_assoc. simpl.
      split; [reflexivity|]. split; [lia|]. split; [reflexivity|].
      split.
      * destruct sizes as [|z' sizes]; [exact Logic.I|]. split; [|exact Hadj].
        destruct n as [|n]; [simpl in Hlen; lia|].
        specialize (Hhd ltac:(lia)). simpl in Hhd. congruence.
      * intros Hlt. assert (Hlt' : (length sizes < n)%nat) by lia.
        specialize (Hlast Hlt').
        destruct sizes as [|z' sizes]; [discriminate|]. exact Hlast.
Qed.

Lemma call_not_return_kOk p (body : M unit) s s' :
  call p body s <> Return kOk s'.
Proof.
  unfold call, bind, enter, CHECK_THUMBNAILER_STATUS.
  destruct (body _) as [a s1|[] s1| |]; discriminate.
Qed.

Lemma refine_rounds_not_return_kOk n :
  forall z s s',
    refine_rounds byte_budget_ EncodeStats Assemble GetAnimationSize n z s
    <> Return kOk s'.
Proof.
  induction n as [|n IH]; intros z s s'; simpl; [discriminate|].
  unfold bind at 1.
  destruct (call PNoSlopeOptim NoSlopeOptim s) as [[] s1|st s1| |] eqn:Hcall;
    try discriminate.
  - unfold bind, get. destruct (z =? _); [discriminate|apply IH].
  - intros H. injection H as -> ->. eapply call_not_return_kOk, Hcall.
Qed.

(** C3, as the code has it. In a run of the driver that returns [kOk]: if
    no frame is near-lossless after [NearLosslessEqual], the driver calls
    [GenerateAnimationEqualQuality] and neither the refinement pass nor the
    top-up pass; otherwise it calls [LossyEncodeNoSlopeOptim] between one
    and five times, each call on a buffer size that differs from the size
    the call before it saw, stopping before the fifth call only when a call
    leaves the size unchanged, and then [ExtraLossyEncode] once, on the
    buffer the last refinement left. *)
Theorem driver_pass_sequence (s s' : State) :
  keeps_history NearLosslessEqual ->
  keeps_history GenerateAnimationEqualQuality ->
  history s = [] ->
  Driver s = Return kOk s' ->
  exists s2 z0 z1,
    bind (call PSlopeOptim SlopeOptim)
         (fun _ => call PNearLosslessEqual NearLosslessEqual) s = Done tt s2
    /\ history s2 = [(PSlopeOptim, z0); (PNearLosslessEqual, z1)]
    /\ (num_near_ll_frames (frames_ s2) = 0%nat ->
        exists z2, history s' = history s2 ++ [(PEqualQuality, z2)])
    /\ (num_near_ll_frames (frames_ s2) <> 0%nat ->
        exists sizes ze,
          history s'
          = history s2 ++ refinement_calls sizes ++ [(PExtraLossy, ze)]
          /\ (1 <= length sizes <= 5)%nat
          /\ adjacent_differ sizes
          /\ ((length sizes < 5)%nat -> last sizes = Some ze)).
Proof using Type.
  intros Hnll Heq Hh Hrun. unfold GenerateAnimationSlopeOptim in Hrun.
  unfold bind at 1 in Hrun. unfold bind at 1.
  destruct (call PSlopeOptim SlopeOptim s) as [[] s1|st s1| |] eqn:Hc1;
    try discriminate.
  2:{ injection Hrun as -> ->. now apply call_not_return_kOk in Hc1. }
  unfold bind at 1 in Hrun.
  destruct (call PNearLosslessEqual NearLosslessEqual s1)
    as [[] s2|st s2| |] eqn:Hc2; try discriminate.
  2:{ injection Hrun as -> ->. now apply call_not_return_kOk in Hc2. }
  pose proof (call_history _ _ _ _ SlopeOptim_keeps_history Hc1) as H1.
  pose proof (call_history _ _ _ _ Hnll Hc2) as H2.
  rewrite Hh in H1. simpl in H1. rewrite H1 in H2. simpl in H2.
  exists s2, (WebPData_size (webp_data s)), (WebPData_size (webp_data s1)).
  split; [reflexivity|]. split; [exact H2|].
  unfold bind at 1, get at 1 in Hrun.
  destruct (Nat.eqb_spec (num_near_ll_frames (frames_ s2)) 0) as [Hz|Hnz].
  - split; [|intros Hne; contradiction]. intros _.
    unfold bind at 1 in Hrun.
    destruct (call PEqualQuality GenerateAnimationEqualQuality s2)
      as [[] s3|st s3| |] eqn:Hc3; try discriminate.
    2:{ injection Hrun as -> ->. now apply call_not_return_kOk in Hc3. }
    simpl in Hrun. injection Hrun as <-.
    exists (WebPData_size (webp_data s2)).
    apply (call_history _ _ _ _ Heq Hc3).
  - split; [intros Hz; contradiction|]. intros _.
    unfold bind at 1 in Hrun.
    destruct (refine_rounds _ _ _ _ KMaxIter _ s2) as [[] s3|st s3| |] eqn:Hr;
      try discriminate.
    2:{ injection Hrun as -> ->. now apply refine_rounds_not_return_kOk in Hr. }
    unfold bind at 1 in Hrun.
    destruct (call PExtraLossy ExtraLossy s3) as [[] s4|st s4| |] eqn:Hc4;
      try discriminate.
    2:{ injection Hrun as -> ->. now apply call_not_return_kOk in Hc4. }
    simpl in Hrun. injection Hrun as <-.
    destruct (refine_rounds_history _ _ _ _ Hr eq_refl)
      as (sizes & Hs & Hlen & Hhd & Hadj & Hlast).
    exists sizes, (WebPData_size (webp_data s3)).
    rewrite (call_history _ _ _ _ ExtraLossy_keeps_history Hc4), Hs.
    rewrite <- app_assoc. split; [reflexivity|].
    unfold KMaxIter in *. split; [|split; [exact Hadj|exact Hlast]].
    split; [|exact Hlen].
    specialize (Hhd ltac:(lia)). destruct sizes; [discriminate|simpl; lia].
Qed.

(** ** Slopes between encodings of the same size *)

(** [ComputeSlope] tests for equal sizes and answers 0. *)
Lemma ComputeSlope_equal_sizes s i f lo hi sz lp hp :
  frames_ s !! i = Some f ->
  stats_at EncodeStats f lo = ExtOk (sz, lp) ->
  stats_at EncodeStats f hi = ExtOk (sz, hp) ->
  exists s', ComputeSlope EncodeStats i lo hi s = Done F32.zero s'.
Proof.
  intros Hf Hlo Hhi. pose proof (ComputeSlope_eval s i f lo hi Hf) as H.
  unfold slope_between in H. rewrite Hlo, Hhi, Z.eqb_refl in H.
  destruct (ComputeSlope EncodeStats i lo hi s) as [sl s'|st s'| |].
  - destruct H as [H _]. injection H as <-. eauto.
  - destruct H as [H _]. discriminate.
  - contradiction.
  - contradiction.
Qed.

(** ** LossyEncodeNoSlopeOptim: the re-assembly that does not fit *)

Lemma foldl_alter_seq (g : FrameData -> FrameData) (pre post : list FrameData) :
  foldl (fun fs i => alter g i fs) (pre ++ post)
    (seq (length pre) (length post))
  = pre ++ map g post.
Proof.
  revert pre. induction post as [|f post IH]; intros pre; simpl.
  - reflexivity.
  - replace (alter g (length pre) (pre ++ f :: post))
      with ((pre ++ [g f]) ++ post).
    + replace (S (length pre)) with (length (pre ++ [g f]))
        by (rewrite length_app; simpl; lia).
      rewrite IH, <- app_assoc. reflexivity.
    + rewrite <- app_assoc. simpl.
      rewrite alter_app_r_alt by lia. now rewrite Nat.sub_diag.
Qed.

Lemma for_each_upd_all (g : FrameData -> FrameData) s :
  for_each (seq 0 (length (frames_ s))) (fun i => upd_frame i g) s
  = Done tt {| frames_ := map g (frames_ s); webp_data := webp_data s;
               history := history s |}.
Proof.
  rewrite for_each_upd_eval.
  pose proof (foldl_alter_seq g [] (frames_ s)) as H. simpl in H.
  now rewrite H.
Qed.

Lemma refine_scan_frame idxs n a s a' s' :
  refine_scan byte_budget_ EncodeStats idxs n a s = Done a' s' ->
  webp_data s' = webp_data s /\ history s' = history s
  /\ length (frames_ s') = length (frames_ s).
Proof.
  intros Hrun.
  assert (H : preserves
                (fun x => webp_data x = webp_data s /\ history x = history s
                          /\ length (frames_ x) = length (frames_ s))
                (refine_scan byte_budget_ EncodeStats idxs n a)).
  { apply (pres_refine_scan _ any_update); unfold any_update; auto.
    intros x i g _ (Hw & Hh & Hl). simpl. now rewrite length_alter. }
  specialize (H s (conj eq_refl (conj eq_refl eq_refl))).
  rewrite Hrun in H. exact H.
Qed.

(** C10. When the animation assembled after the scan exceeds the byte
    budget, [LossyEncodeNoSlopeOptim] returns [kOk] with [webp_data] as it
    was on entry, while every frame keeps the [final_quality], [final_psnr]
    and [encoded_size] that the scan left. *)
Theorem NoSlopeOptim_revert_keeps_scan_results
    (s s1 : State) (anim_size : Z) (new_webp_data : WebPData) :
  GetAnimationSize (webp_data s) <= byte_budget_ ->
  refine_scan_of byte_budget_ EncodeStats GetAnimationSize s
  = Done anim_size s1 ->
  Assemble (assembler_input (map restore_config (frames_ s1)))
  = ExtOk new_webp_data ->
  byte_budget_ < WebPData_size new_webp_data ->
  exists s',
    NoSlopeOptim s = Return kOk s'
    /\ webp_data s' = webp_data s
    /\ map final_quality (frames_ s') = map final_quality (frames_ s1)
    /\ map final_psnr (frames_ s') = map final_psnr (frames_ s1)
    /\ map encoded_size (frames_ s') = map encoded_size (frames_ s1).
Proof using Type.
  intros Hfit Hscan Hasm Hover. unfold refine_scan_of in Hscan.
  destruct (refine_scan_frame _ _ _ _ _ _ Hscan) as (Hw & Hh & Hlen).
  exists {| frames_ := map restore_config (frames_ s1);
            webp_data := webp_data s; history := history s |}.
  split.
  - unfold LossyEncodeNoSlopeOptim. unfold bind at 1, get at 1.
    destruct (Z.gtb_spec (GetAnimationSize (webp_data s)) byte_budget_);
      [lia|].
    unfold bind at 1, frame_indices at 1. unfold bind at 1. rewrite Hscan.
    unfold bind at 1. rewrite <- Hlen, for_each_upd_all.
    unfold bind at 1. rewrite GenerateAnimationNoBudget_eval. simpl frames_.
    rewrite Hasm.
    destruct (Z.leb_spec (WebPData_size new_webp_data) byte_budget_); [lia|].
    simpl. now rewrite Hw, Hh.
  - simpl. split; [reflexivity|].
    rewrite !map_map. repeat split; apply map_ext; intros f; reflexivity.
Qed.

(** ** FindMedianSlope: the threshold search *)

Lemma within_1dB_refl p : F32.is_finite p = true -> within_1dB p p = true.
Proof.
  destruct p as [[]|[]| |[] m e]; try discriminate; intros _;
    unfold within_1dB, F32.sub, SFsub; try reflexivity;
    unfold cond_Zopp; rewrite Z.sub_diag; reflexivity.
Qed.

Lemma mid_quality_bounds w :
  min_quality w <= max_quality w ->
  min_quality w <= mid_quality w <= max_quality w.
Proof. unfold mid_quality. intros H. Z.quot_rem_to_equations. lia. Qed.

Lemma window_fuel_lower_max w :
  min_quality w <= max_quality w ->
  (window_fuel (lower_max w) < window_fuel w)%nat.
Proof.
  intros H. pose proof (mid_quality_bounds w H).
  unfold window_fuel, lower_max. simpl. lia.
Qed.

Lemma window_fuel_raise_min w :
  min_quality w <= max_quality w ->
  (window_fuel (raise_min w) < window_fuel w)%nat.
Proof.
  intros H. pose proof (mid_quality_bounds w H).
  unfold window_fuel, raise_min. simpl. lia.
Qed.

Lemma window_fuel_pos w :
  window_open w = true -> (0 < window_fuel w)%nat.
Proof. unfold window_open, window_fuel. intros H%Z.leb_le. lia. Qed.

Lemma same_but_quality_lookup_l s s' i f :
  same_but_quality s s' -> frames_ s !! i = Some f ->
  exists f', frames_ s' !! i = Some f' /\ requantised f f'.
Proof.
  intros (HF & _ & _) Hi.
  destruct (Forall2_lookup_l _ _ _ _ _ HF Hi) as (f' & Hf & Hr). eauto.
Qed.

Lemma same_but_quality_alter s i q :
  same_but_quality s
    {| frames_ := alter (set_quality q) i (frames_ s);
       webp_data := webp_data s; history := history s |}.
Proof. repeat split; simpl. apply Forall2_requantised_alter. Qed.

Lemma threshold_probe_eval s i f' size_100 psnr_100 w sl new_size new_psnr :
  frames_ s !! i = Some f' ->
  stats_at EncodeStats f' (mid_quality w) = ExtOk (new_size, new_psnr) ->
  threshold_probe EncodeStats i size_100 psnr_100 (w, sl) s
  = Done (Continue
            (if within_1dB psnr_100 new_psnr
             then (lower_max w,
                   Some (boundary_slope size_100 psnr_100 new_size new_psnr))
             else (raise_min w, sl)))
      {| frames_ := alter (set_quality (mid_quality w)) i (frames_ s);
         webp_data := webp_data s; history := history s |}.
Proof.
  intros Hf Hst. unfold threshold_probe, bind at 1, upd_frame at 1.
  unfold bind at 1. rewrite (GetPictureStats_after_set s i f') by exact Hf.
  rewrite Hst. destruct (within_1dB psnr_100 new_psnr); reflexivity.
Qed.

(** The threshold search on a frame for which the codec answers: it ends,
    at a boundary of the 1 dB test, which is the smallest quality that
    passes the test when the test is monotone; the slope it gives is the
    slope between that quality and 100. *)
Lemma threshold_search_spec (s0 : State) i f sz ps :
  frames_ s0 !! i = Some f ->
  answers EncodeStats f sz ps ->
  within_1dB (ps 100) (ps 100) = true ->
  exists sl s' q,
    threshold_search EncodeStats i s0 = Done sl s'
    /\ same_but_quality s0 s'
    /\ threshold_boundary ps q
    /\ (threshold_monotone ps -> threshold_quality ps q)
    /\ sl = slope_to_100 sz ps q.
Proof.
  intros Hf Hans H100.
  set (thr := fun q => within_1dB (ps 100) (ps q)).
  set (Inv := fun (v : Window * option float) (s : State) =>
    same_but_quality s0 s
    /\ 0 <= min_quality v.1 /\ max_quality v.1 <= 100
    /\ min_quality v.1 <= max_quality v.1 + 1
    /\ (min_quality v.1 = 0 \/ thr (min_quality v.1 - 1) = false)
    /\ (threshold_monotone ps ->
        forall q, 0 <= q < min_quality v.1 -> thr q = false)
    /\ match v.2 with
       | None => max_quality v.1 = 100 /\ min_quality v.1 <= 100
       | Some x => max_quality v.1 < 100 /\ thr (max_quality v.1 + 1) = true
                   /\ x = slope_to_100 sz ps (max_quality v.1 + 1)
       end).
  set (Post := fun (v : Window * option float) (s : State) =>
    same_but_quality s0 s
    /\ exists q, threshold_boundary ps q
                 /\ (threshold_monotone ps -> threshold_quality ps q)
                 /\ v.2 = Some (slope_to_100 sz ps q)).
  set (s1 := {| frames_ := alter (set_quality 100) i (frames_ s0);
                webp_data := webp_data s0; history := history s0 |}).
  set (w0 := {| min_quality := 0; max_quality := 100 |}).
  assert (Hloop : triple False (Inv (w0, None))
            (while (window_fuel w0) (fun v => window_open v.1)
               (threshold_probe EncodeStats i (sz 100) (ps 100)) (w0, None))
            Post (fun _ _ => False)).
  { apply (triple_while False Inv (fun v => window_fuel v.1)).
    - (* exit *)
      intros [w sl] s (Hsame & Hmin & Hmax & Hord & Hb & Hmono & Hsl) Hc.
      simpl in *. unfold window_open in Hc. apply Z.leb_gt in Hc.
      split; [exact Hsame|]. destruct sl as [x|]; [|lia].
      destruct Hsl as (Hlt & Hthr & ->).
      assert (Heq : min_quality w = max_quality w + 1) by lia.
      exists (max_quality w + 1). rewrite <- Heq in *.
      split; [|split; [|reflexivity]].
      + split; [lia|]. split; [exact Hthr|]. exact Hb.
      + intros Hm. split; [lia|]. split; [exact Hthr|]. now apply Hmono.
    - intros [w sl] s _ Hc. right. now apply window_fuel_pos.
    - (* a round *)
      intros [w sl] Hc s (Hsame & Hmin & Hmax & Hord & Hb & Hmono & Hsl).
      cbn [fst snd] in *. unfold window_open in Hc. apply Z.leb_le in Hc.
      pose proof (mid_quality_bounds w Hc) as Hmid.
      destruct (same_but_quality_lookup_l _ _ _ _ Hsame Hf) as (f' & Hf' & Hr).
      assert (Hst : stats_at EncodeStats f' (mid_quality w)
                    = ExtOk (sz (mid_quality w), ps (mid_quality w))).
      { rewrite (stats_at_requantised f f') by exact Hr. apply Hans. lia. }
      rewrite (threshold_probe_eval s i f' _ _ w sl _ _ Hf' Hst).
      fold (thr (mid_quality w)).
      assert (Hsame' : same_but_quality s0
                {| frames_ := alter (set_quality (mid_quality w)) i (frames_ s);
                   webp_data := webp_data s; history := history s |}).
      { eapply same_but_quality_trans; [exact Hsame|].
        apply same_but_quality_alter. }
      destruct (thr (mid_quality w)) eqn:Hthr.
      + split; [|right; now apply window_fuel_lower_max].
        unfold Inv. cbn [fst snd lower_max min_quality max_quality].
        replace (mid_quality w - 1 + 1) with (mid_quality w) by lia.
        split; [exact Hsame'|]. split; [lia|]. split; [lia|]. split; [lia|].
        split; [exact Hb|]. split; [exact Hmono|].
        split; [lia|]. split; [exact Hthr|reflexivity].
      + split; [|right; now apply window_fuel_raise_min].
        unfold Inv. cbn [fst snd raise_min min_quality max_quality].
        replace (mid_quality w + 1 - 1) with (mid_quality w) by lia.
        split; [exact Hsame'|]. split; [lia|]. split; [lia|]. split; [lia|].
        split; [now right|]. split.
        * intros Hm q Hq. destruct (Z.lt_ge_cases q (min_quality w)) as [Hlt|Hge].
          -- apply Hmono; [exact Hm|lia].
          -- destruct (thr q) eqn:Hq'; [|reflexivity].
             rewrite <- Hthr. symmetry. apply (Hm q (mid_quality w)); [lia|lia|exact Hq'].
        * destruct sl as [x|]; [exact Hsl|]. destruct Hsl as [-> Hle].
          split; [reflexivity|].
          destruct (Z.eq_dec (mid_quality w) 100) as [E|E]; [|lia].
          rewrite E in Hthr. unfold thr in Hthr. congruence.
    - right. reflexivity. }
  assert (Hs1 : Inv (w0, None) s1).
  { unfold Inv. simpl. split; [apply same_but_quality_alter|].
    repeat split; lia. }
  specialize (Hloop s1 Hs1).
  unfold threshold_search, bind at 1, upd_frame at 1. fold s1.
  unfold bind at 1. unfold s1 at 1.
  rewrite (GetPictureStats_after_set s0 i f) by exact Hf.
  rewrite (Hans 100) by lia. fold s1. unfold bind at 1. fold w0.
  destruct (while _ _ _ _ s1) as [[w sl] s'|st s'| |]; try contradiction.
  destruct Hloop as (Hsame & q & Hbd & Hq & Hsl). simpl in Hsl. subst sl.
  simpl. exists (slope_to_100 sz ps q), s', q. auto.
Qed.

Lemma answered_answers f :
  answered EncodeStats f ->
  answers EncodeStats f (size_at EncodeStats f) (psnr_at EncodeStats f).
Proof.
  intros H q Hq. destruct (H q Hq) as [[sz p] E].
  unfold size_at, psnr_at. now rewrite E.
Qed.

Lemma requantised_boundary_slope_of f f' sl :
  requantised f f' ->
  boundary_slope_of EncodeStats f' sl -> boundary_slope_of EncodeStats f sl.
Proof.
  unfold requantised. intros ->. exact (fun H => H).
Qed.

(** The loop of [FindMedianSlope] over the frames [idxs]. *)
Lemma collect_threshold_search idxs :
  forall s0 s,
    same_but_quality s0 s ->
    (forall i, In i idxs ->
       exists f, frames_ s0 !! i = Some f /\ answered EncodeStats f
                 /\ within_1dB (psnr_at EncodeStats f 100)
                      (psnr_at EncodeStats f 100) = true) ->
    exists slopes s',
      collect idxs (threshold_search EncodeStats) s = Done slopes s'
      /\ same_but_quality s0 s'
      /\ Forall2 (fun i sl =>
                    exists f, frames_ s0 !! i = Some f
                              /\ boundary_slope_of EncodeStats f sl)
           idxs slopes.
Proof.
  induction idxs as [|i idxs IH]; intros s0 s Hsame Hall.
  - exists [], s. simpl. repeat split; try apply Hsame. constructor.
  - destruct (Hall i (or_introl eq_refl)) as (f & Hf & Hans & H100).
    destruct (same_but_quality_lookup_l _ _ _ _ Hsame Hf) as (f' & Hf' & Hr).
    assert (Hans' : answers EncodeStats f' (size_at EncodeStats f)
                      (psnr_at EncodeStats f)).
    { intros q Hq. rewrite (stats_at_requantised f f') by exact Hr.
      now apply answered_answers. }
    destruct (threshold_search_spec s i f' _ _ Hf' Hans' H100)
      as (sl & s1 & q & Hrun & Hsame1 & Hbd & Hmono & Hsl).
    destruct (IH s0 s1) as (slopes & s' & Hrest & Hsame' & HF).
    { eapply same_but_quality_trans; eassumption. }
    { intros j Hj. apply Hall. now right. }
    exists (sl :: slopes), s'. simpl. unfold bind at 1. rewrite Hrun.
    unfold bind at 1. rewrite Hrest. simpl.
    split; [reflexivity|]. split; [exact Hsame'|].
    constructor; [|exact HF]. exists f. split; [exact Hf|].
    exists q. auto.
Qed.

Lemma Forall2_seq_lookup {A} (P : FrameData -> A -> Prop)
    (fs : list FrameData) (l : list A) :
  Forall2 (fun i x => exists f, fs !! i = Some f /\ P f x)
    (seq 0 (length fs)) l ->
  Forall2 P fs l.
Proof.
  intros H. apply Forall2_same_length_lookup. split.
  - apply Forall2_length in H. now rewrite length_seq in H.
  - intros i f x Hf Hx.
    assert (Hi : seq 0 (length fs) !! i = Some i).
    { apply lookup_seq. split; [reflexivity|]. now apply lookup_lt_Some in Hf. }
    destruct (Forall2_lookup_lr _ _ _ _ _ _ H Hi Hx) as (f' & Hf' & HP).
    congruence.
Qed.

Lemma length_insert_sorted {A} (lt : A -> A -> bool) x l :
  length (insert_sorted lt x l) = S (length l).
Proof.
  induction l as [|y l IH]; [reflexivity|].
  cbn [insert_sorted]. destruct (lt y x); cbn [length]; [|reflexivity].
  f_equal. exact IH.
Qed.

Lemma length_sort {A} (lt : A -> A -> bool) l :
  length (sort lt l) = length l.
Proof.
  unfold sort. induction l as [|x l IH]; simpl; [reflexivity|].
  now rewrite length_insert_sorted, IH.
Qed.

Lemma median_nonempty (slopes : list float) :
  slopes <> [] -> strict_weak_order F32.ltb slopes = true ->
  exists m, median slopes = Some m.
Proof.
  intros Hne Hswo. unfold median. rewrite Hswo.
  apply lookup_lt_is_Some. rewrite length_sort.
  destruct slopes; [congruence|]. cbn [length].
  apply Nat.div_lt; lia.
Qed.

(** The median of slopes none of which is a NaN. *)
Lemma median_ordered (slopes : list float) (m : float) :
  (forall d, In d slopes -> F32.is_nan d = false) ->
  median slopes = Some m ->
  exists sorted,
    Permutation sorted slopes
    /\ StronglySorted (fun a b => F32.leb a b = true) sorted
    /\ sorted !! (length slopes / 2)%nat = Some m.
Proof.
  intros Hord Hm. unfold median in Hm.
  rewrite (strict_weak_order_ordered slopes Hord) in Hm.
  exists (sort F32.ltb slopes). split; [apply sort_perm|]. split; [|exact Hm].
  apply (sort_sorted F32.ltb _ (fun d => F32.is_nan d = false)).
  - apply F32_ltb_leb.
  - intros a b Ha Hb. now apply F32_ltb_false_leb.
  - apply F32_leb_trans.
  - apply List.Forall_forall. exact Hord.
Qed.

(** [FindMedianSlope] on frames the codec answers for. *)
Lemma FindMedianSlope_total s :
  frames_ s <> [] ->
  (forall f, In f (frames_ s) ->
     answered EncodeStats f
     /\ within_1dB (psnr_at EncodeStats f 100) (psnr_at EncodeStats f 100)
        = true) ->
  (forall f sl, In f (frames_ s) -> boundary_slope_of EncodeStats f sl ->
     F32.is_nan sl = false) ->
  exists median_slope s' slopes,
    FindMedianSlope EncodeStats s = Done median_slope s'
    /\ same_but_quality s s'
    /\ Forall2 (boundary_slope_of EncodeStats) (frames_ s) slopes
    /\ (forall d, In d slopes -> F32.is_nan d = false)
    /\ median slopes = Some median_slope.
Proof.
  intros Hne Hall Hnan.
  destruct (collect_threshold_search (seq 0 (length (frames_ s))) s s
              (same_but_quality_refl s)) as (slopes & s' & Hrun & Hsame & HF).
  { intros i Hi. apply in_seq in Hi.
    destruct (lookup_lt_is_Some_2 (frames_ s) i ltac:(lia)) as [f Hf].
    exists f. split; [exact Hf|]. apply Hall.
    apply list_elem_of_In. eapply list_elem_of_lookup_2. exact Hf. }
  apply Forall2_seq_lookup in HF.
  assert (Hord : forall d, In d slopes -> F32.is_nan d = false).
  { intros d Hd. apply list_elem_of_In, list_elem_of_lookup in Hd.
    destruct Hd as [i Hi].
    destruct (Forall2_lookup_r _ _ _ _ _ HF Hi) as (f & Hf & Hb).
    apply (Hnan f d); [|exact Hb].
    apply list_elem_of_In. eapply list_elem_of_lookup_2. exact Hf. }
  destruct (median_nonempty slopes) as [m Hm].
  { intros ->. apply Forall2_length in HF. destruct (frames_ s); [congruence|discriminate]. }
  { now apply strict_weak_order_ordered. }
  exists m, s', slopes.
  unfold FindMedianSlope, bind at 1, frame_indices. unfold bind at 1.
  rewrite Hrun, Hm. auto.
Qed.

(** C4. When the codec encodes every frame at every quality from 0 to 100
    with a finite PSNR at quality 100, the 1 dB test is monotone in the
    quality (the codec's monotonicity contract) and no frame has a NaN as
    the slope at its threshold (its sizes at the threshold quality and at
    quality 100 differ), [FindMedianSlope] returns: for every frame its
    threshold search has found the smallest quality [q] in [0, 100] with
    PSNR(100) - PSNR(q) <= 1.0 and recorded the slope
    (PSNR(100) - PSNR(q)) / (size(100) - size(q)), and the value returned
    is the median of these slopes: the element at index [n / 2] of the
    slopes of the [n] frames arranged in ascending order. *)
Theorem FindMedianSlope_median_of_threshold_slopes (s : State) :
  frames_ s <> [] ->
  (forall f, In f (frames_ s) ->
     answered EncodeStats f
     /\ F32.is_finite (psnr_at EncodeStats f 100) = true
     /\ threshold_monotone (psnr_at EncodeStats f)
     /\ forall sl, threshold_slope EncodeStats f sl -> F32.is_nan sl = false) ->
  exists median_slope s' slopes ascending,
    FindMedianSlope EncodeStats s = Done median_slope s'
    /\ Forall2 (threshold_slope EncodeStats) (frames_ s) slopes
    /\ Permutation ascending slopes
    /\ StronglySorted (fun a b => F32.leb a b = true) ascending
    /\ ascending !! (length (frames_ s) / 2)%nat = Some median_slope.
Proof using Type.
  intros Hne Hall.
  destruct (FindMedianSlope_total s Hne)
    as (m & s' & slopes & Hrun & _ & HF & Hord & Hm).
  { intros f Hf. destruct (Hall f Hf) as (Ha & Hfin & _).
    split; [exact Ha|]. now apply within_1dB_refl. }
  { intros f sl Hf (q & Hbd & Hthr & ->).
    destruct (Hall f Hf) as (_ & _ & Hmono & Hnan).
    apply Hnan. exists q. split; [now apply Hthr|reflexivity]. }
  destruct (median_ordered slopes m Hord Hm) as (asc & Hperm & Hsorted & Hmed).
  exists m, s', slopes, asc. split; [exact Hrun|].
  rewrite (Forall2_length _ _ _ HF).
  split; [|split; [exact Hperm|split; [exact Hsorted|exact Hmed]]].
  apply Forall2_same_length_lookup. split; [eapply Forall2_length, HF|].
  intros i f sl Hf Hsl.
  destruct (Forall2_lookup_lr _ _ _ _ _ _ HF Hf Hsl) as (q & Hbd & Hmono & ->).
  exists q. split; [|reflexivity]. apply Hmono. apply (Hall f).
  apply list_elem_of_In. eapply list_elem_of_lookup_2. exact Hf.
Qed.

(** ** The byte budget *)

Lemma codec_total_stats_at f q :
  codec_total EncodeStats ->
  exists sz ps, stats_at EncodeStats f q = ExtOk (sz, ps)
                /\ F32.is_finite ps = true.
Proof. intros H. apply H. Qed.

Lemma codec_total_slope f lo hi :
  codec_total EncodeStats ->
  exists sl, slope_between EncodeStats f lo hi = Some sl.
Proof.
  intros H. unfold slope_between.
  destruct (codec_total_stats_at f lo H) as (ls & lp & -> & _).
  destruct (codec_total_stats_at f hi H) as (hs & hp & -> & _). eauto.
Qed.

(** With a codec that answers, the [for] of lines 150-159 ends, and leaves
    each frame of [optim_list] at the midpoint or at the upper bound. *)
Lemma keep_active_total w limit_slope optim_list :
  codec_total EncodeStats ->
  forall s,
    (forall i, In i optim_list -> (i < length (frames_ s))%nat) ->
    exists new_optim_list s',
      keep_active EncodeStats w limit_slope optim_list s
      = Done new_optim_list s'
      /\ forall i, In i optim_list ->
           exists f', frames_ s' !! i = Some f'
                      /\ (quality (config f') = mid_quality w
                          \/ quality (config f') = max_quality w).
Proof.
  intros Htot. induction optim_list as [|i0 rest IH]; intros s Hvalid.
  - exists [], s. split; [reflexivity|]. intros i [].
  - destruct (lookup_lt_is_Some_2 (frames_ s) i0
                (Hvalid i0 (or_introl eq_refl))) as [f Hf].
    pose proof (ComputeSlope_eval s i0 f (min_quality w) (max_quality w) Hf) as HC.
    destruct (codec_total_slope f (min_quality w) (max_quality w) Htot) as [sl0 Hsl0].
    simpl. unfold bind at 1.
    destruct (ComputeSlope EncodeStats i0 (min_quality w) (max_quality w) s)
      as [sl s1|st s1| |]; try contradiction.
    2:{ destruct HC as [HC _]. congruence. }
    destruct HC as [_ ->].
    unfold bind at 1, get_frame at 1. simpl frames_.
    rewrite list_lookup_alter_eq, Hf. simpl fmap.
    cbv iota. cbn [set_quality final_quality].
    set (s1 := {| frames_ := alter (set_quality (max_quality w)) i0 (frames_ s);
                  webp_data := webp_data s; history := history s |}).
    destruct ((final_quality f =? -1) || F32.ltb limit_slope sl).
    + unfold bind at 1, upd_frame at 1.
      set (s2 := {| frames_ := alter (set_quality (mid_quality w)) i0 (frames_ s1);
                    webp_data := webp_data s1; history := history s1 |}).
      destruct (IH s2) as (new & s' & Hrun & Hq).
      { intros i Hi. unfold s2, s1. simpl. rewrite !length_alter.
        apply Hvalid. now right. }
      unfold bind at 1. rewrite Hrun. simpl.
      exists (i0 :: new), s'. split; [reflexivity|].
      intros i [<-|Hi]; [|now apply Hq].
      destruct (in_dec Nat.eq_dec i0 rest) as [Hr|Hr]; [now apply Hq|].
      destruct (keep_active_spec _ _ _ _ _ _ Hrun) as (_ & _ & Hout & _).
      rewrite (Hout i0 Hr). unfold s2, s1. simpl.
      rewrite !list_lookup_alter_eq, Hf. simpl. eexists. split; [reflexivity|].
      now left.
    + destruct (IH s1) as (new & s' & Hrun & Hq).
      { intros i Hi. unfold s1. simpl. rewrite length_alter.
        apply Hvalid. now right. }
      rewrite Hrun. exists new, s'. split; [reflexivity|].
      intros i [<-|Hi]; [|now apply Hq].
      destruct (in_dec Nat.eq_dec i0 rest) as [Hr|Hr]; [now apply Hq|].
      destruct (keep_active_spec _ _ _ _ _ _ Hrun) as (_ & _ & Hout & _).
      rewrite (Hout i0 Hr). unfold s1. simpl.
      rewrite list_lookup_alter_eq, Hf. simpl. eexists. split; [reflexivity|].
      now right.
Qed.

Lemma raised_assembler_input floor fs fs' :
  Forall2 (fun f f' => requantised f f' /\ floor <= quality (config f')) fs fs' ->
  Forall2 raised (assembler_input (map (set_quality floor) fs))
                 (assembler_input fs').
Proof.
  intros H. induction H as [|f f' fs fs' [Hr Hq] _ IH]; simpl; constructor.
  - unfold requantised in Hr. rewrite Hr. unfold raised. simpl.
    repeat split. exact Hq.
  - exact IH.
Qed.

Lemma same_but_quality_length s s' :
  same_but_quality s s' -> length (frames_ s') = length (frames_ s).
Proof. intros (H & _ & _). symmetry. eapply Forall2_length, H. Qed.

(** When no animation fits whose frames are at the floor quality or above,
    the rounds of the global search end without committing anything. *)
Lemma slope_rounds_nothing_fits limit_slope (sS : State) :
  codec_total EncodeStats ->
  assembler_total Assemble ->
  assembly_monotone Assemble ->
  exceeds_at byte_budget_ Assemble minimum_lossy_quality_ (frames_ sS) ->
  forall s,
    same_but_quality sS s ->
    let w0 := {| min_quality := minimum_lossy_quality_; max_quality := 100 |} in
    exists v s',
      while (window_fuel w0) slope_cond
        (slope_round byte_budget_ EncodeStats Assemble limit_slope)
        (w0, seq 0 (length (frames_ s))) s = Done v s'
      /\ same_but_quality sS s'.
Proof.
  intros Hcodec Hasm Hmono Hexc s Hsame w0.
  set (Inv := fun (v : Window * list nat) (x : State) =>
    same_but_quality sS x
    /\ min_quality v.1 = minimum_lossy_quality_
    /\ (forall i, In i v.2 -> (i < length (frames_ sS))%nat)
    /\ (forall i f', frames_ x !! i = Some f' ->
          In i v.2 \/ minimum_lossy_quality_ <= quality (config f'))).
  assert (Hloop : triple False (Inv (w0, seq 0 (length (frames_ s))))
            (while (window_fuel w0) slope_cond
               (slope_round byte_budget_ EncodeStats Assemble limit_slope)
               (w0, seq 0 (length (frames_ s))))
            (fun _ x => same_but_quality sS x) (fun _ _ => False)).
  { apply (triple_while False Inv (fun v => window_fuel v.1)).
    - intros v x (Hx & _) _. exact Hx.
    - intros [w ol] x _ Hc. right. apply window_fuel_pos.
      unfold slope_cond in Hc. now apply andb_true_iff in Hc.
    - intros [w ol] Hc x (Hx & Hmin & Hvalid & Hq). cbn [fst snd] in *.
      unfold slope_cond in Hc. apply andb_true_iff in Hc.
      destruct Hc as [Hopen _]. cbn [fst] in Hopen.
      unfold window_open in Hopen. apply Z.leb_le in Hopen.
      pose proof (mid_quality_bounds w Hopen) as Hmid.
      destruct (keep_active_total w limit_slope ol Hcodec x)
        as (new & x1 & Hkeep & Hqual).
      { intros i Hi. rewrite (same_but_quality_length sS x Hx). now apply Hvalid. }
      destruct (keep_active_spec _ _ _ _ _ _ Hkeep) as (Hx1 & Hsub & Hout & _).
      assert (Hsame1 : same_but_quality sS x1)
        by (eapply same_but_quality_trans; eassumption).
      unfold slope_round, bind at 1. rewrite Hkeep.
      destruct (is_nil new) eqn:Hnil; [exact Hsame1|].
      unfold bind at 1. rewrite GenerateAnimationNoBudget_eval.
      destruct (Hasm (assembler_input (frames_ x1))) as [d Hd]. rewrite Hd.
      assert (Hall : forall i f', frames_ x1 !! i = Some f' ->
                minimum_lossy_quality_ <= quality (config f')).
      { intros i f' Hf'. destruct (in_dec Nat.eq_dec i ol) as [Hi|Hi].
        - destruct (Hqual i Hi) as (g & Hg & Hgq). rewrite Hf' in Hg.
          injection Hg as <-. lia.
        - rewrite (Hout i Hi) in Hf'. destruct (Hq i f' Hf'); [contradiction|lia]. }
      assert (Hover : byte_budget_ < WebPData_size d).
      { destruct (Hasm (assembler_input
                          (map (set_quality minimum_lossy_quality_) (frames_ sS))))
          as [d0 Hd0].
        pose proof (Hexc d0 Hd0) as H0.
        enough (WebPData_size d0 <= WebPData_size d) by lia.
        eapply Hmono; [|exact Hd0|exact Hd].
        apply raised_assembler_input.
        destruct Hsame1 as (HF & _ & _).
        apply Forall2_same_length_lookup. split; [eapply Forall2_length, HF|].
        intros i f f' Hf Hf'. split; [|eapply Hall; exact Hf'].
        exact (Forall2_lookup_lr _ _ _ _ _ _ HF Hf Hf'). }
      destruct (Z.leb_spec (WebPData_size d) byte_budget_); [lia|].
      cbn [fst snd]. split; [|right; now apply window_fuel_lower_max].
      unfold Inv. cbn [fst snd lower_max min_quality].
      split; [exact Hsame1|]. split; [exact Hmin|]. split.
      + intros i Hi. apply Hvalid. apply list_elem_of_In.
        eapply elem_of_sublist; [|exact Hsub]. now apply list_elem_of_In.
      + intros i f' Hf'. right. eapply Hall, Hf'.
    - right. reflexivity. }
  assert (H0 : Inv (w0, seq 0 (length (frames_ s))) s).
  { unfold Inv. cbn [fst snd]. split; [exact Hsame|]. split; [reflexivity|].
    split.
    - intros i Hi. apply in_seq in Hi.
      rewrite <- (same_but_quality_length sS s Hsame). lia.
    - intros i f' Hf'. left. apply in_seq. apply lookup_lt_Some in Hf'. lia. }
  specialize (Hloop s H0).
  destruct (while _ _ _ _ s) as [v s'|st s'| |]; try contradiction.
  exists v, s'. auto.
Qed.

(** The [for] of lines 182-187, with a codec that answers: it ends and
    changes neither the buffer nor any [final_quality]. *)
Lemma record_final_stats_total idxs :
  codec_total EncodeStats ->
  forall s,
    (forall i, In i idxs -> (i < length (frames_ s))%nat) ->
    exists s',
      for_each idxs (record_final_stats EncodeStats) s = Done tt s'
      /\ webp_data s' = webp_data s /\ history s' = history s
      /\ Forall2 (fun f f' => final_quality f' = final_quality f)
           (frames_ s) (frames_ s').
Proof.
  intros Htot. induction idxs as [|i idxs IH]; intros s Hvalid.
  - exists s. simpl. repeat split. apply pointwise_refl. reflexivity.
  - destruct (lookup_lt_is_Some_2 (frames_ s) i (Hvalid i (or_introl eq_refl)))
      as [f Hf].
    destruct (codec_total_stats_at f (final_quality f) Htot) as (sz & ps & Hst & _).
    set (g := fun x => set_stats sz ps (set_quality (final_quality f) x)).
    set (s1 := {| frames_ := alter g i (frames_ s);
                  webp_data := webp_data s; history := history s |}).
    assert (Hstep : record_final_stats EncodeStats i s = Done tt s1).
    { unfold record_final_stats, bind at 1, get_frame at 1. rewrite Hf.
      unfold bind at 1, upd_frame at 1. unfold bind at 1.
      rewrite (GetPictureStats_after_set s i f) by exact Hf. rewrite Hst.
      unfold upd_frame, s1. simpl. rewrite list_alter_alter_eq. reflexivity. }
    destruct (IH s1) as (s' & Hrun & Hw & Hh & HF).
    { intros j Hj. unfold s1. simpl. rewrite length_alter. apply Hvalid. now right. }
    exists s'. simpl. unfold bind at 1. rewrite Hstep.
    split; [exact Hrun|]. split; [exact Hw|]. split; [exact Hh|].
    eapply (pointwise_trans (fun f f' => final_quality f' = final_quality f));
      [intros; congruence| |exact HF].
    unfold s1. simpl. apply pointwise_alter; reflexivity.
Qed.

Lemma Forall2_map_eq {A B} (h : A -> B) (l l' : list A) :
  Forall2 (fun x y => h y = h x) l l' -> map h l' = map h l.
Proof. induction 1; simpl; congruence. Qed.

(** The slope pass when nothing fits: when even the animation
    with every frame at the floor quality exceeds the budget, the pass ends
    with [kByteBudgetError], the buffer as it was and every
    [final_quality] as it was. *)
Lemma SlopeOptim_nothing_fits (s : State) :
  frames_ s <> [] ->
  codec_total EncodeStats ->
  assembler_total Assemble ->
  assembly_monotone Assemble ->
  (forall f sl, In f (frames_ s) -> boundary_slope_of EncodeStats f sl ->
     F32.is_nan sl = false) ->
  exceeds_at byte_budget_ Assemble minimum_lossy_quality_
    (by_timestamp (frames_ s)) ->
  webp_data s = WebPDataInit ->
  exists s',
    SlopeOptim s = Return kByteBudgetError s'
    /\ webp_data s' = WebPDataInit
    /\ history s' = history s
    /\ map final_quality (frames_ s')
       = map final_quality (by_timestamp (frames_ s)).
Proof.
  intros Hne Hcodec Hasm Hmono Hnan Hexc Hempty.
  set (sS := {| frames_ := by_timestamp (frames_ s);
                webp_data := webp_data s; history := history s |}).
  destruct (FindMedianSlope_total sS) as (limit & s1 & slopes & Hfind & Hsame1 & _).
  { unfold sS, by_timestamp. simpl. intros E.
    apply (f_equal length) in E. rewrite length_sort in E.
    destruct (frames_ s); [congruence|discriminate]. }
  { intros f _. split.
    - intros q _. destruct (codec_total_stats_at f q Hcodec) as (sz & ps & E & _).
      eauto.
    - apply within_1dB_refl. unfold psnr_at.
      destruct (codec_total_stats_at f 100 Hcodec) as (sz & ps & -> & Hfin).
      exact Hfin. }
  { intros f sl Hf. apply Hnan. revert Hf. unfold sS, by_timestamp. simpl.
    apply Permutation_in, sort_perm. }
  destruct (slope_rounds_nothing_fits limit sS Hcodec Hasm Hmono Hexc s1 Hsame1)
    as (v & s2 & Hwhile & Hsame2).
  destruct (record_final_stats_total (seq 0 (length (frames_ s2))) Hcodec s2)
    as (s3 & Hrec & Hw3 & Hh3 & HF3).
  { intros i Hi. apply in_seq in Hi. lia. }
  exists s3.
  destruct Hsame2 as (HF2 & Hw2 & Hh2). simpl in Hw2, Hh2.
  split.
  - unfold LossyEncodeSlopeOptim, bind at 1, sort_frames, bind at 1, get,
      set_frames. fold (by_timestamp (frames_ s)). fold sS.
    unfold bind at 1. rewrite Hfind.
    unfold bind at 1, frame_indices at 1. unfold bind at 1. rewrite Hwhile.
    unfold bind at 1, frame_indices at 1. unfold bind at 1. rewrite Hrec.
    unfold return_by_size, bind, get. rewrite Hw3, Hw2, Hempty. reflexivity.
  - split; [congruence|]. split; [congruence|].
    rewrite (Forall2_map_eq final_quality _ _ HF3).
    apply Forall2_map_eq. simpl in HF2.
    eapply Forall2_impl; [exact HF2|]. intros f f' Hr.
    now apply requantised_final_quality.
Qed.

(** What the driver stores fits the budget. *)

Lemma triple_any {A} (P : State -> Prop) (m : M A) :
  triple True P m (fun _ _ => True) (fun _ _ => True).
Proof. intros s _. destruct (m s); exact Logic.I. Qed.

Lemma fails_only_bind {A B} (m : M A) (k : A -> M B) :
  fails_only m -> (forall a, fails_only (k a)) -> fails_only (bind m k).
Proof. intros Hm Hk. eapply triple_bind; [exact Hm|]. exact Hk. Qed.

Lemma fails_only_state {A} (m : M A) :
  (forall s, match m s with Return _ _ => False | _ => True end) ->
  fails_only m.
Proof. intros H s _. specialize (H s). destruct (m s); auto. Qed.

Lemma fails_only_for_each {A} (l : list A) body :
  (forall x, fails_only (body x)) -> fails_only (for_each l body).
Proof. intros H. apply triple_for_each. intros x _. apply H. Qed.

Lemma fails_only_collect {A B} (l : list A) (f : A -> M B) :
  (forall x, fails_only (f x)) -> fails_only (collect l f).
Proof. intros H. apply triple_collect. intros x _. apply H. Qed.

Lemma fails_only_while {L} fuel cond (body : L -> M (LoopStep L)) l :
  (forall l, fails_only (body l)) -> fails_only (while fuel cond body l).
Proof.
  intros H.
  apply (triple_while True (fun _ _ => True) (fun _ => O) cond body
           (fun _ _ => True) (fun st _ => st <> kOk)); auto.
  intros l' _. eapply triple_weaken; [apply H|auto..].
  intros [?|?] s' _; auto.
Qed.

Lemma fails_only_GetPictureStats ind :
  fails_only (GetPictureStats EncodeStats ind).
Proof.
  intros s _. unfold GetPictureStats, bind, get_frame.
  destruct (frames_ s !! ind); [|exact Logic.I].
  destruct (EncodeStats _ _) as [r|[]]; simpl; auto; discriminate.
Qed.

Lemma fails_only_GenerateAnimationNoBudget :
  fails_only (GenerateAnimationNoBudget Assemble).
Proof.
  intros s _. rewrite GenerateAnimationNoBudget_eval.
  destruct (Assemble _) as [r|[]]; simpl; auto; discriminate.
Qed.

Lemma fails_only_return_by_size : fails_only return_by_size.
Proof.
  intros s _. unfold return_by_size, bind, get.
  destruct (0 <? _); simpl; auto; discriminate.
Qed.

Lemma fails_only_ret {A} (a : A) : fails_only (ret a).
Proof. intros s _. exact Logic.I. Qed.

Lemma fails_only_undefined {A} : fails_only (@undefined A).
Proof. intros s _. exact Logic.I. Qed.

Lemma fails_only_get : fails_only get.
Proof. intros s _. exact Logic.I. Qed.

Lemma fails_only_frame_indices : fails_only frame_indices.
Proof. intros s _. exact Logic.I. Qed.

Lemma fails_only_get_frame i : fails_only (get_frame i).
Proof. intros s _. unfold get_frame. destruct (_ !! _); exact Logic.I. Qed.

Lemma fails_only_upd_frame i g : fails_only (upd_frame i g).
Proof. intros s _. exact Logic.I. Qed.

Lemma fails_only_set_webp_data d : fails_only (set_webp_data d).
Proof. intros s _. exact Logic.I. Qed.

Lemma fails_only_set_frames fs : fails_only (set_frames fs).
Proof. intros s _. exact Logic.I. Qed.

Ltac fails_step :=
  lazymatch goal with
  | |- fails_only (bind _ _) => apply fails_only_bind; [|intros ?]
  | |- fails_only (ret _) => apply fails_only_ret
  | |- fails_only undefined => apply fails_only_undefined
  | |- fails_only get => apply fails_only_get
  | |- fails_only frame_indices => apply fails_only_frame_indices
  | |- fails_only (get_frame _) => apply fails_only_get_frame
  | |- fails_only (upd_frame _ _) => apply fails_only_upd_frame
  | |- fails_only (set_webp_data _) => apply fails_only_set_webp_data
  | |- fails_only (set_frames _) => apply fails_only_set_frames
  | |- fails_only (GetPictureStats _ _) => apply fails_only_GetPictureStats
  | |- fails_only (GenerateAnimationNoBudget _) =>
      apply fails_only_GenerateAnimationNoBudget
  | |- fails_only return_by_size => apply fails_only_return_by_size
  | |- fails_only (for_each _ _) => apply fails_only_for_each; intros ?
  | |- fails_only (collect _ _) => apply fails_only_collect; intros ?
  | |- fails_only (while _ _ _ _) => apply fails_only_while; intros ?
  | |- fails_only (if ?c then _ else _) => destruct c
  | |- fails_only (match ?x with _ => _ end) => destruct x
  | |- fails_only (let '(_, _) := ?x in _) => destruct x
  | |- fails_only _ => assumption
  end.

Lemma fails_only_ComputeSlope ind lo hi :
  fails_only (ComputeSlope EncodeStats ind lo hi).
Proof. unfold ComputeSlope. repeat fails_step. Qed.

Lemma fails_only_keep_active w limit_slope optim_list :
  fails_only (keep_active EncodeStats w limit_slope optim_list).
Proof.
  induction optim_list as [|i l IH]; simpl.
  - repeat fails_step.
  - apply fails_only_bind; [apply fails_only_ComputeSlope|intros ?].
    repeat fails_step.
Qed.

Lemma fails_only_slopes_to_100 idxs :
  fails_only (slopes_to_100 EncodeStats idxs).
Proof.
  induction idxs as [|i l IH]; simpl.
  - repeat fails_step.
  - apply fails_only_bind; [repeat fails_step|intros f].
    destruct (near_lossless f); [exact IH|].
    apply fails_only_bind; [apply fails_only_ComputeSlope|intros ?].
    repeat fails_step.
Qed.

Lemma fails_only_SlopeOptim : fails_only SlopeOptim.
Proof.
  unfold LossyEncodeSlopeOptim, sort_frames, FindMedianSlope,
    threshold_search, threshold_probe, slope_round, record_final_stats.
  repeat first [apply fails_only_keep_active | fails_step].
Qed.

Lemma fails_only_ExtraLossy : fails_only ExtraLossy.
Proof.
  unfold ExtraLossyEncode, topup_round, topup_probe, commit_topup.
  repeat first [apply fails_only_slopes_to_100 | fails_step].
Qed.

Lemma SlopeOptim_done_nonempty s s' :
  SlopeOptim s = Done tt s' -> 0 < WebPData_size (webp_data s').
Proof.
  intros Hrun.
  assert (H : triple True (fun _ => True) SlopeOptim
                (fun _ x => 0 < WebPData_size (webp_data x))
                (fun _ _ => True)).
  { unfold LossyEncodeSlopeOptim.
    do 6 (eapply triple_bind; [apply triple_any|intros ?]).
    intros x _. unfold return_by_size, bind, get.
    destruct (Z.ltb_spec 0 (WebPData_size (webp_data x))); simpl; auto. }
  specialize (H s Logic.I). rewrite Hrun in H. exact H.
Qed.

Lemma SlopeOptim_fits s s' :
  WebPData_size (webp_data s) = 0 ->
  SlopeOptim s = Done tt s' -> fits byte_budget_ s'.
Proof.
  intros Hempty Hrun.
  pose proof (SlopeOptim_done_nonempty s s' Hrun) as Hpos.
  assert (H : preserves
                (fun x => fits byte_budget_ x
                          \/ WebPData_size (webp_data x) = 0) SlopeOptim).
  { apply (pres_LossyEncodeSlopeOptim _ any_update); unfold any_update, fits;
      simpl; auto. }
  specialize (H s (or_intror Hempty)). rewrite Hrun in H.
  destruct H as [H|H]; [exact H|lia].
Qed.

Lemma NoSlopeOptim_keeps_fit : preserves (fits byte_budget_) NoSlopeOptim.
Proof.
  apply (pres_LossyEncodeNoSlopeOptim _ any_update); unfold any_update, fits;
    simpl; auto.
Qed.

Lemma ExtraLossy_keeps_fit : preserves (fits byte_budget_) ExtraLossy.
Proof.
  apply (pres_ExtraLossyEncode _ any_update); unfold any_update, fits;
    simpl; auto.
Qed.

Lemma call_keeps_fit p (body : M unit) :
  preserves (fits byte_budget_) body ->
  preserves (fits byte_budget_) (call p body).
Proof.
  intros H. unfold call. apply pres_bind.
  - intros s Hs. exact Hs.
  - intros _. now apply pres_CHECK.
Qed.

Lemma refine_rounds_keeps_fit n z :
  preserves (fits byte_budget_)
    (refine_rounds byte_budget_ EncodeStats Assemble GetAnimationSize n z).
Proof.
  revert z. induction n as [|n IH]; intros z; simpl.
  - apply pres_ret.
  - apply pres_bind; [apply call_keeps_fit, NoSlopeOptim_keeps_fit|].
    intros _. apply pres_bind; [apply pres_get|]. intros x.
    destruct (z =? _); [apply pres_ret|apply IH].
Qed.

Lemma call_done p (body : M unit) s s' :
  call p body s = Done tt s' ->
  let se := {| frames_ := frames_ s; webp_data := webp_data s;
               history := history s ++ [(p, WebPData_size (webp_data s))] |} in
  body se = Done tt s' \/ body se = Return kOk s'.
Proof.
  intros H se. unfold call, bind, enter, CHECK_THUMBNAILER_STATUS in H.
  fold se in H.
  destruct (body se) as [[] x|[] x| |]; try discriminate;
    injection H as <-; auto.
Qed.

Lemma rest_of_driver_keeps_fit :
  preserves (fits byte_budget_) NearLosslessEqual ->
  preserves (fits byte_budget_) GenerateAnimationEqualQuality ->
  preserves (fits byte_budget_)
    (bind (call PNearLosslessEqual NearLosslessEqual)
       (fun _ =>
          bind get (fun s =>
            if (num_near_ll_frames (frames_ s) =? 0)%nat
            then bind (call PEqualQuality GenerateAnimationEqualQuality)
                      (fun _ => @return_ unit kOk)
            else bind (refine_rounds byte_budget_ EncodeStats Assemble
                         GetAnimationSize KMaxIter
                         (WebPData_size (webp_data s)))
                   (fun _ => bind (call PExtraLossy ExtraLossy)
                                  (fun _ => @return_ unit kOk))))).
Proof.
  intros Hnll Heq.
  apply pres_bind; [now apply call_keeps_fit|intros _].
  apply pres_bind; [apply pres_get|intros x].
  destruct (_ =? _)%nat.
  - apply pres_bind; [now apply call_keeps_fit|intros _]. apply pres_return.
  - apply pres_bind; [apply refine_rounds_keeps_fit|intros _].
    apply pres_bind; [apply call_keeps_fit, ExtraLossy_keeps_fit|intros _].
    apply pres_return.
Qed.

Lemma driver_fits s s' :
  preserves (fits byte_budget_) NearLosslessEqual ->
  preserves (fits byte_budget_) GenerateAnimationEqualQuality ->
  WebPData_size (webp_data s) = 0 ->
  Driver s = Return kOk s' -> fits byte_budget_ s'.
Proof.
  intros Hnll Heq Hempty Hrun. unfold GenerateAnimationSlopeOptim in Hrun.
  unfold bind at 1 in Hrun.
  destruct (call PSlopeOptim SlopeOptim s) as [[] s1|st s1| |] eqn:Hc1;
    try discriminate.
  2:{ injection Hrun as -> ->. now apply call_not_return_kOk in Hc1. }
  assert (H1 : fits byte_budget_ s1).
  { destruct (call_done _ _ _ _ Hc1) as [H|H].
    - eapply SlopeOptim_fits; [|exact H]. exact Hempty.
    - pose proof (fails_only_SlopeOptim
                    {| frames_ := frames_ s; webp_data := webp_data s;
                       history := history s
                                  ++ [(PSlopeOptim, WebPData_size (webp_data s))] |}
                    Logic.I) as Hf.
      rewrite H in Hf. now contradiction Hf. }
  pose proof (rest_of_driver_keeps_fit Hnll Heq s1 H1) as Hrest.
  rewrite Hrun in Hrest. exact Hrest.
Qed.

(** X25. The byte budget through the driver, for a budget that is not
    negative, a run on an empty buffer and missing passes that keep the
    buffer within the budget. If the status returned is [kOk], the
    animation in [webp_data] has at most [byte_budget] bytes. If even the
    animation with every frame at [minimum_lossy_quality] exceeds the
    budget (so that, sizes being monotone in the quality, no trial assembly
    fits), and the codec and the assembler answer every call (the codec
    also the query of lines 183-185, made at the unset quality -1 here)
    with slopes at the 1 dB threshold that are no NaN, the run returns
    [kByteBudgetError], [webp_data] is still empty and the frames have the
    values of [final_quality] they had. *)
Theorem budget_respected_or_budget_error (s : State) :
  0 <= byte_budget_ ->
  preserves (fits byte_budget_) NearLosslessEqual ->
  preserves (fits byte_budget_) GenerateAnimationEqualQuality ->
  webp_data s = WebPDataInit ->
  (forall s',
     status_of (Driver s) = Some kOk -> state_of (Driver s) = Some s' ->
     WebPData_size (webp_data s') <= byte_budget_)
  /\ (frames_ s <> [] ->
      codec_total EncodeStats ->
      assembler_total Assemble ->
      assembly_monotone Assemble ->
      (forall f sl, In f (frames_ s) -> boundary_slope_of EncodeStats f sl ->
         F32.is_nan sl = false) ->
      (forall fs, Permutation fs (frames_ s) ->
         exceeds_at byte_budget_ Assemble minimum_lossy_quality_ fs) ->
      exists s',
        Driver s = Return kByteBudgetError s'
        /\ webp_data s' = WebPDataInit
        /\ Permutation (map final_quality (frames_ s'))
             (map final_quality (frames_ s))).
Proof using Type.
  intros _ Hnll Heq Hempty. split.
  - intros s' Hst Hs'.
    assert (Hsz : WebPData_size (webp_data s) = 0) by now rewrite Hempty.
    destruct (Driver s) as [a x|st x| |] eqn:Hrun; try discriminate.
    + (* the driver ends with [return kOk] *)
      exfalso. clear - Hrun. unfold GenerateAnimationSlopeOptim, bind in Hrun.
      repeat match type of Hrun with
             | context [match ?m with _ => _ end] => destruct m; try discriminate
             end.
    + simpl in Hst, Hs'. injection Hst as ->. injection Hs' as ->.
      exact (driver_fits s s' Hnll Heq Hsz Hrun).
  - intros Hne Hcodec Hasm Hmono Hnan Hexc.
    set (se := {| frames_ := frames_ s; webp_data := webp_data s;
                  history := history s
                             ++ [(PSlopeOptim, WebPData_size (webp_data s))] |}).
    destruct (SlopeOptim_nothing_fits se Hne Hcodec Hasm Hmono Hnan
                (Hexc _ (sort_perm _ _)) Hempty)
      as (s' & Hrun & Hw & _ & Hq).
    exists s'. split; [|split; [exact Hw|]].
    + unfold GenerateAnimationSlopeOptim, bind at 1, call, bind at 1, enter.
      fold se. unfold CHECK_THUMBNAILER_STATUS. rewrite Hrun. reflexivity.
    + rewrite Hq. apply Permutation_map. apply sort_perm.
Qed.

(** ** LossyEncodeNoSlopeOptim: the scan *)

Lemma refine_probe_eval s i g rem w anim new_size new_psnr :
  frames_ s !! i = Some g ->
  stats_at EncodeStats g (mid_quality w) = ExtOk (new_size, new_psnr) ->
  let r := probe_result byte_budget_ rem w anim
             (set_quality (mid_quality w) g) new_size new_psnr in
  refine_probe byte_budget_ EncodeStats i rem (w, anim) s
  = Done (Continue (r.1.2, r.2))
      {| frames_ := <[i := r.1.1]> (frames_ s);
         webp_data := webp_data s; history := history s |}.
Proof.
  intros Hg Hst r. unfold refine_probe, bind at 1, upd_frame at 1.
  unfold bind at 1. rewrite (GetPictureStats_after_set s i g) by exact Hg.
  rewrite Hst. unfold bind at 1, get_frame at 1. simpl frames_.
  rewrite list_lookup_alter_eq, Hg. simpl fmap. cbv iota.
  assert (Hset : alter (set_quality (mid_quality w)) i (frames_ s)
                 = <[i := set_quality (mid_quality w) g]> (frames_ s)).
  { apply list_eq. intros j. destruct (decide (i = j)) as [<-|Hne].
    - rewrite list_lookup_alter_eq, Hg, list_lookup_insert_eq;
        [reflexivity|]. now apply lookup_lt_Some in Hg.
    - now rewrite list_lookup_alter_ne, list_lookup_insert_ne. }
  subst r. unfold probe_result.
  destruct (improves new_size new_psnr _); [|simpl; now rewrite Hset].
  destruct (affordable _ _ _ _ _); [|simpl; now rewrite Hset].
  unfold bind, upd_frame. simpl. rewrite list_alter_alter_eq. f_equal. f_equal.
  apply list_eq. intros j. destruct (decide (i = j)) as [<-|Hne].
  - rewrite list_lookup_alter_eq, Hg, list_lookup_insert_eq;
      [reflexivity|]. now apply lookup_lt_Some in Hg.
  - now rewrite list_lookup_alter_ne, list_lookup_insert_ne.
Qed.

Lemma improves_set_quality q ns np g :
  improves ns np (set_quality q g) = improves ns np g.
Proof. reflexivity. Qed.

Lemma refine_frame_out_of_range i rem a s :
  frames_ s !! i = None ->
  refine_frame byte_budget_ EncodeStats i rem a s = Undefined.
Proof.
  intros H. unfold refine_frame, bind, get_frame. now rewrite H.
Qed.

(** ** Qualities and PSNR across the passes *)

Lemma psnr_le_refl p : psnr_le p p.
Proof. now left. Qed.

Lemma psnr_le_trans p q r : psnr_le p q -> psnr_le q r -> psnr_le p r.
Proof.
  intros [->|H1] [->|H2]; unfold psnr_le; auto.
  right. eapply F32_leb_trans; eassumption.
Qed.

Lemma improves_psnr_le ns np g :
  improves ns np g = true -> psnr_le (final_psnr g) np.
Proof.
  unfold improves. intros H. right.
  apply orb_true_iff in H. destruct H as [H|H].
  - now apply F32_ltb_leb.
  - apply andb_true_iff in H. destruct H as [H _]. now apply F32_eqb_leb.
Qed.

Lemma refined_refl f : refined f f.
Proof. unfold refined. repeat split; auto using psnr_le_refl; lia. Qed.

(** The search of one frame in the scan. *)
Lemma refine_frame_refined i rem a s a' s' f :
  refine_frame byte_budget_ EncodeStats i rem a s = Done a' s' ->
  frames_ s !! i = Some f ->
  exists f',
    frames_ s' !! i = Some f' /\ refined f f'
    /\ (forall j, j <> i -> frames_ s' !! j = frames_ s !! j).
Proof.
  intros Hrun Hf. unfold refine_frame, bind at 1, get_frame at 1 in Hrun.
  rewrite Hf in Hrun. unfold bind at 1, upd_frame at 1 in Hrun.
  set (w0 := refine_window f) in *.
  set (s1 := {| frames_ := alter (set_lossless 0) i (frames_ s);
                webp_data := webp_data s; history := history s |}) in *.
  set (Inv := fun (v : Window * Z) (x : State) =>
    min_quality w0 <= min_quality v.1
    /\ (forall j, j <> i -> frames_ x !! j = frames_ s !! j)
    /\ exists g, frames_ x !! i = Some g
                 /\ psnr_le (final_psnr f) (final_psnr g)
                 /\ (final_quality g = final_quality f
                     \/ min_quality w0 <= final_quality g)).
  assert (Hloop : triple True (Inv (w0, a))
            (while (window_fuel w0) (fun v => window_open v.1)
               (refine_probe byte_budget_ EncodeStats i rem) (w0, a))
            (fun v x => Inv v x) (fun _ _ => True)).
  { apply (triple_while True Inv (fun _ => O)); auto.
    intros [w b] Hopen x (Hlo & Hout & g & Hg & Hps & Hq). cbn [fst snd] in *.
    unfold window_open in Hopen. apply Z.leb_le in Hopen.
    pose proof (mid_quality_bounds w Hopen) as Hmid.
    destruct (stats_at EncodeStats g (mid_quality w)) as [[ns np]|e] eqn:Hst.
    2:{ unfold refine_probe, bind at 1, upd_frame at 1. unfold bind at 1.
        rewrite (GetPictureStats_after_set x i g) by exact Hg. rewrite Hst.
        exact Logic.I. }
    rewrite (refine_probe_eval x i g rem w b ns np Hg Hst).
    split; [|now left]. unfold Inv, probe_result. rewrite improves_set_quality.
    assert (Hlen : (i < length (frames_ x))%nat)
      by now apply lookup_lt_Some in Hg.
    destruct (improves ns np g) eqn:Himp;
      [destruct (affordable _ _ _ _ _)|];
      cbn [fst snd raise_min lower_max min_quality max_quality frames_];
      (split; [lia|]);
      (split; [intros j Hj; rewrite list_lookup_insert_ne by congruence;
               now apply Hout|]);
      eexists; (split; [now apply list_lookup_insert_eq|]);
      cbn [accept set_near_lossless set_final_quality set_stats set_quality
           final_psnr final_quality]; (split; [|try (right; lia); exact Hq]);
      try exact Hps.
    eapply psnr_le_trans; [exact Hps|]. exact (improves_psnr_le ns np g Himp). }
  assert (H1 : Inv (w0, a) s1).
  { unfold Inv. cbn [fst snd]. split; [lia|]. split.
    - intros j Hj. unfold s1. simpl. now rewrite list_lookup_alter_ne by congruence.
    - exists (set_lossless 0 f). unfold s1. simpl.
      rewrite list_lookup_alter_eq, Hf. simpl.
      split; [reflexivity|]. split; [apply psnr_le_refl|now left]. }
  specialize (Hloop s1 H1). unfold bind at 1 in Hrun.
  destruct (while _ _ _ _ s1) as [v x| | |]; try discriminate.
  simpl in Hrun. injection Hrun as <- <-.
  destruct Hloop as (_ & Hout & g & Hg & Hps & Hq).
  exists g. split; [exact Hg|]. split; [|exact Hout].
  unfold refined. unfold w0, refine_window in Hq. cbn [min_quality] in Hq.
  repeat split; [| |exact Hps].
  - intros Hl. rewrite Hl in Hq. simpl in Hq. lia.
  - intros Hl. destruct (Z.eqb_spec (lossless (config f)) 0); [contradiction|].
    exact Hq.
Qed.

Lemma refine_scan_refined idxs :
  NoDup idxs ->
  forall rem a s a' s',
    refine_scan byte_budget_ EncodeStats idxs rem a s = Done a' s' ->
    forall i f, frames_ s !! i = Some f ->
      exists f', frames_ s' !! i = Some f'
                 /\ (In i idxs -> refined f f')
                 /\ (~ In i idxs -> f' = f).
Proof.
  induction 1 as [|i0 rest Hnotin Hnd IH]; intros rem a s a' s' Hrun i f Hf.
  - simpl in Hrun. injection Hrun as <- <-. exists f.
    split; [exact Hf|]. split; [intros []|reflexivity].
  - simpl in Hrun. unfold bind at 1 in Hrun.
    destruct (frames_ s !! i0) as [f0|] eqn:Hf0.
    2:{ rewrite refine_frame_out_of_range in Hrun by exact Hf0. discriminate. }
    destruct (refine_frame byte_budget_ EncodeStats i0 rem a s)
      as [a1 s1| | |] eqn:Hfr; try discriminate.
    destruct (refine_frame_refined _ _ _ _ _ _ _ Hfr Hf0)
      as (f0' & Hf0' & Href & Hout).
    rewrite list_elem_of_In in Hnotin.
    destruct (Nat.eq_dec i i0) as [->|Hne].
    + rewrite Hf0 in Hf. injection Hf as ->.
      destruct (IH _ _ _ _ _ Hrun i0 f0' Hf0') as (f' & Hf' & _ & Hsame).
      exists f'. split; [exact Hf'|]. rewrite (Hsame Hnotin).
      split; [intros _; exact Href|]. intros Hn. exfalso. apply Hn. now left.
    + rewrite <- (Hout i Hne) in Hf.
      destruct (IH _ _ _ _ _ Hrun i f Hf) as (f' & Hf' & Hin & Hsame).
      exists f'. split; [exact Hf'|]. split.
      * intros [E|Hi]; [congruence|auto].
      * intros Hn. apply Hsame. intros Hi. apply Hn. now right.
Qed.

Lemma fails_only_refine_scan idxs rem a :
  fails_only (refine_scan byte_budget_ EncodeStats idxs rem a).
Proof.
  revert rem a. induction idxs as [|i l IH]; intros rem a; simpl.
  - apply fails_only_ret.
  - apply fails_only_bind; [|intros ?; apply IH].
    unfold refine_frame, refine_probe. repeat fails_step.
Qed.

Lemma refined_restore_config f f' :
  refined f f' -> refined f (restore_config f').
Proof. exact (fun H => H). Qed.

(** [LossyEncodeNoSlopeOptim], when it returns [kOk]. *)
Lemma NoSlopeOptim_outcome s :
  match NoSlopeOptim s with
  | Done _ s' | Return kOk s' => Forall2 refined (frames_ s) (frames_ s')
  | _ => True
  end.
Proof.
  unfold LossyEncodeNoSlopeOptim. unfold bind at 1, get at 1.
  destruct (GetAnimationSize (webp_data s) >? byte_budget_).
  { unfold return_. apply pointwise_refl, refined_refl. }
  unfold bind at 1, frame_indices at 1. unfold bind at 1.
  pose proof (fails_only_refine_scan (seq 0 (length (frames_ s)))
                (Z.of_nat (length (frames_ s)))
                (GetAnimationSize (webp_data s)) s Logic.I) as Hfail.
  destruct (refine_scan _ _ _ _ _ s) as [a1 s1|st x| |] eqn:Hscan;
    try exact Logic.I.
  2:{ destruct st; try exact Logic.I. contradiction. }
  clear Hfail.
  destruct (refine_scan_frame _ _ _ _ _ _ Hscan) as (_ & _ & Hlen).
  unfold bind at 1. rewrite <- Hlen, for_each_upd_all.
  unfold bind at 1. rewrite GenerateAnimationNoBudget_eval. simpl frames_.
  assert (HF : Forall2 refined (frames_ s) (map restore_config (frames_ s1))).
  { apply Forall2_same_length_lookup. split; [now rewrite length_map|].
    intros i f g Hf Hg. rewrite list_lookup_fmap in Hg.
    destruct (refine_scan_refined _ (NoDup_seq 0 _) _ _ _ _ _ Hscan i f Hf)
      as (f' & Hf' & Hin & _).
    rewrite Hf' in Hg. injection Hg as <-.
    apply refined_restore_config, Hin. apply in_seq.
    apply lookup_lt_Some in Hf. lia. }
  destruct (Assemble _) as [d|e].
  2:{ unfold return_. destruct e; exact Logic.I. }
  destruct (WebPData_size d <=? byte_budget_).
  - unfold bind at 1, set_webp_data, return_by_size, bind, get. simpl.
    destruct (0 <? WebPData_size d); unfold ret, return_; simpl; auto.
  - unfold return_. exact HF.
Qed.

(** ** What the passes keep of the frames and of the buffer *)

Lemma same_source_refl f : same_source f f.
Proof. split; reflexivity. Qed.

Lemma same_source_upd fs0 (g : FrameData -> FrameData) i fs :
  (forall f, same_source f (g f)) ->
  Forall2 same_source fs0 fs -> Forall2 same_source fs0 (alter g i fs).
Proof.
  intros Hg HF. apply Forall2_alter_r; [exact HF|].
  intros f0 y _ _ [Hp Ht]. destruct (Hg y) as [Hp' Ht'].
  split; congruence.
Qed.

Lemma by_timestamp_sorted fs :
  StronglySorted (fun a b => timestamp_ms a <= timestamp_ms b) (by_timestamp fs).
Proof.
  unfold by_timestamp.
  apply (sort_sorted _ (fun a b => timestamp_ms a <= timestamp_ms b)
           (fun _ => True)).
  - intros a b H. apply Z.ltb_lt in H. lia.
  - intros a b _ _ H. apply Z.ltb_ge in H. lia.
  - intros a b c. lia.
  - apply List.Forall_forall. auto.
Qed.

Lemma sorted_same_source fs fs' :
  Forall2 same_source fs fs' ->
  StronglySorted (fun a b => timestamp_ms a <= timestamp_ms b) fs ->
  StronglySorted (fun a b => timestamp_ms a <= timestamp_ms b) fs'.
Proof.
  induction 1 as [|f f' fs fs' Hf HF IH]; intros Hs; [constructor|].
  apply StronglySorted_inv in Hs. destruct Hs as [Hs Hall].
  constructor; [now apply IH|].
  clear IH Hs. induction HF as [|g g' fs fs' Hg HF IH]; [constructor|].
  apply List.Forall_cons_iff in Hall. destruct Hall as [Hfg Hall].
  constructor; [|now apply IH].
  destruct Hf as [_ Ht], Hg as [_ Ht']. lia.
Qed.

Lemma same_source_state_upd fs0 (x : State) i g :
  (forall f, same_source f (g f)) ->
  Forall2 same_source fs0 (frames_ x) ->
  Forall2 same_source fs0
    (frames_ {| frames_ := alter g i (frames_ x);
                webp_data := webp_data x; history := history x |}).
Proof. intros Hg HF. simpl. now apply same_source_upd. Qed.

Lemma SlopeOptim_same_source s :
  match SlopeOptim s with
  | Done _ s' | Return _ s' =>
      Forall2 same_source (by_timestamp (frames_ s)) (frames_ s')
  | _ => True
  end.
Proof.
  unfold LossyEncodeSlopeOptim. unfold bind at 1, sort_frames at 1.
  unfold bind at 1, get at 1, set_frames at 1.
  pose proof (pres_slope_search
                (fun x => Forall2 same_source (by_timestamp (frames_ s))
                            (frames_ x))
                (fun g => forall f, same_source f (g f))
                (same_source_state_upd _)
                ltac:(auto)
                ltac:(intros q f; split; reflexivity)
                ltac:(intros sz p f; split; reflexivity)
                ltac:(intros q f; split; reflexivity)) as H.
  apply H. simpl. apply pointwise_refl. exact same_source_refl.
Qed.

Lemma NoSlopeOptim_same_source fs0 :
  preserves (fun x => Forall2 same_source fs0 (frames_ x)) NoSlopeOptim.
Proof.
  apply (pres_LossyEncodeNoSlopeOptim
           (fun x => Forall2 same_source fs0 (frames_ x))
           (fun g => forall f, same_source f (g f)));
    auto using same_source_state_upd; intros; split; reflexivity.
Qed.

Lemma ExtraLossy_same_source fs0 :
  preserves (fun x => Forall2 same_source fs0 (frames_ x)) ExtraLossy.
Proof.
  apply (pres_ExtraLossyEncode
           (fun x => Forall2 same_source fs0 (frames_ x))
           (fun g => forall f, same_source f (g f)));
    auto using same_source_state_upd; intros; split; reflexivity.
Qed.

(** X1. The frames through the passes. [LossyEncodeSlopeOptim] sorts the
    frames by timestamp, and that is all the passes do to the vector: however
    a pass ends, the frames of [LossyEncodeSlopeOptim] are a rearrangement
    of those it was given, with ascending timestamps, and the frames of
    [LossyEncodeNoSlopeOptim] and of [ExtraLossyEncode] are those they were
    given, in the same order; no picture and no timestamp is changed, no
    frame is added or dropped. Which of two frames with the same timestamp
    comes first after the sort is not said. *)
Theorem passes_keep_the_frames (s : State) :
  match SlopeOptim s with
  | Done _ s' | Return _ s' =>
      (exists fs, Permutation fs (frames_ s)
                  /\ Forall2 same_source fs (frames_ s'))
      /\ StronglySorted (fun a b => timestamp_ms a <= timestamp_ms b)
           (frames_ s')
  | _ => True
  end
  /\ match NoSlopeOptim s with
     | Done _ s' | Return _ s' => Forall2 same_source (frames_ s) (frames_ s')
     | _ => True
     end
  /\ match ExtraLossy s with
     | Done _ s' | Return _ s' => Forall2 same_source (frames_ s) (frames_ s')
     | _ => True
     end.
Proof using Type.
  assert (Hrefl : forall fs, Forall2 same_source fs fs).
  { intros fs. apply pointwise_refl. exact same_source_refl. }
  split; [|split].
  - pose proof (SlopeOptim_same_source s) as H.
    destruct (SlopeOptim s) as [u s'|st s'| |]; try exact Logic.I;
      (split;
       [exists (by_timestamp (frames_ s)); split; [apply sort_perm|exact H]
       |eapply sorted_same_source; [exact H|apply by_timestamp_sorted]]).
  - apply NoSlopeOptim_same_source, Hrefl.
  - apply ExtraLossy_same_source, Hrefl.
Qed.

Lemma pres_call I p (body : M unit) :
  (forall x, I x ->
     I {| frames_ := frames_ x; webp_data := webp_data x;
          history := history x ++ [(p, WebPData_size (webp_data x))] |}) ->
  preserves I body -> preserves I (call p body).
Proof.
  intros Henter H. unfold call. apply pres_bind.
  - intros x Hx. now apply Henter.
  - intros _. now apply pres_CHECK.
Qed.

Lemma pres_refine_rounds I n :
  (forall x h, I x ->
     I {| frames_ := frames_ x; webp_data := webp_data x; history := h |}) ->
  preserves I NoSlopeOptim ->
  forall z,
    preserves I
      (refine_rounds byte_budget_ EncodeStats Assemble GetAnimationSize n z).
Proof.
  intros Hh H. induction n as [|n IH]; intros z; simpl.
  - apply pres_ret.
  - apply pres_bind; [apply pres_call; [intros x Hx; now apply Hh|exact H]|].
    intros _. apply pres_bind; [apply pres_get|]. intros x.
    destruct (z =? _); [apply pres_ret|apply IH].
Qed.

(** X21. The frames through the driver. When the two passes that are not
    in the sources keep the pictures, the timestamps and the order of the
    frames, a run of [GenerateAnimationSlopeOptim], however it ends, leaves
    a rearrangement of the frames it was given, each with its picture and
    its timestamp, sorted by ascending timestamp. Which of two frames with
    the same timestamp comes first is not said. *)
Theorem driver_leaves_frames_sorted (s : State) :
  (forall fs0, preserves (fun x => Forall2 same_source fs0 (frames_ x))
                 NearLosslessEqual) ->
  (forall fs0, preserves (fun x => Forall2 same_source fs0 (frames_ x))
                 GenerateAnimationEqualQuality) ->
  match Driver s with
  | Done _ s' | Return _ s' =>
      (exists fs, Permutation fs (frames_ s)
                  /\ Forall2 same_source fs (frames_ s'))
      /\ StronglySorted (fun a b => timestamp_ms a <= timestamp_ms b)
           (frames_ s')
  | _ => True
  end.
Proof using Type.
  intros Hnear Hequal.
  set (J := fun x : State =>
              Forall2 same_source (by_timestamp (frames_ s)) (frames_ x)).
  assert (Hh : forall x h, J x ->
            J {| frames_ := frames_ x; webp_data := webp_data x;
                 history := h |}) by (intros x h Hx; exact Hx).
  assert (H : triple True (fun x => x = s) Driver (fun _ => J) (fun _ => J)).
  { unfold GenerateAnimationSlopeOptim.
    eapply triple_bind with (Q1 := fun _ => J).
    { intros x ->. unfold call, bind at 1, enter at 1.
      unfold CHECK_THUMBNAILER_STATUS.
      pose proof (SlopeOptim_same_source
                    {| frames_ := frames_ s; webp_data := webp_data s;
                       history := history s
                                  ++ [(PSlopeOptim,
                                       WebPData_size (webp_data s))] |}) as H.
      simpl frames_ in H.
      destruct (SlopeOptim _) as [u x'|[] x'| |]; exact H. }
    intros u. apply pres_bind.
    { apply pres_call; [intros x Hx; now apply Hh|apply Hnear]. }
    intros u1. apply pres_bind; [apply pres_get|]. intros x.
    destruct (_ =? _)%nat.
    - apply pres_bind; [|intros; apply pres_return].
      apply pres_call; [intros y Hy; now apply Hh|apply Hequal].
    - apply pres_bind.
      { apply pres_refine_rounds; [exact Hh|apply NoSlopeOptim_same_source]. }
      intros u2. apply pres_bind; [|intros; apply pres_return].
      apply pres_call; [intros y Hy; now apply Hh|].
      apply ExtraLossy_same_source. }
  specialize (H s eq_refl).
  destruct (Driver s) as [u s'|st s'| |]; try exact Logic.I;
    (split;
     [exists (by_timestamp (frames_ s)); split; [apply sort_perm|exact H]
     |eapply sorted_same_source; [exact H|apply by_timestamp_sorted]]).
Qed.

(** X2. The buffer through the passes, for a byte budget that is not
    negative. However one of the three passes ends, [*webp_data] is the
    buffer the pass was given or an animation of at most [byte_budget_]
    bytes: a pass never stores an animation that exceeds the budget,
    whatever the buffer it is called with. (A negative budget is left out:
    the tests of lines 165, 252 and 307 convert it to [size_t], where it is
    larger than every size.) *)
Theorem passes_store_within_budget (s : State) :
  0 <= byte_budget_ ->
  match SlopeOptim s with
  | Done _ s' | Return _ s' =>
      webp_data s' = webp_data s \/ fits byte_budget_ s'
  | _ => True
  end
  /\ match NoSlopeOptim s with
     | Done _ s' | Return _ s' =>
         webp_data s' = webp_data s \/ fits byte_budget_ s'
     | _ => True
     end
  /\ match ExtraLossy s with
     | Done _ s' | Return _ s' =>
         webp_data s' = webp_data s \/ fits byte_budget_ s'
     | _ => True
     end.
Proof using Type.
  intros _.
  set (J := fun x : State => webp_data x = webp_data s \/ fits byte_budget_ x).
  assert (J_upd : forall x i g, any_update g -> J x ->
            J {| frames_ := alter g i (frames_ x); webp_data := webp_data x;
                 history := history x |}) by (intros x i g _ Hx; exact Hx).
  assert (J_sort : forall x, J x ->
            J {| frames_ := sort (fun a b => timestamp_ms a <? timestamp_ms b)
                              (frames_ x);
                 webp_data := webp_data x; history := history x |})
    by (intros x Hx; exact Hx).
  assert (J_data : forall x d, J x -> WebPData_size d <= byte_budget_ ->
            J {| frames_ := frames_ x; webp_data := d; history := history x |})
    by (intros x d _ Hd; right; exact Hd).
  assert (J0 : J s) by (left; reflexivity).
  split; [|split].
  - apply (pres_LossyEncodeSlopeOptim J any_update); unfold any_update; auto.
  - apply (pres_LossyEncodeNoSlopeOptim J any_update); unfold any_update; auto.
  - apply (pres_ExtraLossyEncode J any_update); unfold any_update; auto.
Qed.

Lemma quality_only_upd (s x : State) i q :
  same_but_quality s x ->
  same_but_quality s {| frames_ := alter (set_quality q) i (frames_ x);
                        webp_data := webp_data x; history := history x |}.
Proof.
  intros Hx. eapply same_but_quality_trans; [exact Hx|].
  repeat split; simpl. apply Forall2_requantised_alter.
Qed.

Lemma ComputeSlope_same_but_quality s ind lo hi :
  preserves (same_but_quality s) (ComputeSlope EncodeStats ind lo hi).
Proof.
  apply (pres_ComputeSlope (same_but_quality s)
           (fun g => exists q, g = set_quality q)).
  - intros x i g [q ->]. apply quality_only_upd.
  - intros q. now exists q.
Qed.

Lemma FindMedianSlope_same_but_quality s :
  preserves (same_but_quality s) (FindMedianSlope EncodeStats).
Proof.
  apply (pres_FindMedianSlope (same_but_quality s)
           (fun g => exists q, g = set_quality q)).
  - intros x i g [q ->]. apply quality_only_upd.
  - intros q. now exists q.
Qed.

(** X3. The two slope computations only move [config.quality]. However
    [ComputeSlope] or [FindMedianSlope] ends, with a slope or with an error
    of the codec, every frame is as it was except for the quality of its
    configuration, and the buffer is as it was: pictures, timestamps,
    [final_quality], [final_psnr], [encoded_size] and the near-lossless flag
    are not written. *)
Theorem slope_probes_write_quality_only (s : State) (ind : nat)
    (low_quality high_quality : Z) :
  match ComputeSlope EncodeStats ind low_quality high_quality s with
  | Done _ s' | Return _ s' => same_but_quality s s'
  | _ => True
  end
  /\ match FindMedianSlope EncodeStats s with
     | Done _ s' | Return _ s' => same_but_quality s s'
     | _ => True
     end.
Proof using Type.
  split.
  - apply ComputeSlope_same_but_quality, same_but_quality_refl.
  - apply FindMedianSlope_same_but_quality, same_but_quality_refl.
Qed.

(** X4. [ComputeSlope] on a frame of the vector. It asks the codec for the
    frame at [low_quality] and then at [high_quality]. When the codec fails
    at [low_quality] the error is returned at once, the frame left at
    [low_quality]; when it fails at [high_quality] the error is returned with
    the frame at [high_quality]. Otherwise the slope is 0 when the two sizes
    are equal, so that no division by a zero size difference is made, and
    the [float] quotient of the PSNR difference by the size difference
    when they differ; the frame is left at [high_quality]. *)
Theorem ComputeSlope_outcome (s : State) (ind : nat) (f : FrameData)
    (low_quality high_quality : Z) :
  frames_ s !! ind = Some f ->
  let at_quality q :=
    {| frames_ := alter (set_quality q) ind (frames_ s);
       webp_data := webp_data s; history := history s |} in
  ComputeSlope EncodeStats ind low_quality high_quality s
  = match stats_at EncodeStats f low_quality with
    | ExtErr e => Return (status_of_failure e) (at_quality low_quality)
    | ExtOk (low_size, low_psnr) =>
        match stats_at EncodeStats f high_quality with
        | ExtErr e => Return (status_of_failure e) (at_quality high_quality)
        | ExtOk (high_size, high_psnr) =>
            Done (if high_size =? low_size then F32.zero
                  else F32.div (F32.sub high_psnr low_psnr)
                               (F32.of_int (high_size - low_size)))
                 (at_quality high_quality)
        end
    end.
Proof using Type.
  intros Hf at_quality. unfold ComputeSlope, bind at 1. unfold upd_frame at 1.
  unfold bind at 1. rewrite (GetPictureStats_after_set _ _ f) by exact Hf.
  destruct (stats_at EncodeStats f low_quality) as [[ls lp]|e] eqn:Elo;
    [|reflexivity].
  unfold bind at 1. unfold upd_frame at 1. simpl frames_. simpl webp_data.
  simpl history. unfold bind at 1.
  assert (Hf' : alter (set_quality low_quality) ind (frames_ s) !! ind
                = Some (set_quality low_quality f)).
  { rewrite list_lookup_alter_eq, Hf. reflexivity. }
  pose proof (GetPictureStats_after_set
                {| frames_ := alter (set_quality low_quality) ind (frames_ s);
                   webp_data := webp_data s; history := history s |}
                ind (set_quality low_quality f) high_quality Hf') as E.
  simpl in E. rewrite E. clear E.
  rewrite (stats_at_requantised f (set_quality low_quality f))
    by apply requantised_set_quality.
  assert (Halt : alter (set_quality high_quality) ind
                   (alter (set_quality low_quality) ind (frames_ s))
                 = alter (set_quality high_quality) ind (frames_ s)).
  { rewrite list_alter_alter_eq. apply list_alter_ext; [|reflexivity].
    intros g _. destruct g as [? ? [] ? ? ? ?]. reflexivity. }
  rewrite Halt. unfold at_quality.
  destruct (stats_at EncodeStats f high_quality) as [[hs hp]|e] eqn:Ehi;
    [|reflexivity].
  destruct (hs =? ls); reflexivity.
Qed.

(** X5. No frame. [FindMedianSlope] sorts the slopes of the frames and
    reads the element at index [size / 2]: with no frame it reads
    [slopes[0]] of an empty vector, for which C++ defines no behaviour.
    [LossyEncodeSlopeOptim] calls it before anything else is tested, and the
    driver calls [LossyEncodeSlopeOptim] first: whatever the budget, the
    codec and the buffer, a run with no frame has no defined behaviour. *)
Theorem no_frame_no_defined_behaviour (s : State) :
  frames_ s = [] ->
  FindMedianSlope EncodeStats s = Undefined
  /\ SlopeOptim s = Undefined
  /\ Driver s = Undefined.
Proof using Type.
  intros Hnil.
  assert (Hfind : forall x, frames_ x = [] ->
            FindMedianSlope EncodeStats x = Undefined).
  { intros x Hx. unfold FindMedianSlope, bind, frame_indices. rewrite Hx.
    reflexivity. }
  assert (Hslope : forall x, frames_ x = [] -> SlopeOptim x = Undefined).
  { intros x Hx. unfold LossyEncodeSlopeOptim. unfold bind at 1.
    unfold sort_frames, bind at 1, get, set_frames. unfold bind at 1.
    rewrite Hfind; [reflexivity|]. simpl. now rewrite Hx. }
  split; [now apply Hfind|]. split; [now apply Hslope|].
  unfold GenerateAnimationSlopeOptim. unfold bind at 1.
  unfold call at 1. unfold bind at 1, enter at 1.
  unfold CHECK_THUMBNAILER_STATUS. rewrite Hslope; [reflexivity|exact Hnil].
Qed.

(** ** LossyEncodeSlopeOptim: what a successful pass leaves *)

Lemma record_final_stats_step i x x' :
  record_final_stats EncodeStats i x = Done tt x' ->
  exists f sz ps,
    frames_ x !! i = Some f
    /\ EncodeStats (pic f)
         {| quality := final_quality f; lossless := lossless (config f) |}
       = ExtOk (sz, ps)
    /\ x' = {| frames_ := alter (fun g => set_stats sz ps
                                         (set_quality (final_quality f) g))
                            i (frames_ x);
               webp_data := webp_data x; history := history x |}.
Proof.
  unfold record_final_stats, bind at 1, get_frame at 1.
  destruct (frames_ x !! i) as [f|] eqn:Hf; [|discriminate].
  unfold bind at 1, upd_frame at 1. unfold bind at 1.
  rewrite (GetPictureStats_after_set x i f) by exact Hf. unfold stats_at.
  destruct (EncodeStats _ _) as [[sz ps]|e] eqn:Hst; [|discriminate].
  unfold upd_frame. simpl. rewrite list_alter_alter_eq. intros H.
  injection H as <-. exists f, sz, ps. auto.
Qed.

Lemma record_final_stats_outcome i x :
  match record_final_stats EncodeStats i x with
  | Done _ x' | Return _ x' =>
      webp_data x' = webp_data x
      /\ Forall2 (fun f f' => final_quality f' = final_quality f)
           (frames_ x) (frames_ x')
  | _ => True
  end.
Proof.
  apply (pres_bind (fun y => webp_data y = webp_data x
                             /\ Forall2 (fun f f' => final_quality f'
                                                     = final_quality f)
                                  (frames_ x) (frames_ y))).
  - apply pres_get_frame.
  - intros f.
    assert (Hupd : forall j g,
              (forall h, final_quality (g h) = final_quality h) ->
              preserves (fun y => webp_data y = webp_data x
                                  /\ Forall2 (fun f f' => final_quality f'
                                                          = final_quality f)
                                       (frames_ x) (frames_ y))
                (upd_frame j g)).
    { intros j g Hg y [Hw HF]. simpl. split; [exact Hw|].
      apply Forall2_alter_r; [exact HF|]. intros a b _ _ E. now rewrite Hg. }
    apply pres_bind; [apply Hupd; reflexivity|]. intros u.
    apply pres_bind; [apply pres_GetPictureStats|]. intros [sz ps].
    apply Hupd. reflexivity.
  - split; [reflexivity|]. apply pointwise_refl. reflexivity.
Qed.

Lemma record_final_stats_done idxs :
  forall x x',
    NoDup idxs ->
    for_each idxs (record_final_stats EncodeStats) x = Done tt x' ->
    (forall i, ~ In i idxs -> frames_ x' !! i = frames_ x !! i)
    /\ (forall i, In i idxs -> (i < length (frames_ x))%nat ->
          exists f', frames_ x' !! i = Some f' /\ recorded EncodeStats f').
Proof.
  induction idxs as [|i idxs IH]; intros x x' Hnd Hrun.
  - simpl in Hrun. injection Hrun as <-. split; [auto|intros i []].
  - apply NoDup_cons in Hnd. destruct Hnd as [Hni Hnd].
    simpl in Hrun. unfold bind at 1 in Hrun.
    destruct (record_final_stats EncodeStats i x) as [[] x1| | |] eqn:Hstep;
      try discriminate.
    destruct (record_final_stats_step _ _ _ Hstep) as (f & sz & ps & Hf & Hst & ->).
    destruct (IH _ _ Hnd Hrun) as [Hout Hin]. simpl in Hout, Hin.
    split.
    + intros j Hj. rewrite Hout by (intros H; apply Hj; now right).
      apply list_lookup_alter_ne. intros ->. apply Hj. now left.
    + intros j [<-|Hj] Hlt.
      * rewrite Hout by (intros H; apply Hni, list_elem_of_In; exact H).
        rewrite list_lookup_alter_eq, Hf. simpl. eexists. split; [reflexivity|].
        split; [reflexivity|]. simpl. exact Hst.
      * apply Hin; [exact Hj|]. now rewrite length_alter.
Qed.

(** X6. A slope pass that succeeds. When [LossyEncodeSlopeOptim] runs to
    its end, the buffer holds an animation (its size is not 0), and every
    frame is left with its configuration at its [final_quality] and with
    the [encoded_size] and the [final_psnr] that the codec answers for that
    configuration (lines 182-187). *)
Theorem SlopeOptim_success_records_stats (s s' : State) :
  SlopeOptim s = Done tt s' ->
  0 < WebPData_size (webp_data s')
  /\ forall f', In f' (frames_ s') -> recorded EncodeStats f'.
Proof using Type.
  intros Hrun. split; [exact (SlopeOptim_done_nonempty s s' Hrun)|].
  assert (H : triple True (fun _ => True) SlopeOptim
                (fun _ x => forall f', In f' (frames_ x) ->
                                       recorded EncodeStats f')
                (fun _ _ => True)).
  { unfold LossyEncodeSlopeOptim.
    do 4 (eapply triple_bind; [apply triple_any|intros ?]).
    eapply triple_bind
      with (Q1 := fun idxs x => idxs = seq 0 (length (frames_ x))).
    { intros x _. reflexivity. }
    intros idxs.
    eapply triple_bind
      with (Q1 := fun _ x => forall f', In f' (frames_ x) ->
                                        recorded EncodeStats f').
    - intros x ->.
      destruct (for_each _ _ x) as [[] x'| | |] eqn:Heach; try exact Logic.I.
      destruct (record_final_stats_done _ _ _ (NoDup_seq _ _) Heach)
        as [_ Hin].
      intros f' Hf'. apply list_elem_of_In, list_elem_of_lookup in Hf'.
      destruct Hf' as [i Hi].
      assert (Hlen : length (frames_ x') = length (frames_ x)).
      { pose proof (pres_for_each
                      (fun y => length (frames_ y) = length (frames_ x))
                      (seq 0 (length (frames_ x)))
                      (record_final_stats EncodeStats)) as Hp.
        assert (Hb : forall i0, preserves
                       (fun y => length (frames_ y) = length (frames_ x))
                       (record_final_stats EncodeStats i0)).
        { intros i0 y Hy.
          destruct (record_final_stats EncodeStats i0 y) as [[] y'|st y'| |] eqn:E;
            try exact Logic.I.
          - destruct (record_final_stats_step _ _ _ E) as (? & ? & ? & _ & _ & ->).
            simpl. now rewrite length_alter.
          - revert E. unfold record_final_stats, bind at 1, get_frame at 1.
            destruct (frames_ y !! i0); [|discriminate].
            unfold bind at 1, upd_frame at 1. unfold bind at 1.
            unfold GetPictureStats, bind at 1, get_frame at 1. simpl.
            destruct (alter _ _ _ !! i0); [|discriminate]. simpl.
            destruct (EncodeStats _ _) as [[]|]; simpl; try discriminate.
            intros E. injection E as _ <-. simpl. now rewrite length_alter. }
        specialize (Hp Hb x eq_refl). rewrite Heach in Hp. exact Hp. }
      pose proof (lookup_lt_Some _ _ _ Hi) as Hlt. rewrite Hlen in Hlt.
      destruct (Hin i) as (g & Hg & Hrec); [apply in_seq; lia|exact Hlt|].
      rewrite Hi in Hg. injection Hg as <-. exact Hrec.
    - intros u x Hx. unfold return_by_size, bind, get.
      destruct (0 <? WebPData_size (webp_data x)); simpl; auto. }
  specialize (H s Logic.I). rewrite Hrun in H. exact H.
Qed.

Lemma foldl_alter_lookup (g : FrameData -> FrameData) (l : list nat) :
  forall (fs : list FrameData) i f',
    foldl (fun acc j => alter g j acc) fs l !! i = Some f' ->
    (forall f, g (g f) = g f) ->
    exists f, fs !! i = Some f
              /\ ((In i l /\ f' = g f) \/ (~ In i l /\ f' = f)).
Proof.
  induction l as [|j l IH]; intros fs i f' Hi Hidem; simpl in Hi.
  - exists f'. split; [exact Hi|]. right. split; [intros []|reflexivity].
  - destruct (IH _ _ _ Hi Hidem) as (f1 & Hf1 & Hcase).
    destruct (Nat.eq_dec j i) as [->|Hne].
    + rewrite list_lookup_alter_eq in Hf1.
      destruct (fs !! i) as [f|] eqn:Hf; [|discriminate].
      injection Hf1 as <-. exists f. split; [reflexivity|]. left.
      split; [now left|].
      destruct Hcase as [[_ ->]|[_ ->]]; [apply Hidem|reflexivity].
    + rewrite list_lookup_alter_ne in Hf1 by exact Hne.
      exists f1. split; [exact Hf1|].
      destruct Hcase as [[Hin ->]|[Hnin ->]].
      * left. split; [now right|reflexivity].
      * right. split; [|reflexivity]. intros [E|Hin]; auto.
Qed.

(** X7. A slope pass that succeeds on frames that have no quality yet.
    With frames whose [final_quality] is the unset value -1 and an empty
    buffer on entry: when [LossyEncodeSlopeOptim] runs to its end, every
    frame has a [final_quality] between [minimum_lossy_quality_] and 100. A
    frame stays in the active set as long as it has no quality, so the
    first animation that fits gives a quality to all of them. *)
Theorem SlopeOptim_success_sets_every_quality (s s' : State) :
  WebPData_size (webp_data s) = 0 ->
  (forall f, In f (frames_ s) -> final_quality f = -1) ->
  SlopeOptim s = Done tt s' ->
  forall f', In f' (frames_ s') ->
    minimum_lossy_quality_ <= final_quality f' <= 100.
Proof using Type.
  intros Hempty Hunset Hrun.
  set (in_range := fun x : State =>
         forall f, In f (frames_ x) ->
                   minimum_lossy_quality_ <= final_quality f <= 100).
  set (unset := fun (ol : list nat) (x : State) =>
         WebPData_size (webp_data x) = 0
         /\ forall i f, frames_ x !! i = Some f ->
                        final_quality f = -1 /\ In i ol).
  set (Post := fun x : State =>
         WebPData_size (webp_data x) = 0 \/ in_range x).
  set (Inv := fun (v : Window * list nat) (x : State) =>
         minimum_lossy_quality_ <= min_quality v.1
         /\ max_quality v.1 <= 100
         /\ (unset v.2 x \/ in_range x)).
  assert (Hsame : forall x x', same_but_quality x x' ->
            (forall ol, unset ol x -> unset ol x')
            /\ (in_range x -> in_range x')).
  { intros x x' Hs. split.
    - intros ol [Hsz Hall]. destruct Hs as (HF & Hw & _). split; [congruence|].
      intros i f' Hf'.
      destruct (Forall2_lookup_r _ _ _ _ _ HF Hf') as (f & Hf & Hr).
      rewrite (requantised_final_quality _ _ Hr). now apply Hall.
    - intros Hin f' Hf'. apply list_elem_of_In, list_elem_of_lookup in Hf'.
      destruct Hf' as [i Hi]. destruct Hs as (HF & _ & _).
      destruct (Forall2_lookup_r _ _ _ _ _ HF Hi) as (f & Hf & Hr).
      rewrite (requantised_final_quality _ _ Hr). apply Hin.
      apply list_elem_of_In, list_elem_of_lookup. eauto. }
  assert (H : triple True
                (fun x => WebPData_size (webp_data x) = 0
                          /\ forall f, In f (frames_ x) -> final_quality f = -1)
                SlopeOptim (fun _ x => in_range x) (fun _ _ => True)).
  { unfold LossyEncodeSlopeOptim.
    eapply triple_bind
      with (Q1 := fun _ x => WebPData_size (webp_data x) = 0
                  /\ forall f, In f (frames_ x) -> final_quality f = -1).
    { intros x [Hsz Hall]. unfold sort_frames, bind, get, set_frames. simpl.
      split; [exact Hsz|]. intros f Hf. apply Hall.
      eapply Permutation_in; [apply sort_perm|exact Hf]. }
    intros u. eapply triple_bind
      with (Q1 := fun _ x => WebPData_size (webp_data x) = 0
                  /\ forall f, In f (frames_ x) -> final_quality f = -1).
    { intros x [Hsz Hall].
      pose proof (FindMedianSlope_same_but_quality x x
                    (same_but_quality_refl x)) as Hq.
      destruct (FindMedianSlope EncodeStats x) as [a x'|st x'| |];
        try exact Logic.I.
      destruct Hq as (HF & Hw & _). split; [congruence|].
      intros f' Hf'. apply list_elem_of_In, list_elem_of_lookup in Hf'.
      destruct Hf' as [i Hi].
      destruct (Forall2_lookup_r _ _ _ _ _ HF Hi) as (f & Hf & Hr).
      rewrite (requantised_final_quality _ _ Hr). apply Hall.
      apply list_elem_of_In, list_elem_of_lookup. eauto. }
    intros limit_slope. cbv zeta.
    eapply triple_bind
      with (Q1 := fun ol x => unset ol x).
    { intros x [Hsz Hall]. unfold frame_indices. split; [exact Hsz|].
      intros i f Hf. split.
      - apply Hall. apply list_elem_of_In, list_elem_of_lookup. eauto.
      - apply in_seq. apply lookup_lt_Some in Hf. lia. }
    intros optim_list.
    eapply triple_bind with (Q1 := fun _ x => Post x).
    { eapply triple_weaken
        with (P' := Inv ({| min_quality := minimum_lossy_quality_;
                            max_quality := 100 |}, optim_list))
             (Q' := fun _ x => Post x) (R' := fun _ _ => True); auto.
      2:{ intros x Hx. unfold Inv. cbn [fst snd min_quality max_quality].
          split; [lia|]. split; [lia|]. now left. }
      apply (triple_while True Inv (fun _ => O)).
      - intros v x (_ & _ & [[Hsz _]|Hin]) _; [now left|now right].
      - intros; now left.
      - intros [w ol] Hc. unfold slope_cond in Hc. apply andb_true_iff in Hc.
        destruct Hc as [Hopen _]. cbn [fst] in Hopen.
        unfold window_open in Hopen. apply Z.leb_le in Hopen.
        pose proof (mid_quality_bounds w Hopen) as Hmid.
        intros x (Hlo & Hhi & Hcase). cbn [fst snd] in Hlo, Hhi, Hcase.
        unfold slope_round, bind at 1.
        destruct (keep_active EncodeStats w limit_slope ol x)
          as [new x1|st x1| |] eqn:Hkeep; try exact Logic.I.
        destruct (keep_active_spec _ _ _ _ _ _ Hkeep) as (Hx1 & _ & _ & Hkept).
        destruct (Hsame x x1 Hx1) as [Hun Hin].
        assert (Hcase1 : unset ol x1 \/ in_range x1).
        { destruct Hcase as [Hu|Hi]; [left; now apply Hun|right; now apply Hin]. }
        assert (Hall_new : unset ol x1 -> unset new x1).
        { intros [Hsz Hall]. split; [exact Hsz|]. intros i f1 Hf1.
          destruct (Hall i f1 Hf1) as [Hfq Hi]. split; [exact Hfq|].
          destruct (Hkept i Hi) as (f & sl & Hf & _ & Hiff & _).
          apply Hiff. left.
          destruct Hx1 as (HF & _ & _).
          pose proof (Forall2_lookup_lr _ _ _ _ _ _ HF Hf Hf1) as Hr.
          rewrite <- (requantised_final_quality _ _ Hr). exact Hfq. }
        destruct (is_nil new) eqn:Hnil.
        { destruct Hcase1 as [[Hsz _]|Hi]; [now left|now right]. }
        unfold bind at 1. rewrite GenerateAnimationNoBudget_eval.
        destruct (Assemble _) as [d|e]; [|exact Logic.I].
        destruct (Z.leb_spec (WebPData_size d) byte_budget_).
        + unfold bind at 1. rewrite for_each_upd_eval.
          unfold bind, set_webp_data. simpl.
          split; [|now left]. unfold Inv. cbn [fst snd raise_min min_quality
                                                max_quality].
          split; [lia|]. split; [exact Hhi|]. right.
          intros f' Hf'. simpl in Hf'.
          apply list_elem_of_In, list_elem_of_lookup in Hf'.
          destruct Hf' as [i Hi].
          destruct (foldl_alter_lookup _ _ _ _ _ Hi) as (f & Hf & Hc);
            [reflexivity|].
          destruct Hc as [[_ ->]|[Hnin ->]]; [simpl; lia|].
          destruct Hcase1 as [Hu|Hin1].
          * destruct (Hall_new Hu) as [_ Hall]. destruct (Hall i f Hf).
            contradiction.
          * apply Hin1. apply list_elem_of_In, list_elem_of_lookup. eauto.
        + split; [|now left]. unfold Inv. cbn [fst snd lower_max min_quality
                                                max_quality].
          split; [exact Hlo|]. split; [lia|].
          destruct Hcase1 as [Hu|Hin1]; [left; now apply Hall_new|now right].
      - now left. }
    intros v. eapply triple_bind with (Q1 := fun _ x => Post x).
    { intros x Hx. exact Hx. }
    intros idxs. eapply triple_bind with (Q1 := fun _ x => Post x).
    { apply triple_for_each. intros i _ x Hx.
      pose proof (record_final_stats_outcome i x) as Hq.
      destruct (record_final_stats EncodeStats i x) as [[] x'|st x'| |];
        try exact Logic.I.
      destruct Hq as [Hw HF]. destruct Hx as [Hsz|Hin]; [left; congruence|].
      right. intros f' Hf'. apply list_elem_of_In, list_elem_of_lookup in Hf'.
      destruct Hf' as [j Hj].
      destruct (Forall2_lookup_r _ _ _ _ _ HF Hj) as (f & Hf & Hr).
      rewrite Hr. apply Hin. apply list_elem_of_In, list_elem_of_lookup. eauto. }
    intros u' x Hx. unfold return_by_size, bind, get.
    destruct (Z.ltb_spec 0 (WebPData_size (webp_data x))); simpl; auto.
    destruct Hx as [Hsz|Hin]; [lia|exact Hin]. }
  specialize (H s (conj Hempty Hunset)). rewrite Hrun in H. exact H.
Qed.

(** ** LossyEncodeNoSlopeOptim: what the scan leaves *)

Lemma untouched_refl f : untouched f f.
Proof. repeat split. Qed.

Lemma total_encoded_insert fs :
  forall i f f',
    fs !! i = Some f ->
    total_encoded (<[i := f']> fs)
    = total_encoded fs + encoded_size f' - encoded_size f.
Proof.
  induction fs as [|g fs IH]; intros [|i] f f' Hf; try discriminate.
  - injection Hf as ->. simpl. lia.
  - simpl in Hf. simpl. rewrite (IH i f f' Hf). lia.
Qed.

Lemma total_encoded_change fs fs' i f f' :
  fs !! i = Some f -> fs' !! i = Some f' ->
  (forall j, j <> i -> fs' !! j = fs !! j) ->
  total_encoded fs' = total_encoded fs + encoded_size f' - encoded_size f.
Proof.
  intros Hf Hf' Hout.
  assert (E : fs' = <[i := f']> fs).
  { apply list_eq. intros j. destruct (decide (i = j)) as [<-|Hne].
    - rewrite Hf', list_lookup_insert_eq; [reflexivity|].
      now apply lookup_lt_Some in Hf.
    - rewrite list_lookup_insert_ne by exact Hne. apply Hout. congruence. }
  rewrite E. now apply total_encoded_insert.
Qed.

Lemma refine_frame_rescanned i rem a s a' s' f :
  refine_frame byte_budget_ EncodeStats i rem a s = Done a' s' ->
  frames_ s !! i = Some f ->
  exists f',
    frames_ s' !! i = Some f' /\ rescanned f f'
    /\ a' = a + encoded_size f' - encoded_size f
    /\ (forall j, j <> i -> frames_ s' !! j = frames_ s !! j).
Proof.
  intros Hrun Hf. unfold refine_frame, bind at 1, get_frame at 1 in Hrun.
  rewrite Hf in Hrun. unfold bind at 1, upd_frame at 1 in Hrun.
  set (w0 := refine_window f) in *.
  set (s1 := {| frames_ := alter (set_lossless 0) i (frames_ s);
                webp_data := webp_data s; history := history s |}) in *.
  set (Inv := fun (v : Window * Z) (x : State) =>
    min_quality w0 <= min_quality v.1 /\ max_quality v.1 <= max_quality w0
    /\ (forall j, j <> i -> frames_ x !! j = frames_ s !! j)
    /\ exists g, frames_ x !! i = Some g
                 /\ v.2 = a + encoded_size g - encoded_size f
                 /\ (untouched f g
                     \/ (near_lossless g = false
                         /\ min_quality w0 <= final_quality g
                            <= max_quality w0))).
  assert (Hloop : triple True (Inv (w0, a))
            (while (window_fuel w0) (fun v => window_open v.1)
               (refine_probe byte_budget_ EncodeStats i rem) (w0, a))
            (fun v x => Inv v x) (fun _ _ => True)).
  { apply (triple_while True Inv (fun _ => O)); auto.
    intros [w b] Hopen x (Hlo & Hhi & Hout & g & Hg & Hb & Hq).
    cbn [fst snd] in *.
    unfold window_open in Hopen. apply Z.leb_le in Hopen.
    pose proof (mid_quality_bounds w Hopen) as Hmid.
    destruct (stats_at EncodeStats g (mid_quality w)) as [[ns np]|e] eqn:Hst.
    2:{ unfold refine_probe, bind at 1, upd_frame at 1. unfold bind at 1.
        rewrite (GetPictureStats_after_set x i g) by exact Hg. rewrite Hst.
        exact Logic.I. }
    rewrite (refine_probe_eval x i g rem w b ns np Hg Hst).
    split; [|now left]. unfold Inv, probe_result. rewrite improves_set_quality.
    assert (Hlen : (i < length (frames_ x))%nat)
      by now apply lookup_lt_Some in Hg.
    destruct (improves ns np g) eqn:Himp;
      [destruct (affordable _ _ _ _ _)|];
      cbn [fst snd raise_min lower_max min_quality max_quality frames_];
      (split; [lia|]); (split; [lia|]);
      (split; [intros j Hj; rewrite list_lookup_insert_ne by congruence;
               now apply Hout|]);
      eexists; (split; [now apply list_lookup_insert_eq|]);
      cbn [accept set_near_lossless set_final_quality set_stats set_quality
           final_psnr final_quality encoded_size near_lossless];
      (split; [lia|]); try exact Hq.
    right. split; [reflexivity|lia]. }
  assert (H1 : Inv (w0, a) s1).
  { unfold Inv. cbn [fst snd]. split; [lia|]. split; [lia|]. split.
    - intros j Hj. unfold s1. simpl. now rewrite list_lookup_alter_ne by congruence.
    - exists (set_lossless 0 f). unfold s1. simpl.
      rewrite list_lookup_alter_eq, Hf. simpl.
      split; [reflexivity|]. split; [simpl; lia|]. left. repeat split. }
  specialize (Hloop s1 H1). unfold bind at 1 in Hrun.
  destruct (while _ _ _ _ s1) as [v x| | |]; try discriminate.
  simpl in Hrun. injection Hrun as <- <-.
  destruct Hloop as (_ & _ & Hout & g & Hg & Hb & Hq).
  exists g. split; [exact Hg|]. split; [exact Hq|]. split; [exact Hb|exact Hout].
Qed.

Lemma refine_scan_rescanned idxs :
  NoDup idxs ->
  forall rem a s a' s',
    refine_scan byte_budget_ EncodeStats idxs rem a s = Done a' s' ->
    a' = a + total_encoded (frames_ s') - total_encoded (frames_ s)
    /\ forall i f, frames_ s !! i = Some f ->
         exists f', frames_ s' !! i = Some f'
                    /\ (In i idxs -> rescanned f f')
                    /\ (~ In i idxs -> f' = f).
Proof.
  induction 1 as [|i0 rest Hnotin Hnd IH]; intros rem a s a' s' Hrun.
  - simpl in Hrun. injection Hrun as <- <-. split; [lia|].
    intros i f Hf. exists f.
    split; [exact Hf|]. split; [intros []|reflexivity].
  - simpl in Hrun. unfold bind at 1 in Hrun.
    destruct (frames_ s !! i0) as [f0|] eqn:Hf0.
    2:{ rewrite refine_frame_out_of_range in Hrun by exact Hf0. discriminate. }
    destruct (refine_frame byte_budget_ EncodeStats i0 rem a s)
      as [a1 s1| | |] eqn:Hfr; try discriminate.
    destruct (refine_frame_rescanned _ _ _ _ _ _ _ Hfr Hf0)
      as (f0' & Hf0' & Href & Ha1 & Hout).
    rewrite list_elem_of_In in Hnotin.
    destruct (IH _ _ _ _ _ Hrun) as [Ha' Hall].
    split.
    + rewrite Ha', Ha1.
      rewrite (total_encoded_change (frames_ s) (frames_ s1) i0 f0 f0'
                 Hf0 Hf0' Hout). lia.
    + intros i f Hf. destruct (Nat.eq_dec i i0) as [->|Hne].
      * rewrite Hf0 in Hf. injection Hf as ->.
        destruct (Hall i0 f0' Hf0') as (f' & Hf' & _ & Hsame).
        exists f'. split; [exact Hf'|]. rewrite (Hsame Hnotin).
        split; [intros _; exact Href|]. intros Hn. exfalso. apply Hn. now left.
      * rewrite <- (Hout i Hne) in Hf.
        destruct (Hall i f Hf) as (f' & Hf' & Hin & Hsame).
        exists f'. split; [exact Hf'|]. split.
        -- intros [E|Hi]; [congruence|auto].
        -- intros Hn. apply Hsame. intros Hi. apply Hn. now right.
Qed.

(** X8. The running animation size of the scan. When the scan of
    [LossyEncodeNoSlopeOptim] over all frames runs to its end, the value
    of [anim_size] it ends with is the size it started from, changed by
    exactly the change of the sum of the [encoded_size] of the frames:
    every acceptance books the size difference of the frame it rewrites,
    and nothing else does. *)
Theorem refine_scan_books_encoded_sizes (s s' : State) (anim_size : Z) :
  refine_scan_of byte_budget_ EncodeStats GetAnimationSize s
  = Done anim_size s' ->
  anim_size - GetAnimationSize (webp_data s)
  = total_encoded (frames_ s') - total_encoded (frames_ s).
Proof using Type.
  unfold refine_scan_of. intros Hrun.
  destruct (refine_scan_rescanned _ (NoDup_seq 0 _) _ _ _ _ _ Hrun) as [H _].
  lia.
Qed.

(** The pass from the scan on, when it ends without an error: the frames
    are those of the scan with their configuration restored. *)
Lemma NoSlopeOptim_frames s :
  GetAnimationSize (webp_data s) <= byte_budget_ ->
  match NoSlopeOptim s with
  | Done _ s' | Return kOk s' =>
      exists a1 s1,
        refine_scan_of byte_budget_ EncodeStats GetAnimationSize s = Done a1 s1
        /\ frames_ s' = map restore_config (frames_ s1)
  | _ => True
  end.
Proof.
  intros Hfit. unfold LossyEncodeNoSlopeOptim. unfold bind at 1, get at 1.
  destruct (Z.gtb_spec (GetAnimationSize (webp_data s)) byte_budget_); [lia|].
  unfold bind at 1, frame_indices at 1. unfold bind at 1.
  pose proof (fails_only_refine_scan (seq 0 (length (frames_ s)))
                (Z.of_nat (length (frames_ s)))
                (GetAnimationSize (webp_data s)) s Logic.I) as Hfail.
  unfold refine_scan_of.
  destruct (refine_scan _ _ _ _ _ s) as [a1 s1|st x| |] eqn:Hscan;
    try exact Logic.I.
  2:{ destruct st; try exact Logic.I. contradiction. }
  clear Hfail.
  destruct (refine_scan_frame _ _ _ _ _ _ Hscan) as (_ & _ & Hlen).
  unfold bind at 1. rewrite <- Hlen, for_each_upd_all.
  unfold bind at 1. rewrite GenerateAnimationNoBudget_eval. simpl frames_.
  destruct (Assemble _) as [d|e].
  2:{ unfold return_. destruct e; exact Logic.I. }
  destruct (WebPData_size d <=? byte_budget_).
  - unfold bind at 1, set_webp_data, return_by_size, bind, get. simpl.
    destruct (0 <? WebPData_size d); unfold ret, return_; simpl; eauto.
  - unfold return_. eauto.
Qed.

(** X9. The configurations after the refinement pass. When
    [LossyEncodeNoSlopeOptim] is called with an animation within the budget
    and ends without an error, whether it stores the new animation or keeps
    the old one, every frame has its configuration at its [final_quality],
    lossless exactly when the frame is still near-lossless (lines
    243-246). *)
Theorem NoSlopeOptim_restores_configurations (s : State) :
  GetAnimationSize (webp_data s) <= byte_budget_ ->
  match NoSlopeOptim s with
  | Done _ s' | Return kOk s' => forall f', In f' (frames_ s') -> restored f'
  | _ => True
  end.
Proof using Type.
  intros Hfit. pose proof (NoSlopeOptim_frames s Hfit) as H.
  destruct (NoSlopeOptim s) as [u s'|[] s'| |]; try exact Logic.I;
    destruct H as (a1 & s1 & _ & ->); intros f' Hf';
    apply in_map_iff in Hf'; destruct Hf' as (g & <- & _); split; reflexivity.
Qed.

(** X10. The frames after the refinement pass. When
    [LossyEncodeNoSlopeOptim] ends without an error, every frame either has
    the [final_quality], [final_psnr], [encoded_size] and near-lossless flag
    it had, or is encoded lossy (its near-lossless flag is cleared) at a
    [final_quality] of its search window: from its former [final_quality],
    or from 70 when its configuration was lossless, up to 30 more and at
    most 100. *)
Theorem NoSlopeOptim_rescans_in_window (s : State) :
  match NoSlopeOptim s with
  | Done _ s' | Return kOk s' => Forall2 rescanned (frames_ s) (frames_ s')
  | _ => True
  end.
Proof using Type.
  destruct (Z.le_gt_cases (GetAnimationSize (webp_data s)) byte_budget_)
    as [Hfit|Hover].
  - pose proof (NoSlopeOptim_frames s Hfit) as H.
    assert (HF : forall a1 s1,
              refine_scan_of byte_budget_ EncodeStats GetAnimationSize s
              = Done a1 s1 ->
              Forall2 rescanned (frames_ s) (map restore_config (frames_ s1))).
    { intros a1 s1 Hscan. unfold refine_scan_of in Hscan.
      destruct (refine_scan_frame _ _ _ _ _ _ Hscan) as (_ & _ & Hlen).
      destruct (refine_scan_rescanned _ (NoDup_seq 0 _) _ _ _ _ _ Hscan)
        as [_ Hall].
      apply Forall2_same_length_lookup. split; [now rewrite length_map|].
      intros i f g Hf Hg. rewrite list_lookup_fmap in Hg.
      destruct (Hall i f Hf) as (f' & Hf' & Hin & _).
      rewrite Hf' in Hg. injection Hg as <-.
      assert (Hr : rescanned f f').
      { apply Hin. apply in_seq. apply lookup_lt_Some in Hf. lia. }
      exact Hr. }
    destruct (NoSlopeOptim s) as [u s'|[] s'| |]; try exact Logic.I;
      destruct H as (a1 & s1 & Hscan & ->); exact (HF a1 s1 Hscan).
  - unfold LossyEncodeNoSlopeOptim. unfold bind at 1, get at 1.
    destruct (Z.gtb_spec (GetAnimationSize (webp_data s)) byte_budget_); [|lia].
    unfold return_. apply pointwise_refl. intros f. left. apply untouched_refl.
Qed.

(** ** ExtraLossyEncode: the frames it works on *)

Section TopUpIndices.
Variable fs0 : list FrameData.

Local Abbreviation J :=
  (fun x : State => Forall2 topup_keeps fs0 (frames_ x)).

Lemma topup_keeps_upd j (g : FrameData -> FrameData) :
  lossy_index fs0 j ->
  (forall f, near_lossless (g f) = near_lossless f
             /\ (final_quality f <= 100 -> final_quality (g f) <= 100)) ->
  preserves J (upd_frame j g).
Proof.
  intros (f0 & Hf0 & Hnl) Hg x Hx. simpl.
  apply Forall2_alter_r; [exact Hx|].
  intros a y Ha _ (Hflag & Hsame & Hq). rewrite Hf0 in Ha. injection Ha as <-.
  destruct (Hg y) as [Hg1 Hg2]. split; [congruence|].
  split; [congruence|]. intros H100. apply Hg2, Hq, H100.
Qed.

Lemma topup_keeps_lossy j f x :
  J x -> frames_ x !! j = Some f -> near_lossless f = false ->
  lossy_index fs0 j.
Proof.
  intros Hx Hf Hnl.
  destruct (Forall2_lookup_r _ _ _ _ _ Hx Hf) as (f0 & Hf0 & Hflag & _).
  exists f0. split; [exact Hf0|congruence].
Qed.

Lemma topup_keeps_set_quality j q :
  lossy_index fs0 j -> preserves J (upd_frame j (set_quality q)).
Proof. intros Hj. apply topup_keeps_upd; [exact Hj|]. intros f. auto. Qed.

Lemma topup_keeps_ComputeSlope j lo hi :
  lossy_index fs0 j -> preserves J (ComputeSlope EncodeStats j lo hi).
Proof.
  intros Hj. unfold ComputeSlope.
  apply pres_bind; [now apply topup_keeps_set_quality|]. intros u.
  apply pres_bind; [apply pres_GetPictureStats|]. intros [ls lp].
  apply pres_bind; [now apply topup_keeps_set_quality|]. intros u'.
  apply pres_bind; [apply pres_GetPictureStats|]. intros [hs hp].
  destruct (hs =? ls); apply pres_ret.
Qed.

Lemma topup_keeps_slopes_to_100 idxs :
  triple True J (slopes_to_100 EncodeStats idxs)
    (fun order x => J x /\ forall e, In e order -> lossy_index fs0 e.2)
    (fun _ x => J x).
Proof.
  induction idxs as [|i idxs IH]; simpl.
  - apply triple_ret. intros x Hx. split; [exact Hx|intros e []].
  - eapply triple_bind
      with (Q1 := fun f x => J x /\ frames_ x !! i = Some f).
    { apply triple_get_frame; auto. }
    intros f. destruct (near_lossless f) eqn:Hnl.
    { eapply triple_weaken; [apply IH|intros x [Hx _]; exact Hx|auto|auto]. }
    intros x [Hx Hf].
    pose proof (topup_keeps_lossy i f x Hx Hf Hnl) as Hi.
    assert (T : triple True J
                  (let* slope :=
                     ComputeSlope EncodeStats i (final_quality f) 100 in
                   let* order := slopes_to_100 EncodeStats idxs in
                   ret ((slope, i) :: order))
                  (fun order y =>
                     J y /\ forall e, In e order -> lossy_index fs0 e.2)
                  (fun _ y => J y)).
    { eapply triple_bind; [now apply topup_keeps_ComputeSlope|].
      intros slope. eapply triple_bind; [apply IH|]. intros order.
      apply triple_ret. intros y [Hy Hall]. split; [exact Hy|].
      intros e [<-|He]; [exact Hi|auto]. }
    exact (T x Hx).
Qed.

Lemma topup_keeps_probe order w final_q :
  (forall e, In e order -> lossy_index fs0 e.2) ->
  preserves J (topup_probe byte_budget_ Assemble order (w, final_q)).
Proof.
  intros Hall. unfold topup_probe.
  apply pres_bind.
  { apply triple_for_each. intros e He.
    apply pres_bind; [apply triple_get_frame; auto|]. intros f.
    apply topup_keeps_set_quality. now apply Hall. }
  intros u. apply pres_bind; [apply pres_GenerateAnimationNoBudget|].
  intros d. destruct (WebPData_size d <=? byte_budget_); [|apply pres_ret].
  apply pres_bind; [|intros u'; apply pres_ret].
  intros x Hx. exact Hx.
Qed.

Lemma topup_keeps_commit order q :
  (forall e, In e order -> lossy_index fs0 e.2) ->
  q <= 100 ->
  preserves J (for_each order (commit_topup EncodeStats q)).
Proof.
  intros Hall Hq. apply triple_for_each. intros e He. unfold commit_topup.
  apply pres_bind; [apply triple_get_frame; auto|]. intros f.
  destruct (final_quality f <? q); [|apply pres_ret].
  apply pres_bind.
  { apply topup_keeps_upd; [now apply Hall|]. intros g. split; [reflexivity|].
    intros _. exact Hq. }
  intros u. apply pres_bind; [apply pres_GetPictureStats|]. intros [sz ps].
  apply topup_keeps_upd; [now apply Hall|]. intros g. auto.
Qed.

Lemma topup_keeps_round order :
  (forall e, In e order -> lossy_index fs0 e.2) ->
  triple True J (topup_round byte_budget_ EncodeStats Assemble order)
    (fun r x =>
       J x /\ match r with
              | Continue order' | Break order' =>
                  forall e, In e order' -> lossy_index fs0 e.2
              end)
    (fun _ x => J x).
Proof.
  intros Hall. unfold topup_round.
  eapply triple_bind; [apply pres_get|]. intros x0.
  destruct (lowest_next_quality _ _) as [lo|]; [|intros x _; exact Logic.I].
  cbv zeta.
  eapply triple_bind
    with (Q1 := fun (v : Window * Z) x => J x /\ v.2 <= 100).
  { eapply triple_weaken
      with (P' := fun x => J x
                  /\ max_quality
                       ({| min_quality := lo;
                           max_quality := Z.min (lo + 30) 100 |}, -1).1 <= 100
                  /\ ({| min_quality := lo;
                         max_quality := Z.min (lo + 30) 100 |}, -1).2 <= 100)
           (Q' := fun (v : Window * Z) x => J x /\ v.2 <= 100)
           (R' := fun _ x => J x); auto.
    2:{ intros x Hx. cbn [fst snd max_quality]. split; [exact Hx|]. lia. }
    apply (triple_while True
             (fun (v : Window * Z) x =>
                J x /\ max_quality v.1 <= 100 /\ v.2 <= 100)
             (fun _ => O)).
    - intros v x (Hx & _ & Hv) _. auto.
    - intros; now left.
    - intros [w fq] Hc. cbn [fst] in Hc. unfold window_open in Hc.
      apply Z.leb_le in Hc. pose proof (mid_quality_bounds w Hc) as Hmid.
      intros x (Hx & Hmax & Hfq). cbn [fst snd] in Hmax, Hfq.
      pose proof (topup_keeps_probe order w fq Hall x Hx) as Hp.
      assert (Hres : forall r x',
                topup_probe byte_budget_ Assemble order (w, fq) x = Done r x' ->
                match r with
                | Continue v' => max_quality v'.1 <= 100 /\ v'.2 <= 100
                | Break _ => False
                end).
      { intros r x' Hrun. unfold topup_probe in Hrun.
        unfold bind at 1 in Hrun.
        destruct (for_each order _ x) as [[] x1| | |]; try discriminate.
        unfold bind at 1 in Hrun.
        destruct (GenerateAnimationNoBudget Assemble x1) as [d x2| | |];
          try discriminate.
        destruct (WebPData_size d <=? byte_budget_).
        - unfold bind, set_webp_data in Hrun. simpl in Hrun.
          injection Hrun as <- _. cbn [fst snd raise_min max_quality]. lia.
        - injection Hrun as <- _. cbn [fst snd lower_max max_quality]. lia. }
      destruct (topup_probe _ _ _ _ x) as [r x'|st x'| |]; auto.
      specialize (Hres r x' eq_refl). destruct r; [|contradiction].
      split; [|now left]. split; [exact Hp|exact Hres].
    - now left. }
  intros v. destruct (v.2 =? -1).
  { apply triple_ret. intros x [Hx _]. auto. }
  intros x [Hx Hv].
  assert (T : triple True J
                (run for_each order (commit_topup EncodeStats v.2) then
                 ret (Continue (tail order)))
                (fun r y =>
                   J y /\ match r with
                          | Continue order' | Break order' =>
                              forall e, In e order' -> lossy_index fs0 e.2
                          end)
                (fun _ y => J y)).
  { eapply triple_bind; [now apply topup_keeps_commit|]. intros u.
    apply triple_ret. intros y Hy. split; [exact Hy|].
    intros e He. apply Hall. destruct order; [destruct He|now right]. }
  exact (T x Hx).
Qed.

Lemma topup_keeps_ExtraLossy : preserves J ExtraLossy.
Proof.
  unfold ExtraLossyEncode.
  apply pres_bind; [apply pres_frame_indices|]. intros idxs.
  eapply triple_bind; [apply topup_keeps_slopes_to_100|]. intros unsorted.
  cbv zeta.
  eapply triple_bind with (Q1 := fun _ x => J x);
    [|intros v; apply pres_return_by_size].
  set (order := sort _ unsorted).
  eapply triple_weaken
    with (P' := fun x => J x /\ forall e, In e order -> lossy_index fs0 e.2)
         (Q' := fun _ x => J x) (R' := fun _ x => J x); auto.
  2:{ intros x [Hx Hall]. split; [exact Hx|]. intros e He. apply Hall.
      eapply Permutation_in; [apply sort_perm|exact He]. }
  apply (triple_while True
           (fun o x => J x /\ forall e, In e o -> lossy_index fs0 e.2)
           (fun _ => O)).
  - intros o x [Hx _] _. exact Hx.
  - intros; now left.
  - intros o _ x [Hx Hall].
    pose proof (topup_keeps_round o Hall x Hx) as H.
    destruct (topup_round _ _ _ _ x) as [r x'|st x'| |]; auto.
    destruct H as [Hx' Hr]. destruct r; [|exact Hx'].
    split; [|now left]. split; assumption.
  - now left.
Qed.
End TopUpIndices.

(** X11. The frames of the top-up pass. However [ExtraLossyEncode] ends, a
    frame that was near-lossless when the pass was called is exactly as it
    was, configuration included: the pass computes slopes for, probes and
    commits only the frames that are not near-lossless. No near-lossless
    flag is changed, and a [final_quality] of at most 100 stays at most
    100. *)
Theorem ExtraLossy_leaves_near_lossless_frames (s : State) :
  match ExtraLossy s with
  | Done _ s' | Return _ s' => Forall2 topup_keeps (frames_ s) (frames_ s')
  | _ => True
  end.
Proof using Type.
  apply (topup_keeps_ExtraLossy (frames_ s)).
  apply pointwise_refl. intros f. repeat split; auto.
Qed.

Lemma slopes_to_100_all_near_lossless idxs s :
  (forall i, In i idxs ->
     exists f, frames_ s !! i = Some f /\ near_lossless f = true) ->
  slopes_to_100 EncodeStats idxs s = Done [] s.
Proof.
  induction idxs as [|i idxs IH]; intros Hall; [reflexivity|].
  simpl. unfold bind at 1, get_frame at 1.
  destruct (Hall i (or_introl eq_refl)) as (f & -> & ->).
  apply IH. intros j Hj. apply Hall. now right.
Qed.

(** X12. Nothing to top up. When every frame is near-lossless, and so when
    there is no frame, [ExtraLossyEncode] asks nothing of the codec and of
    the assembler and changes nothing: it returns [kOk] when the buffer
    holds an animation and [kByteBudgetError] when the buffer is empty. *)
Theorem ExtraLossy_without_lossy_frame (s : State) :
  (forall f, In f (frames_ s) -> near_lossless f = true) ->
  ExtraLossy s
  = if 0 <? WebPData_size (webp_data s) then Done tt s
    else Return kByteBudgetError s.
Proof using Type.
  intros Hall. unfold ExtraLossyEncode. unfold bind at 1, frame_indices at 1.
  unfold bind at 1. rewrite slopes_to_100_all_near_lossless.
  - simpl. unfold bind at 1. unfold ret at 1. unfold return_by_size, bind, get.
    destruct (0 <? WebPData_size (webp_data s)); reflexivity.
  - intros i Hi. apply in_seq in Hi.
    destruct (lookup_lt_is_Some_2 (frames_ s) i) as [f Hf]; [lia|].
    exists f. split; [exact Hf|]. apply Hall.
    apply list_elem_of_In, list_elem_of_lookup. eauto.
Qed.

(** ** FindMedianSlope: a slope that is never assigned *)

Lemma within_1dB_of_none psnr_100 new_psnr :
  F32.is_nan psnr_100 = true \/ psnr_100 = S754_infinity false ->
  within_1dB psnr_100 new_psnr = false.
Proof.
  intros [H| ->].
  - destruct psnr_100; try discriminate. destruct new_psnr; reflexivity.
  - destruct new_psnr as [[]|[]| |[] m e]; reflexivity.
Qed.

(** X22. A slope that is never assigned. The threshold search of
    [FindMedianSlope] assigns [pic_final_slope] only in a round whose
    quality passes the 1 dB test. When the codec answers every quality from
    0 to 100 and the PSNR it gives at quality 100 is a NaN or positive
    infinity, no quality passes the test, quality 100 included: the search
    ends with [pic_final_slope] never assigned, and its value is pushed
    to the slopes, which C++ leaves undefined. *)
Theorem threshold_search_never_assigns (s : State) (i : nat) (f : FrameData)
    (sz : Z -> Z) (ps : Z -> float) :
  frames_ s !! i = Some f ->
  answers EncodeStats f sz ps ->
  F32.is_nan (ps 100) = true \/ ps 100 = S754_infinity false ->
  threshold_search EncodeStats i s = Undefined.
Proof using Type.
  intros Hf Hans H100.
  set (Inv := fun (v : Window * option float) (x : State) =>
    same_but_quality s x
    /\ 0 <= min_quality v.1 /\ max_quality v.1 = 100 /\ v.2 = None).
  set (s1 := {| frames_ := alter (set_quality 100) i (frames_ s);
                webp_data := webp_data s; history := history s |}).
  set (w0 := {| min_quality := 0; max_quality := 100 |}).
  assert (Hloop : triple False (Inv (w0, None))
            (while (window_fuel w0) (fun v => window_open v.1)
               (threshold_probe EncodeStats i (sz 100) (ps 100)) (w0, None))
            (fun v _ => v.2 = None) (fun _ _ => False)).
  { apply (triple_while False Inv (fun v => window_fuel v.1)).
    - intros [w sl] x (_ & _ & _ & Hsl) _. exact Hsl.
    - intros [w sl] x _ Hc. right. now apply window_fuel_pos.
    - intros [w sl] Hc x (Hsame & Hmin & Hmax & Hsl).
      cbn [fst snd] in *. unfold window_open in Hc. apply Z.leb_le in Hc.
      pose proof (mid_quality_bounds w Hc) as Hmid.
      destruct (same_but_quality_lookup_l _ _ _ _ Hsame Hf) as (f' & Hf' & Hr).
      assert (Hst : stats_at EncodeStats f' (mid_quality w)
                    = ExtOk (sz (mid_quality w), ps (mid_quality w))).
      { rewrite (stats_at_requantised f f') by exact Hr. apply Hans. lia. }
      rewrite (threshold_probe_eval x i f' _ _ w sl _ _ Hf' Hst).
      rewrite within_1dB_of_none by exact H100.
      split; [|right; now apply window_fuel_raise_min].
      unfold Inv. cbn [fst snd raise_min min_quality max_quality].
      split; [|split; [lia|split; [exact Hmax|exact Hsl]]].
      eapply same_but_quality_trans; [exact Hsame|].
      apply same_but_quality_alter.
    - right. reflexivity. }
  assert (Hs1 : Inv (w0, None) s1).
  { unfold Inv. simpl. split; [apply same_but_quality_alter|].
    repeat split; lia. }
  specialize (Hloop s1 Hs1).
  unfold threshold_search, bind at 1, upd_frame at 1. fold s1.
  unfold bind at 1. unfold s1 at 1.
  rewrite (GetPictureStats_after_set s i f) by exact Hf.
  rewrite (Hans 100) by lia. fold s1. unfold bind at 1. fold w0.
  destruct (while _ _ _ _ s1) as [[w sl] s'|st s'| |]; try contradiction.
  simpl in Hloop. subst sl. reflexivity.
Qed.

(** ** The scan of LossyEncodeNoSlopeOptim, round by round *)

Lemma improves_improved ns np g :
  improves ns np g = true <-> improved ns np g.
Proof.
  unfold improves, improved. rewrite orb_true_iff, andb_true_iff, Z.leb_le.
  reflexivity.
Qed.

(** The [while] of lines 213-237, run to its end. *)
Lemma refine_while_searched i rem start :
  forall fuel w a x v x_end,
    (i < length (frames_ x))%nat ->
    start <= min_quality w -> max_quality w <= Z.min (start + 30) 100 ->
    while fuel (fun v => window_open v.1)
      (refine_probe byte_budget_ EncodeStats i rem) (w, a) x = Done v x_end ->
    searched byte_budget_ EncodeStats i rem start w a x v.2 x_end.
Proof.
  induction fuel as [|n IH]; intros w a x v x_end Hlen Hlo Hhi Hrun;
    cbn [while fst] in Hrun; unfold window_open in Hrun;
    destruct (Z.leb_spec (min_quality w) (max_quality w)) as [Hopen|Hclosed];
    try discriminate;
    try (injection Hrun as <- <-; now apply searched_end).
  pose proof (mid_quality_bounds w Hopen) as Hmid.
  destruct (lookup_lt_is_Some_2 (frames_ x) i Hlen) as [g Hg].
  unfold bind at 1 in Hrun.
  destruct (stats_at EncodeStats g (mid_quality w)) as [[ns np]|e] eqn:Hst.
  2:{ unfold refine_probe, bind at 1, upd_frame at 1 in Hrun.
      unfold bind at 1 in Hrun.
      rewrite (GetPictureStats_after_set x i g) in Hrun by exact Hg.
      rewrite Hst in Hrun. discriminate. }
  rewrite (refine_probe_eval x i g rem w a ns np Hg Hst) in Hrun.
  cbv zeta in Hrun. unfold probe_result in Hrun.
  rewrite improves_set_quality in Hrun.
  unfold affordable, extra_budget in Hrun.
  cbn [set_quality encoded_size] in Hrun.
  pose proof (improves_improved ns np g) as Himp.
  destruct (improves ns np g);
    [destruct (F32.leb (F32.of_int (ns - encoded_size g))
                 (F32.of_int ((byte_budget_ - a) ÷ rem))) eqn:Hshare|];
    cbn [fst snd] in Hrun;
    (eapply searched_round; [exact Hopen|lia| |
       apply (IH _ _ _ _ _) in Hrun;
       [exact Hrun
       |cbn [frames_]; now rewrite length_insert
       |cbn [raise_min lower_max min_quality max_quality]; lia
       |cbn [raise_min lower_max min_quality max_quality]; lia]]);
    exists g, ns, np; eexists; (split; [exact Hg|]); (split; [exact Hst|]);
    (split; [reflexivity|]).
  - left. split; [now apply Himp|]. split; [exact Hshare|]. auto.
  - right. left. split; [now apply Himp|]. split; [|auto].
    unfold within_share. rewrite Hshare. discriminate.
  - right. right. split; [|auto].
    intros H. apply Himp in H. discriminate.
Qed.

Lemma refine_scan_scanned idxs :
  forall rem a s a_end s_end,
    refine_scan byte_budget_ EncodeStats idxs rem a s = Done a_end s_end ->
    scanned byte_budget_ EncodeStats idxs rem a s a_end s_end.
Proof.
  induction idxs as [|i rest IH]; intros rem a s a_end s_end Hrun;
    simpl in Hrun.
  - injection Hrun as <- <-. constructor.
  - unfold bind at 1 in Hrun.
    destruct (frames_ s !! i) as [f|] eqn:Hf.
    2:{ rewrite refine_frame_out_of_range in Hrun by exact Hf. discriminate. }
    destruct (refine_frame byte_budget_ EncodeStats i rem a s)
      as [a1 s1| | |] eqn:Hfr; try discriminate.
    apply (scanned_frame _ _ i rest rem a s f a1 s1); [exact Hf| |now apply IH].
    unfold refine_frame, bind at 1, get_frame at 1 in Hfr. rewrite Hf in Hfr.
    unfold bind at 1, upd_frame at 1 in Hfr. unfold bind at 1 in Hfr.
    destruct (while _ _ _ _ _) as [v x| | |] eqn:Hw; try discriminate.
    simpl in Hfr. injection Hfr as <- <-.
    apply (refine_while_searched i rem (search_start f)) in Hw.
    + exact Hw.
    + cbn [frames_]. rewrite length_alter. now apply lookup_lt_Some in Hf.
    + unfold refine_window, search_start. cbn [min_quality]. lia.
    + unfold refine_window, search_start. cbn [max_quality]. lia.
Qed.

(** The search of a frame ends when the codec answers at the qualities of
    its window: the window shrinks in every round. *)
Lemma refine_frame_total i rem a s f :
  frames_ s !! i = Some f ->
  answered_in_window EncodeStats f ->
  exists a' s', refine_frame byte_budget_ EncodeStats i rem a s = Done a' s'.
Proof.
  intros Hf Hans.
  set (w0 := refine_window f).
  set (s1 := {| frames_ := alter (set_lossless 0) i (frames_ s);
                webp_data := webp_data s; history := history s |}).
  set (Inv := fun (v : Window * Z) (x : State) =>
    search_start f <= min_quality v.1
    /\ max_quality v.1 <= Z.min (search_start f + 30) 100
    /\ exists g, frames_ x !! i = Some g /\ pic g = pic f
                 /\ lossless (config g) = 0).
  assert (Hloop : triple False (Inv (w0, a))
            (while (window_fuel w0) (fun v => window_open v.1)
               (refine_probe byte_budget_ EncodeStats i rem) (w0, a))
            (fun _ _ => True) (fun _ _ => False)).
  { apply (triple_while False Inv (fun v => window_fuel v.1)).
    - auto.
    - intros [w b] x _ Hc. right. now apply window_fuel_pos.
    - intros [w b] Hc x (Hlo & Hhi & g & Hg & Hpic & Hll). cbn [fst snd] in *.
      unfold window_open in Hc. apply Z.leb_le in Hc.
      pose proof (mid_quality_bounds w Hc) as Hmid.
      destruct (Hans (mid_quality w) ltac:(lia)) as [[ns np] Hst].
      assert (Hst' : stats_at EncodeStats g (mid_quality w) = ExtOk (ns, np)).
      { unfold stats_at. now rewrite Hpic, Hll. }
      rewrite (refine_probe_eval x i g rem w b ns np Hg Hst').
      assert (Hlen : (i < length (frames_ x))%nat)
        by now apply lookup_lt_Some in Hg.
      unfold Inv, probe_result.
      destruct (improves _ _ _); [destruct (affordable _ _ _ _ _)|];
        cbn [fst snd raise_min lower_max min_quality max_quality frames_];
        (split;
         [split; [lia|]; split; [lia|];
          eexists; (split; [now apply list_lookup_insert_eq|]);
          split; [exact Hpic|exact Hll]
         |right; first [now apply window_fuel_raise_min
                       |now apply window_fuel_lower_max]]).
    - right. reflexivity. }
  assert (H1 : Inv (w0, a) s1).
  { unfold Inv, w0, refine_window, search_start. cbn [fst min_quality max_quality].
    split; [lia|]. split; [lia|].
    exists (set_lossless 0 f). unfold s1. simpl.
    rewrite list_lookup_alter_eq, Hf. auto. }
  specialize (Hloop s1 H1).
  unfold refine_frame, bind at 1, get_frame at 1. rewrite Hf.
  unfold bind at 1, upd_frame at 1. fold s1. fold w0. unfold bind at 1.
  destruct (while _ _ _ _ s1) as [v x|st x| |]; try contradiction.
  eexists _, _. reflexivity.
Qed.

Lemma refine_scan_total idxs :
  NoDup idxs ->
  forall rem a s,
    (forall i, In i idxs ->
       exists f, frames_ s !! i = Some f /\ answered_in_window EncodeStats f) ->
    exists a_end s_end,
      refine_scan byte_budget_ EncodeStats idxs rem a s = Done a_end s_end.
Proof.
  induction 1 as [|i rest Hnotin Hnd IH]; intros rem a s Hall; simpl.
  - eexists _, _. reflexivity.
  - destruct (Hall i (or_introl eq_refl)) as (f & Hf & Hans).
    destruct (refine_frame_total i rem a s f Hf Hans) as (a1 & s1 & Hfr).
    destruct (refine_frame_rescanned _ _ _ _ _ _ _ Hfr Hf)
      as (_ & _ & _ & _ & Hout).
    unfold bind at 1. rewrite Hfr.
    apply IH. intros j Hj.
    rewrite list_elem_of_In in Hnotin.
    rewrite Hout by (intros ->; contradiction).
    apply Hall. now right.
Qed.

(** C6, as the code has it. A scan of [LossyEncodeNoSlopeOptim] that runs
    to its end has searched its frames one after the other. The search of
    a frame starts with a lossy configuration in the window from the start
    (the frame's [final_quality], or 70 when its configuration is lossless)
    to the start plus 30, capped at 100, and every round probes the
    midpoint of the window left, a quality of that window. The candidate is
    accepted exactly when it improves the frame (a higher PSNR, or the same
    PSNR with a size that is not larger) and the size increase, converted
    to [float], is at most the [float] value of the integer quotient
    (byte_budget - anim_size) / num_remaining_frames. An acceptance writes
    the frame and adds the size increase to the running animation size
    with which the next round, and after the frame the next frame, goes
    on; a rejection changes neither. The value and the state with which the
    scan ends are those of the last round of the last frame. A scan over
    frames that are different from each other does run to its end when the
    codec answers at the qualities of their windows. *)
Theorem refine_search_rounds (idxs : list nat) (rem anim_size : Z)
    (s : State) :
  (forall a_end s_end,
     refine_scan byte_budget_ EncodeStats idxs rem anim_size s
     = Done a_end s_end ->
     scanned byte_budget_ EncodeStats idxs rem anim_size s a_end s_end)
  /\ (NoDup idxs ->
      (forall i, In i idxs ->
         exists f, frames_ s !! i = Some f
                   /\ answered_in_window EncodeStats f) ->
      exists a_end s_end,
        refine_scan byte_budget_ EncodeStats idxs rem anim_size s
        = Done a_end s_end).
Proof using Type.
  split.
  - intros a_end s_end. apply refine_scan_scanned.
  - intros Hnd Hall. now apply refine_scan_total.
Qed.

(** ** The writes to [final_quality] *)

Lemma Forall2_compose {A B C} (P : A -> B -> Prop) (Q : B -> C -> Prop)
    (S : A -> C -> Prop) l1 l2 l3 :
  (forall a b c, P a b -> Q b c -> S a c) ->
  Forall2 P l1 l2 -> Forall2 Q l2 l3 -> Forall2 S l1 l3.
Proof.
  intros H H12. revert l3.
  induction H12; intros l3 H23; inversion H23; subst; constructor; eauto.
Qed.

Lemma lookup_In {A} (l : list A) i x : l !! i = Some x -> In x l.
Proof.
  intros H. apply list_elem_of_In. eapply list_elem_of_lookup_2. exact H.
Qed.

Lemma qualities_up_to_Forall2 (R : FrameData -> FrameData -> Prop) q q' l l' :
  (forall f f', R f f' -> final_quality f <= q -> final_quality f' <= q') ->
  Forall2 R l l' -> qualities_up_to q l -> qualities_up_to q' l'.
Proof.
  intros HR HF Hq f' Hf'. apply list_elem_of_In, list_elem_of_lookup in Hf'.
  destruct Hf' as [i Hi].
  destruct (Forall2_lookup_r _ _ _ _ _ HF Hi) as (f & Hf & Hff').
  apply (HR f f' Hff'). apply Hq. eapply lookup_In. exact Hf.
Qed.

Lemma same_final_quality_upd fs0 (x : State) i (g : FrameData -> FrameData) :
  (forall f, final_quality (g f) = final_quality f) ->
  Forall2 same_final_quality fs0 (frames_ x) ->
  Forall2 same_final_quality fs0
    (frames_ {| frames_ := alter g i (frames_ x);
                webp_data := webp_data x; history := history x |}).
Proof.
  intros Hg HF. simpl. apply Forall2_alter_r; [exact HF|].
  intros f0 y _ _ E. unfold same_final_quality in *. now rewrite Hg.
Qed.

Lemma not_lowered_upd fs0 (x : State) i (g : FrameData -> FrameData) :
  (forall f, final_quality (g f) = final_quality f) ->
  Forall2 not_lowered fs0 (frames_ x) ->
  Forall2 not_lowered fs0
    (frames_ {| frames_ := alter g i (frames_ x);
                webp_data := webp_data x; history := history x |}).
Proof.
  intros Hg HF. simpl. apply Forall2_alter_r; [exact HF|].
  intros f0 y _ _ E. unfold not_lowered in *. now rewrite Hg.
Qed.

(** *** LossyEncodeSlopeOptim *)

(** A round of the global search (lines 145-178), however it ends: it
    commits nothing and does not raise the lower bound of the window, or it
    commits the midpoint to some frames and goes on above the midpoint. *)
Lemma slope_round_outcome limit_slope w ol x :
  match slope_round byte_budget_ EncodeStats Assemble limit_slope (w, ol) x with
  | Done r x' =>
      (Forall2 same_final_quality (frames_ x) (frames_ x')
       /\ match r with
          | Continue v' => min_quality v'.1 = min_quality w
          | Break _ => True
          end)
      \/ (Forall2 (fun f f' => final_quality f' = final_quality f
                               \/ final_quality f' = mid_quality w)
            (frames_ x) (frames_ x')
          /\ exists l', r = Continue (raise_min w, l'))
  | Return _ x' => Forall2 same_final_quality (frames_ x) (frames_ x')
  | _ => True
  end.
Proof.
  set (J := fun y : State =>
              Forall2 same_final_quality (frames_ x) (frames_ y)).
  assert (J0 : J x) by (apply pointwise_refl; reflexivity).
  pose proof (pres_keep_active J
                (fun g => forall f, final_quality (g f) = final_quality f)
                (fun y i g Hg Hy => same_final_quality_upd _ y i g Hg Hy)
                (fun q f => eq_refl) w limit_slope ol x J0) as Hk.
  unfold slope_round. unfold bind at 1.
  destruct (keep_active EncodeStats w limit_slope ol x) as [new x1|st x1| |];
    try exact Logic.I; [|exact Hk].
  destruct (is_nil new). { left. split; [exact Hk|exact Logic.I]. }
  unfold bind at 1. rewrite GenerateAnimationNoBudget_eval.
  destruct (Assemble _) as [d|e]; [|exact Hk].
  destruct (WebPData_size d <=? byte_budget_).
  - unfold bind at 1. rewrite for_each_upd_eval.
    unfold bind, set_webp_data. simpl.
    right. split; [|eexists; reflexivity].
    eapply (Forall2_compose same_final_quality); [|exact Hk|].
    2:{ apply (pointwise_foldl_alter
                 (fun f f' => final_quality f' = final_quality f
                              \/ final_quality f' = mid_quality w)).
        - intros f. now left.
        - intros f g h [E1|E1] [E2|E2]; rewrite E2; auto.
        - intros f. now right. }
    intros a b c E [E'|E']; unfold same_final_quality in E; rewrite E'; auto.
  - left. split; [exact Hk|reflexivity].
Qed.

(** The round under the invariant of the loop: no frame has a
    [final_quality] above the lower bound of the window. *)
Lemma slope_round_not_lowered limit_slope w ol x r x' :
  slope_round byte_budget_ EncodeStats Assemble limit_slope (w, ol) x
  = Done r x' ->
  min_quality w <= max_quality w ->
  Forall2 (fun f f' => final_quality f' = final_quality f
                       \/ final_quality f' = mid_quality w)
    (frames_ x) (frames_ x')
  /\ (qualities_up_to (min_quality w) (frames_ x) ->
      Forall2 not_lowered (frames_ x) (frames_ x')
      /\ forall w' l', r = Continue (w', l') ->
           qualities_up_to (min_quality w') (frames_ x')).
Proof.
  intros Hrun Hopen. pose proof (mid_quality_bounds w Hopen) as Hmid.
  pose proof (slope_round_outcome limit_slope w ol x) as H.
  rewrite Hrun in H.
  assert (Hch : Forall2 (fun f f' => final_quality f' = final_quality f
                                     \/ final_quality f' = mid_quality w)
                  (frames_ x) (frames_ x')).
  { destruct H as [[Hs _]|[Hc _]]; [|exact Hc].
    eapply Forall2_impl; [exact Hs|]. intros f f' E. now left. }
  split; [exact Hch|]. intros Hq. split.
  - apply Forall2_same_length_lookup. split; [eapply Forall2_length, Hch|].
    intros i f f' Hf Hf'. unfold not_lowered.
    destruct (Forall2_lookup_lr _ _ _ _ _ _ Hch Hf Hf') as [E|E]; [lia|].
    rewrite E. specialize (Hq f (lookup_In _ _ _ Hf)). lia.
  - intros w' l' ->. destruct H as [[Hs Hr]|[Hc (l & E)]].
    + cbn [fst] in Hr. rewrite Hr.
      apply (qualities_up_to_Forall2 same_final_quality (min_quality w)
               (min_quality w) (frames_ x)); [|exact Hs|exact Hq].
      intros f f' E. unfold same_final_quality in E. lia.
    + injection E as -> _. cbn [raise_min min_quality].
      eapply qualities_up_to_Forall2; [|exact Hc|exact Hq].
      cbv beta. intros f f' [E|E] Hf; lia.
Qed.

(** The pass after its sort, entered with no [final_quality] above
    [minimum_lossy_quality_]. *)
Lemma slope_search_not_lowered (fs0 : list FrameData) :
  triple True
    (fun x => Forall2 not_lowered fs0 (frames_ x)
              /\ qualities_up_to minimum_lossy_quality_ (frames_ x))
    (let* limit_slope := FindMedianSlope EncodeStats in
     let w0 := {| min_quality := minimum_lossy_quality_; max_quality := 100 |} in
     let* optim_list := frame_indices in
     let* _ := while (window_fuel w0) slope_cond
                 (slope_round byte_budget_ EncodeStats Assemble limit_slope)
                 (w0, optim_list) in
     let* idxs := frame_indices in
     run for_each idxs (record_final_stats EncodeStats) then
     return_by_size)
    (fun _ x => Forall2 not_lowered fs0 (frames_ x))
    (fun _ x => Forall2 not_lowered fs0 (frames_ x)).
Proof.
  set (J := fun x : State => Forall2 not_lowered fs0 (frames_ x)).
  set (K := fun q (x : State) => J x /\ qualities_up_to q (frames_ x)).
  set (allowed := fun g : FrameData -> FrameData =>
                    forall f, final_quality (g f) = final_quality f).
  assert (J_upd : forall x i g, allowed g -> J x ->
            J {| frames_ := alter g i (frames_ x); webp_data := webp_data x;
                 history := history x |}).
  { intros x i g Hg Hx. now apply not_lowered_upd. }
  assert (K_upd : forall q x i g, allowed g -> K q x ->
            K q {| frames_ := alter g i (frames_ x); webp_data := webp_data x;
                   history := history x |}).
  { intros q x i g Hg [Hx Hq]. split; [now apply J_upd|]. simpl.
    apply (qualities_up_to_Forall2
             (fun f f' => final_quality f' = final_quality f) q q (frames_ x));
      [intros f f' E; lia| |exact Hq].
    apply pointwise_alter; [reflexivity|]. intros f _. apply Hg. }
  assert (Hq : forall q, allowed (set_quality q)) by (intros q f; reflexivity).
  assert (Hst : forall sz p, allowed (set_stats sz p))
    by (intros sz p f; reflexivity).
  assert (Kweak : forall {A} q (m : M A),
            preserves (K q) m ->
            triple True (K q) m (fun _ => K q) (fun _ => J)).
  { intros A q m H. eapply triple_weaken; [exact H|auto|auto|].
    intros st x [Hx _]. exact Hx. }
  eapply triple_bind with (Q1 := fun _ => K minimum_lossy_quality_).
  { apply Kweak. apply (pres_FindMedianSlope _ allowed (K_upd _) Hq). }
  intros limit_slope. cbv zeta.
  eapply triple_bind with (Q1 := fun _ => K minimum_lossy_quality_);
    [apply Kweak, pres_frame_indices|]. intros optim_list.
  eapply triple_bind with (Q1 := fun _ => J).
  - eapply triple_weaken
      with (P' := fun x =>
                    K (min_quality
                         ({| min_quality := minimum_lossy_quality_;
                             max_quality := 100 |}, optim_list).1) x)
           (Q' := fun _ => J) (R' := fun _ => J); auto.
    apply (triple_while True
             (fun (v : Window * list nat) x => K (min_quality v.1) x)
             (fun _ => O)).
    + intros v x [Hx _] _. exact Hx.
    + intros; now left.
    + intros [w ol] Hc. unfold slope_cond in Hc. apply andb_true_iff in Hc.
      destruct Hc as [Hopen _]. cbn [fst] in Hopen.
      unfold window_open in Hopen. apply Z.leb_le in Hopen.
      intros x [Hx Hup]. cbn [fst] in Hup.
      pose proof (slope_round_outcome limit_slope w ol x) as Hout.
      pose proof (slope_round_not_lowered limit_slope w ol x) as Hnl.
      destruct (slope_round _ _ _ _ _ x) as [r x'|st x'| |];
        try exact Logic.I.
      * destruct (Hnl r x' eq_refl Hopen) as [_ Hinv].
        destruct (Hinv Hup) as [Hraise Hnext].
        assert (Hx' : J x').
        { eapply (Forall2_compose not_lowered not_lowered);
            [|exact Hx|exact Hraise].
          unfold not_lowered. intros a b c; lia. }
        destruct r as [[w' l']|v]; [|exact Hx'].
        split; [|now left]. split; [exact Hx'|].
        cbn [fst]. now apply (Hnext w' l').
      * eapply (Forall2_compose not_lowered same_final_quality);
          [|exact Hx|exact Hout].
        unfold not_lowered, same_final_quality. intros a b c; lia.
    + now left.
  - intros v. apply pres_bind; [apply pres_frame_indices|]. intros idxs.
    apply pres_bind; [|intros u; apply pres_return_by_size].
    apply pres_for_each. intros i. unfold record_final_stats.
    apply pres_bind; [apply pres_get_frame|]. intros f.
    apply pres_bind; [apply (pres_upd_frame J allowed J_upd), Hq|]. intros u.
    apply pres_bind; [apply pres_GetPictureStats|]. intros [sz ps].
    apply (pres_upd_frame J allowed J_upd), Hst.
Qed.

(** [LossyEncodeSlopeOptim], however it ends. *)
Lemma SlopeOptim_not_lowered s :
  qualities_up_to minimum_lossy_quality_ (frames_ s) ->
  match SlopeOptim s with
  | Done _ s' | Return _ s' =>
      Forall2 not_lowered (by_timestamp (frames_ s)) (frames_ s')
  | _ => True
  end.
Proof.
  intros Hq. unfold LossyEncodeSlopeOptim. unfold bind at 1, sort_frames at 1.
  unfold bind at 1, get at 1, set_frames at 1.
  apply (slope_search_not_lowered (by_timestamp (frames_ s))). simpl. split.
  - apply pointwise_refl. intros f. unfold not_lowered. lia.
  - intros f Hf. apply Hq. eapply Permutation_in; [apply sort_perm|exact Hf].
Qed.

(** *** LossyEncodeNoSlopeOptim *)

(** A round of the search of a frame (lines 213-237). *)
Lemma refine_probe_round i rem w a x g r x' :
  frames_ x !! i = Some g ->
  min_quality w <= max_quality w ->
  refine_probe byte_budget_ EncodeStats i rem (w, a) x = Done r x' ->
  exists w' a' g',
    r = Continue (w', a')
    /\ frames_ x' = <[i := g']> (frames_ x)
    /\ psnr_le (final_psnr g) (final_psnr g')
    /\ (final_quality g' = final_quality g
        \/ final_quality g' = mid_quality w)
    /\ (final_quality g <= min_quality w ->
        final_quality g <= final_quality g' <= min_quality w')
    /\ (final_quality g' <> final_quality g ->
        final_quality g' < min_quality w').
Proof.
  intros Hg Hopen Hrun. pose proof (mid_quality_bounds w Hopen) as Hmid.
  destruct (stats_at EncodeStats g (mid_quality w)) as [[ns np]|e] eqn:Hst.
  2:{ unfold refine_probe, bind at 1, upd_frame at 1 in Hrun.
      unfold bind at 1 in Hrun.
      rewrite (GetPictureStats_after_set x i g) in Hrun by exact Hg.
      rewrite Hst in Hrun. discriminate. }
  rewrite (refine_probe_eval x i g rem w a ns np Hg Hst) in Hrun.
  cbv zeta in Hrun. unfold probe_result in Hrun.
  rewrite improves_set_quality in Hrun.
  destruct (improves ns np g) eqn:Himp;
    [destruct (affordable _ _ _ _ _)|];
    cbn [fst snd] in Hrun; injection Hrun as <- <-;
    eexists _, _, _; (split; [reflexivity|]); (split; [reflexivity|]);
    cbn [accept set_near_lossless set_final_quality set_stats set_quality
         final_psnr final_quality raise_min lower_max min_quality].
  - split; [now apply (improves_psnr_le ns)|]. split; [now right|].
    split; intros; lia.
  - split; [apply psnr_le_refl|]. split; [now left|]. split; intros; lia.
  - split; [apply psnr_le_refl|]. split; [now left|]. split; intros; lia.
Qed.

(** *** ExtraLossyEncode *)

(** The commit of lines 318-327 for one frame, however it ends. *)
Lemma commit_topup_not_lowered q e x :
  match commit_topup EncodeStats q e x with
  | Done _ x' | Return _ x' => Forall2 not_lowered (frames_ x) (frames_ x')
  | _ => True
  end.
Proof.
  assert (Hrefl : Forall2 not_lowered (frames_ x) (frames_ x)).
  { apply pointwise_refl. intros f. unfold not_lowered. lia. }
  unfold commit_topup, bind at 1, get_frame at 1.
  destruct (frames_ x !! e.2) as [g|] eqn:Hg; [|exact Logic.I].
  destruct (Z.ltb_spec (final_quality g) q) as [Hlt|Hge]; [|exact Hrefl].
  unfold bind at 1, upd_frame at 1. unfold bind at 1.
  assert (H1 : Forall2 not_lowered (frames_ x)
                 (alter (fun f => set_final_quality q (set_quality q f))
                    e.2 (frames_ x))).
  { apply pointwise_alter.
    - intros f. unfold not_lowered. lia.
    - intros f Hf. rewrite Hg in Hf. injection Hf as <-.
      unfold not_lowered. simpl. lia. }
  unfold GetPictureStats, bind at 1, get_frame at 1. simpl frames_.
  rewrite list_lookup_alter_eq, Hg. simpl fmap. cbv iota.
  destruct (EncodeStats _ _) as [[sz ps]|err]; simpl; [|exact H1].
  rewrite list_alter_alter_eq.
  apply pointwise_alter.
  - intros f. unfold not_lowered. lia.
  - intros f Hf. rewrite Hg in Hf. injection Hf as <-.
    unfold not_lowered. simpl. lia.
Qed.

Lemma topped_up_refl f : topped_up EncodeStats f f.
Proof. unfold topped_up. repeat split; auto; lia. Qed.

Lemma topped_up_requantised f g h :
  topped_up EncodeStats f g -> requantised g h -> topped_up EncodeStats f h.
Proof. unfold requantised. intros H ->. exact H. Qed.

Section ToppedUp.
Variable fs0 : list FrameData.

Local Abbreviation T :=
  (fun x : State => Forall2 (topped_up EncodeStats) fs0 (frames_ x)).

Lemma topped_up_upd (x : State) i (g : FrameData -> FrameData) :
  (forall f, requantised f (g f)) ->
  T x ->
  T {| frames_ := alter g i (frames_ x); webp_data := webp_data x;
       history := history x |}.
Proof.
  intros Hg HF. simpl. apply Forall2_alter_r; [exact HF|].
  intros f0 y _ _ Ht. eapply topped_up_requantised; [exact Ht|apply Hg].
Qed.

Lemma commit_topup_topped_up q e :
  q <= 100 -> preserves T (commit_topup EncodeStats q e).
Proof.
  intros H100 x HF. unfold commit_topup, bind at 1, get_frame at 1.
  destruct (frames_ x !! e.2) as [g|] eqn:Hg; [|exact Logic.I].
  destruct (Z.ltb_spec (final_quality g) q) as [Hlt|Hge]; [|exact HF].
  unfold bind at 1, upd_frame at 1. unfold bind at 1.
  assert (HF1 : Forall2 (topped_up EncodeStats) fs0
                  (alter (fun f => set_final_quality q (set_quality q f))
                     e.2 (frames_ x))).
  { apply Forall2_alter_r; [exact HF|]. intros f0 y Hf0 Hy Ht.
    rewrite Hg in Hy. injection Hy as <-.
    destruct Ht as (Hp & Hl & Hq & Hps). unfold topped_up. simpl.
    repeat split; auto. lia. }
  unfold GetPictureStats, bind at 1, get_frame at 1. simpl frames_.
  rewrite list_lookup_alter_eq, Hg. simpl fmap. cbv iota.
  cbn [pic config set_final_quality set_quality].
  destruct (EncodeStats (pic g) _) as [[sz ps]|err] eqn:Hst; simpl.
  2:{ exact HF1. }
  rewrite list_alter_alter_eq.
  apply Forall2_alter_r; [exact HF|]. intros f0 y Hf0 Hy Ht.
  rewrite Hg in Hy. injection Hy as <-.
  destruct Ht as (Hp & Hl & Hq & Hps). unfold topped_up. simpl.
  repeat split; auto; [lia|]. right. exists q. split; [lia|].
  unfold psnr_at, stats_at. rewrite <- Hp, <- Hl, Hst. reflexivity.
Qed.

Lemma topup_probe_topped_up order w final_q :
  preserves T (topup_probe byte_budget_ Assemble order (w, final_q)).
Proof.
  unfold topup_probe.
  apply pres_bind.
  { apply pres_for_each. intros e.
    apply pres_bind; [apply pres_get_frame|]. intros f.
    intros x Hx. apply topped_up_upd; [|exact Hx].
    intros g. apply requantised_set_quality. }
  intros u. apply pres_bind; [apply pres_GenerateAnimationNoBudget|].
  intros d. destruct (WebPData_size d <=? byte_budget_); [|apply pres_ret].
  apply pres_bind; [|intros u'; apply pres_ret].
  intros x Hx. exact Hx.
Qed.

(** A round of the top-up pass (lines 290-334): the quality it commits is
    one of its window, which ends at 100 at most. *)
Lemma topup_round_topped_up order :
  preserves T (topup_round byte_budget_ EncodeStats Assemble order).
Proof.
  unfold topup_round.
  apply pres_bind; [apply pres_get|]. intros x0.
  destruct (lowest_next_quality _ _) as [lo|]; [|apply pres_undefined].
  cbv zeta.
  eapply triple_bind
    with (Q1 := fun (v : Window * Z) x => T x /\ v.2 <= 100).
  { eapply triple_weaken
      with (P' := fun x => T x
                  /\ max_quality
                       ({| min_quality := lo;
                           max_quality := Z.min (lo + 30) 100 |}, -1).1 <= 100
                  /\ ({| min_quality := lo;
                         max_quality := Z.min (lo + 30) 100 |}, -1).2 <= 100)
           (Q' := fun (v : Window * Z) x => T x /\ v.2 <= 100)
           (R' := fun _ x => T x); auto.
    2:{ intros x Hx. cbn [fst snd max_quality]. split; [exact Hx|]. lia. }
    apply (triple_while True
             (fun (v : Window * Z) x =>
                T x /\ max_quality v.1 <= 100 /\ v.2 <= 100)
             (fun _ => O)).
    - intros v x (Hx & _ & Hv) _. auto.
    - intros; now left.
    - intros [w fq] Hc. cbn [fst] in Hc. unfold window_open in Hc.
      apply Z.leb_le in Hc. pose proof (mid_quality_bounds w Hc) as Hmid.
      intros x (Hx & Hmax & Hfq). cbn [fst snd] in Hmax, Hfq.
      pose proof (topup_probe_topped_up order w fq x Hx) as Hp.
      assert (Hres : forall r x',
                topup_probe byte_budget_ Assemble order (w, fq) x = Done r x' ->
                match r with
                | Continue v' => max_quality v'.1 <= 100 /\ v'.2 <= 100
                | Break _ => False
                end).
      { intros r x' Hrun. unfold topup_probe in Hrun.
        unfold bind at 1 in Hrun.
        destruct (for_each order _ x) as [[] x1| | |]; try discriminate.
        unfold bind at 1 in Hrun.
        destruct (GenerateAnimationNoBudget Assemble x1) as [d x2| | |];
          try discriminate.
        destruct (WebPData_size d <=? byte_budget_).
        - unfold bind, set_webp_data in Hrun. simpl in Hrun.
          injection Hrun as <- _. cbn [fst snd raise_min max_quality]. lia.
        - injection Hrun as <- _. cbn [fst snd lower_max max_quality]. lia. }
      destruct (topup_probe _ _ _ _ x) as [r x'|st x'| |]; auto.
      specialize (Hres r x' eq_refl). destruct r; [|contradiction].
      split; [|now left]. split; [exact Hp|exact Hres].
    - now left. }
  intros v. destruct (v.2 =? -1).
  { apply triple_ret. intros x [Hx _]. exact Hx. }
  intros x [Hx Hv].
  assert (HT : preserves T
                 (run for_each order (commit_topup EncodeStats v.2) then
                  ret (Continue (tail order)))).
  { apply pres_bind; [|intros u; apply pres_ret].
    apply pres_for_each. intros e. now apply commit_topup_topped_up. }
  exact (HT x Hx).
Qed.

Lemma ExtraLossy_topped_up : preserves T ExtraLossy.
Proof.
  unfold ExtraLossyEncode.
  apply pres_bind; [apply pres_frame_indices|]. intros idxs.
  apply pres_bind.
  { apply (pres_slopes_to_100 _ (fun g => forall f, requantised f (g f))).
    - intros x i g Hg Hx. now apply topped_up_upd.
    - intros q f. apply requantised_set_quality. }
  intros unsorted. cbv zeta.
  apply pres_bind; [|intros v; apply pres_return_by_size].
  apply pres_while. intros o. apply topup_round_topped_up.
Qed.
End ToppedUp.

Lemma topped_up_psnr_le f f' :
  topped_up EncodeStats f f' ->
  0 <= final_quality f ->
  psnr_recorded EncodeStats f -> psnr_monotone EncodeStats f ->
  psnr_le (final_psnr f) (final_psnr f').
Proof.
  intros (_ & _ & _ & [E|(q & Hq & E)]) H0 Hrec Hmono; [now left|].
  right. rewrite E, Hrec. apply Hmono; lia.
Qed.

(** C2, amended. What the writes of each pass do to the [final_quality]
    and to the [final_psnr] of a frame.
    - [LossyEncodeSlopeOptim]. A round of its search leaves the
      [final_quality] of a frame or sets it to the midpoint of the window;
      when no frame has a [final_quality] above the lower bound of the
      window, the round lowers none, and none is above the lower bound
      with which the next round goes on: the values committed rise from
      round to round. So the pass, entered with no [final_quality] above
      [minimum_lossy_quality_] (as with the unset -1), lowers none, however
      it ends; the frames are compared up to the rearrangement of the
      sort.
    - [LossyEncodeNoSlopeOptim]. A round of the search of a frame leaves
      its [final_quality] or sets it to the midpoint of the window, and
      does not lower its [final_psnr], in the order of [float]; when the
      [final_quality] is not above the lower bound of the window, the
      round does not lower it, and it is not above the lower bound of the
      next round; after a round that has changed it, it is below that
      bound. So only the first acceptance of a search can lower a
      quality, and only in a search that does not start from the frame's
      quality: the pass, when it returns [kOk], does not lower the
      [final_quality] of a frame whose configuration is not lossless, and
      for a frame whose configuration is lossless, whose search restarts
      at 70, the [final_quality] is as it was or at least 70.
    - [ExtraLossyEncode]. The commit of lines 318-327 lowers no
      [final_quality], and the pass lowers none, however it ends; it does
      not lower the [final_psnr] of a frame with a [final_quality] from 0
      on that records the PSNR of its final quality, when the PSNR of the
      codec is monotone in the quality between 0 and 100. *)
Theorem passes_on_final_quality (s : State) :
  (forall limit_slope w optim_list x r x',
     slope_round byte_budget_ EncodeStats Assemble limit_slope
       (w, optim_list) x = Done r x' ->
     min_quality w <= max_quality w ->
     Forall2 (fun f f' => final_quality f' = final_quality f
                          \/ final_quality f' = mid_quality w)
       (frames_ x) (frames_ x')
     /\ (qualities_up_to (min_quality w) (frames_ x) ->
         Forall2 not_lowered (frames_ x) (frames_ x')
         /\ forall w' l', r = Continue (w', l') ->
              qualities_up_to (min_quality w') (frames_ x')))
  /\ (qualities_up_to minimum_lossy_quality_ (frames_ s) ->
      match SlopeOptim s with
      | Done _ s' | Return _ s' =>
          exists fs, Permutation fs (frames_ s)
                     /\ Forall2 not_lowered fs (frames_ s')
      | _ => True
      end)
  /\ (forall i rem w a x g r x',
        frames_ x !! i = Some g ->
        min_quality w <= max_quality w ->
        refine_probe byte_budget_ EncodeStats i rem (w, a) x = Done r x' ->
        exists w' a' g',
          r = Continue (w', a')
          /\ frames_ x' = <[i := g']> (frames_ x)
          /\ psnr_le (final_psnr g) (final_psnr g')
          /\ (final_quality g' = final_quality g
              \/ final_quality g' = mid_quality w)
          /\ (final_quality g <= min_quality w ->
              final_quality g <= final_quality g' <= min_quality w')
          /\ (final_quality g' <> final_quality g ->
              final_quality g' < min_quality w'))
  /\ match NoSlopeOptim s with
     | Done _ s' | Return kOk s' => Forall2 refined (frames_ s) (frames_ s')
     | _ => True
     end
  /\ (forall q e x,
        match commit_topup EncodeStats q e x with
        | Done _ x' | Return _ x' =>
            Forall2 not_lowered (frames_ x) (frames_ x')
        | _ => True
        end)
  /\ match ExtraLossy s with
     | Done _ s' | Return _ s' =>
         Forall2 (fun f f' =>
                    not_lowered f f'
                    /\ (0 <= final_quality f ->
                        psnr_recorded EncodeStats f ->
                        psnr_monotone EncodeStats f ->
                        psnr_le (final_psnr f) (final_psnr f')))
           (frames_ s) (frames_ s')
     | _ => True
     end.
Proof using Type.
  split; [exact slope_round_not_lowered|].
  split.
  { intros Hq. pose proof (SlopeOptim_not_lowered s Hq) as H.
    destruct (SlopeOptim s) as [u s'|st s'| |]; try exact Logic.I;
      (exists (by_timestamp (frames_ s)); split; [apply sort_perm|exact H]). }
  split; [exact refine_probe_round|].
  split; [exact (NoSlopeOptim_outcome s)|].
  split; [exact commit_topup_not_lowered|].
  pose proof (ExtraLossy_topped_up (frames_ s) s) as H.
  assert (H0 : Forall2 (topped_up EncodeStats) (frames_ s) (frames_ s))
    by (apply pointwise_refl; intros f; apply topped_up_refl).
  specialize (H H0).
  destruct (ExtraLossy s) as [u s'|st s'| |]; try exact Logic.I;
    (eapply Forall2_impl; [exact H|]);
    intros f f' Hf; (split; [apply Hf|]); intros Hnn Hrec Hmono;
    now apply topped_up_psnr_le.
Qed.

End Facts.

(** * The statistics ([thumbnailer_utils.cc]) *)

Section UtilsFacts.
Variable AnimData2Frames : WebPData -> Utils.UtilsStatus * list Utils.Frame.
Variable PictureDistortion : WebPPicture -> WebPPicture -> option float.

Local Abbreviation measure := (Utils.measure PictureDistortion).
Local Abbreviation AnimData2PSNR :=
  (Utils.AnimData2PSNR AnimData2Frames PictureDistortion).

(** Lines 76-79: the index moves, by one, exactly when there is a next
    decoded frame and it has the timestamp of the original frame. *)
Lemma advance_spec new_frames idx o :
  (Utils.advance new_frames idx o = S idx
   /\ exists next, new_frames !! S idx = Some next
                   /\ Utils.timestamp next = Utils.timestamp o)
  \/ (Utils.advance new_frames idx o = idx
      /\ forall next, new_frames !! S idx = Some next ->
                      Utils.timestamp next <> Utils.timestamp o).
Proof.
  unfold Utils.advance. rewrite Nat.add_1_r.
  destruct (new_frames !! S idx) as [next|] eqn:E.
  - destruct (Z.eqb_spec (Utils.timestamp next) (Utils.timestamp o)).
    + left. split; [reflexivity|]. eauto.
    + right. split; [reflexivity|]. intros n' Hn. now injection Hn as <-.
  - right. split; [reflexivity|]. discriminate.
Qed.

Lemma advance_in_range new_frames idx o :
  (idx < length new_frames)%nat ->
  (Utils.advance new_frames idx o < length new_frames)%nat.
Proof.
  intros H. destruct (advance_spec new_frames idx o) as [[-> (n & Hn & _)]|[-> _]].
  - now apply lookup_lt_Some in Hn.
  - exact H.
Qed.

(** The loop of lines 70-89 from the index [idx] with [acc] in
    [stats->psnr]: it appends, for the original frames in order and until
    one fails, the distortion against the decoded frame it has reached. *)
Lemma measure_spec new_frames originals :
  forall idx acc,
    (idx < length new_frames)%nat ->
    exists ds,
      measure new_frames originals idx acc = Some (acc ++ ds)
      /\ (length ds <= length originals)%nat
      /\ (forall k d, ds !! k = Some d ->
            exists o g,
              originals !! k = Some o
              /\ new_frames !! foldl (Utils.advance new_frames) idx
                                 (take (S k) originals) = Some g
              /\ PictureDistortion (Utils.pic o) (Utils.pic g) = Some d)
      /\ ((length ds < length originals)%nat ->
          exists o g,
            originals !! length ds = Some o
            /\ new_frames !! foldl (Utils.advance new_frames) idx
                               (take (S (length ds)) originals) = Some g
            /\ PictureDistortion (Utils.pic o) (Utils.pic g) = None).
Proof.
  induction originals as [|o rest IH]; intros idx acc Hidx.
  - exists []. simpl. rewrite app_nil_r. split; [reflexivity|].
    split; [lia|]. split; [intros k d H; discriminate|lia].
  - simpl measure.
    pose proof (advance_in_range new_frames idx o Hidx) as Hadv.
    destruct (lookup_lt_is_Some_2 _ _ Hadv) as [g Hg]. rewrite Hg.
    destruct (PictureDistortion (Utils.pic o) (Utils.pic g)) as [d|] eqn:Hd.
    + destruct (IH (Utils.advance new_frames idx o) (acc ++ [d]) Hadv)
        as (ds & Hrun & Hlen & Hval & Hstop).
      exists (d :: ds). rewrite Hrun, <- app_assoc. split; [reflexivity|].
      split; [simpl; lia|]. split.
      * intros [|k] d' Hk.
        -- injection Hk as <-. exists o, g. simpl. auto.
        -- destruct (Hval k d' Hk) as (o' & g' & Ho' & Hg' & Hd').
           exists o', g'. simpl. auto.
      * intros Hlt. simpl in Hlt.
        destruct Hstop as (o' & g' & Ho' & Hg' & Hd'); [lia|].
        exists o', g'. simpl. auto.
    + exists []. rewrite app_nil_r. split; [reflexivity|].
      split; [simpl; lia|]. split; [intros k d H; discriminate|].
      intros _. exists o, g. simpl. auto.
Qed.

(** Line 80 with no decoded frame: [new_frames[0]] is read out of range. *)
Lemma measure_no_decoded_frame o rest acc :
  measure [] (o :: rest) 0 acc = None.
Proof. reflexivity. Qed.

Lemma record_statistics_spec l :
  l <> [] ->
  exists st',
    Utils.record_statistics (length l) l = Some st'
    /\ Utils.psnr st' = l
    /\ head (sort F32.ltb l) = Some (Utils.min_psnr st')
    /\ last (sort F32.ltb l) = Some (Utils.max_psnr st')
    /\ sort F32.ltb l !! (length l / 2)%nat = Some (Utils.median_psnr st')
    /\ Utils.mean_psnr st'
       = f64_to_f32 (F64.div (Utils.accumulate (sort F32.ltb l))
                       (F64.of_int (Z.of_nat (length l)))).
Proof.
  intros Hne. unfold Utils.record_statistics.
  pose proof (sort_perm F32.ltb l) as Hperm.
  pose proof (Permutation_length Hperm) as Hlen.
  assert (Hpos : (0 < length l)%nat) by (destruct l; [congruence|simpl; lia]).
  destruct (sort F32.ltb l) as [|m sorted] eqn:E; [simpl in Hlen; lia|].
  rewrite <- E in *.
  assert (Hh : head (sort F32.ltb l) = Some m) by now rewrite E.
  rewrite Hh.
  destruct (last (sort F32.ltb l)) as [hi|] eqn:Hl.
  2:{ apply last_None in Hl. rewrite Hl in Hlen. simpl in Hlen. lia. }
  destruct (lookup_lt_is_Some_2 (sort F32.ltb l) (length l / 2)) as [med Hm].
  { rewrite Hlen. apply Nat.div_lt; lia. }
  rewrite Hm. eexists. split; [reflexivity|]. simpl. auto.
Qed.

(** The smallest and the largest of values that are no NaN are the ends of
    the sorted vector. *)
Lemma sorted_ends l lo hi :
  ordered_values l ->
  head (sort F32.ltb l) = Some lo -> last (sort F32.ltb l) = Some hi ->
  In lo l /\ In hi l
  /\ forall d, In d l -> F32.leb lo d = true /\ F32.leb d hi = true.
Proof.
  intros Hord Hlo Hhi.
  pose proof (sort_perm F32.ltb l) as Hperm.
  assert (Hs : StronglySorted (fun a b => F32.leb a b = true) (sort F32.ltb l)).
  { apply (sort_sorted F32.ltb _ (fun d => F32.is_nan d = false)).
    - apply F32_ltb_leb.
    - intros a b Ha Hb. now apply F32_ltb_false_leb.
    - apply F32_leb_trans.
    - apply List.Forall_forall. exact Hord. }
  assert (Hin : forall d, In d l <-> In d (sort F32.ltb l)).
  { intros d. split; apply Permutation_in; [now symmetry|exact Hperm]. }
  destruct (sort F32.ltb l) as [|m sorted] eqn:E; [discriminate|].
  injection Hlo as ->.
  split; [apply Hin; now left|].
  assert (Hhi_in : In hi (lo :: sorted)).
  { apply list_elem_of_In. apply last_Some_elem_of. exact Hhi. }
  split; [now apply Hin|].
  intros d Hd. pose proof (Hord d Hd) as Hnan. apply Hin in Hd. split.
  - apply StronglySorted_inv in Hs. destruct Hs as [_ Hall].
    destruct Hd as [<-|Hd]; [now apply F32_leb_refl|].
    now apply (proj1 (List.Forall_forall _ _) Hall).
  - apply last_Some in Hhi. destruct Hhi as [front Hfront].
    rewrite Hfront in Hs, Hd. apply sorted_last in Hs.
    apply in_app_or in Hd. destruct Hd as [Hd|[<-|[]]].
    + now apply (proj1 (List.Forall_forall _ _) Hs).
    + now apply F32_leb_refl.
Qed.

(** X24. [AnimData2PSNR] called as [CompareThumbnail] calls it. For a
    non-empty original frame sequence, a statistics object whose [psnr]
    vector is empty when [AnimData2PSNR] is called, and a decoder that
    gives at least one frame when it succeeds:
    - the index into the decoded frames moves, by one, exactly when there
      is a next decoded frame and its timestamp is that of the current
      original frame;
    - when the decoder fails, its status is returned and the statistics
      are untouched;
    - otherwise the loop measures the original frames in order, each
      against the decoded frame its index has reached, until a
      distortion fails; the status is not [kOk] if and only if the number
      of values measured differs from the number of original frames;
    - on [kOk] the statistics hold these values, one for each original
      frame, the first and the last element of the sorted values as
      minimum and maximum, their element at index n/2 as median and the
      [double] sum of the sorted values divided by n as mean; when no
      value is a NaN the minimum and the maximum are values measured, below
      and above every value measured. *)
Theorem AnimData2PSNR_statistics
    (originals : list Utils.Frame) (webp_data : WebPData)
    (st : Utils.ThumbnailStatsPSNR) (dst : Utils.UtilsStatus)
    (new_frames : list Utils.Frame) :
  originals <> [] ->
  Utils.psnr st = [] ->
  AnimData2Frames webp_data = (dst, new_frames) ->
  (dst = Utils.kOk -> new_frames <> []) ->
  (forall idx o,
     (Utils.advance new_frames idx o = S idx
      /\ exists next, new_frames !! S idx = Some next
                      /\ Utils.timestamp next = Utils.timestamp o)
     \/ (Utils.advance new_frames idx o = idx
         /\ forall next, new_frames !! S idx = Some next ->
                         Utils.timestamp next <> Utils.timestamp o))
  /\ exists status st',
       AnimData2PSNR originals webp_data (Some st)
       = Utils.Returned status (Some st')
       /\ (dst <> Utils.kOk -> status = dst /\ st' = st)
       /\ (dst = Utils.kOk ->
           exists l,
             measure new_frames originals 0 [] = Some l
             /\ Utils.psnr st' = l
             /\ (forall k d, l !! k = Some d ->
                   exists o g,
                     originals !! k = Some o
                     /\ new_frames !! matched new_frames originals k = Some g
                     /\ PictureDistortion (Utils.pic o) (Utils.pic g) = Some d)
             /\ (status <> Utils.kOk <-> length l <> length originals)
             /\ (status = Utils.kOk ->
                 let n := length originals in
                 let sorted := sort F32.ltb l in
                 Permutation sorted l
                 /\ head sorted = Some (Utils.min_psnr st')
                 /\ last sorted = Some (Utils.max_psnr st')
                 /\ sorted !! (n / 2)%nat = Some (Utils.median_psnr st')
                 /\ Utils.mean_psnr st'
                    = f64_to_f32 (F64.div (Utils.accumulate sorted)
                                    (F64.of_int (Z.of_nat n)))
                 /\ (ordered_values l ->
                     In (Utils.min_psnr st') l /\ In (Utils.max_psnr st') l
                     /\ forall d, In d l ->
                          F32.leb (Utils.min_psnr st') d = true
                          /\ F32.leb d (Utils.max_psnr st') = true))).
Proof using Type.
  intros Hne Hfresh Hdec Hsome. split; [intros idx o; apply advance_spec|].
  unfold Utils.AnimData2PSNR. rewrite Hdec.
  destruct dst;
    try (eexists _, _; split; [reflexivity|]; split; [auto|discriminate]).
  assert (Hidx : (0 < length new_frames)%nat).
  { destruct new_frames; [now specialize (Hsome eq_refl)|simpl; lia]. }
  destruct (measure_spec new_frames originals 0 [] Hidx)
    as (l & Hrun & Hlen & Hval & _).
  rewrite Hfresh, Hrun. simpl app.
  destruct (Nat.eqb_spec (length l) (length originals)) as [E|E]; simpl negb;
    cbv iota.
  - assert (Hl : l <> []).
    { intros ->. destruct originals; [congruence|discriminate]. }
    destruct (record_statistics_spec l Hl)
      as (st' & Hrec & Hpsnr & Hmin & Hmax & Hmed & Hmean).
    rewrite <- E, Hrec. exists Utils.kOk, st'. split; [reflexivity|].
    split; [congruence|]. intros _. exists l. split; [reflexivity|].
    split; [exact Hpsnr|]. split; [exact Hval|].
    split; [split; congruence|]. intros _. cbv zeta.
    split; [apply sort_perm|]. split; [exact Hmin|]. split; [exact Hmax|].
    split; [exact Hmed|]. split; [exact Hmean|].
    intros Hord. exact (sorted_ends l _ _ Hord Hmin Hmax).
  - eexists _, _. split; [reflexivity|]. split; [congruence|]. intros _.
    exists l. split; [reflexivity|]. split; [reflexivity|].
    split; [exact Hval|]. split; [split; [auto|discriminate]|congruence].
Qed.

(** ** AnimData2PSNR: the alignment and the edge of no original frame *)

(** X13. No original frame. [AnimData2PSNR] does not test for an empty
    original sequence. With a decoder that succeeds, the loop measures
    nothing; a statistics object that holds values already gives
    [kGenericError] and is left as it was, and a fresh one passes the size
    test (0 values for 0 frames) and then reads [front()] of an empty vector,
    for which C++ defines no behaviour. *)
Theorem AnimData2PSNR_without_original_frame
    (webp_data : WebPData) (st : Utils.ThumbnailStatsPSNR)
    (new_frames : list Utils.Frame) :
  AnimData2Frames webp_data = (Utils.kOk, new_frames) ->
  AnimData2PSNR [] webp_data (Some st)
  = match Utils.psnr st with
    | [] => Utils.Undefined
    | _ :: _ => Utils.Returned Utils.kGenericError (Some st)
    end.
Proof using Type.
  intros Hdec. unfold Utils.AnimData2PSNR. rewrite Hdec. simpl.
  destruct st as [[|d l] lo hi mean med]; reflexivity.
Qed.

Lemma matched_S new_frames originals k :
  matched new_frames originals (S k)
  = match originals !! S k with
    | Some o => Utils.advance new_frames (matched new_frames originals k) o
    | None => matched new_frames originals k
    end.
Proof.
  unfold matched. destruct (originals !! S k) as [o|] eqn:E.
  - rewrite (take_S_r _ _ _ E), foldl_app. reflexivity.
  - apply lookup_ge_None in E. rewrite !take_ge by lia. reflexivity.
Qed.

(** X14. The alignment never skips and never goes back. The index of the
    decoded frame against which the original frame [k] is measured is 0 or
    1 for the first original frame, and from one original frame to the next
    it stays or moves by one; with at least one decoded frame it is always
    the index of a decoded frame. *)
Theorem alignment_moves_by_one_at_most
    (new_frames originals : list Utils.Frame) (k : nat) :
  (matched new_frames originals 0 <= 1)%nat
  /\ (matched new_frames originals k <= matched new_frames originals (S k)
      <= S (matched new_frames originals k))%nat
  /\ (new_frames <> [] ->
      (matched new_frames originals k < length new_frames)%nat).
Proof using Type.
  assert (Hstep : forall idx o,
            (idx <= Utils.advance new_frames idx o <= S idx)%nat).
  { intros idx o.
    destruct (advance_spec new_frames idx o) as [[-> _]|[-> _]]; lia. }
  split; [|split].
  - unfold matched. destruct originals as [|o rest]; simpl; [lia|].
    apply Hstep.
  - rewrite matched_S. destruct (originals !! S k); [apply Hstep|lia].
  - intros Hne.
    assert (H0 : (0 < length new_frames)%nat)
      by (destruct new_frames; [congruence|simpl; lia]).
    induction k as [|k IH].
    + unfold matched. destruct originals as [|o rest]; simpl; [exact H0|].
      now apply advance_in_range.
    + rewrite matched_S. destruct (originals !! S k); [|exact IH].
      now apply advance_in_range.
Qed.

(** X15. Frames decoded one for one. When the decoded frames have the
    timestamps of the original frames, in order, and the first two
    timestamps differ, every original frame is measured against the decoded
    frame of its own position. *)
Theorem alignment_of_unmerged_frames
    (new_frames originals : list Utils.Frame) (k : nat) :
  map Utils.timestamp new_frames = map Utils.timestamp originals ->
  (forall a b, originals !! 0%nat = Some a -> originals !! 1%nat = Some b ->
               Utils.timestamp a <> Utils.timestamp b) ->
  (k < length originals)%nat ->
  matched new_frames originals k = k.
Proof using Type.
  intros Hts Hfirst.
  assert (Hlook : forall j o, originals !! j = Some o ->
            exists g, new_frames !! j = Some g
                      /\ Utils.timestamp g = Utils.timestamp o).
  { intros j o Ho.
    assert (E : map Utils.timestamp new_frames !! j
                = Some (Utils.timestamp o))
      by (rewrite Hts, list_lookup_fmap, Ho; reflexivity).
    rewrite list_lookup_fmap in E.
    destruct (new_frames !! j) as [g|]; [|discriminate].
    exists g. split; [reflexivity|]. now injection E. }
  induction k as [|k IH]; intros Hk.
  - unfold matched. destruct originals as [|o rest]; [simpl in Hk; lia|].
    simpl.
    destruct (advance_spec new_frames 0 o) as [[_ (g & Hg & Hgt)]|[-> _]];
      [|reflexivity].
    exfalso.
    assert (E : map Utils.timestamp new_frames !! 1%nat
                = Some (Utils.timestamp g))
      by (rewrite list_lookup_fmap, Hg; reflexivity).
    rewrite Hts, list_lookup_fmap in E.
    destruct ((o :: rest) !! 1%nat) as [b|] eqn:Hb; [|discriminate].
    injection E as E. apply (Hfirst o b eq_refl eq_refl). congruence.
  - rewrite matched_S. rewrite IH by lia.
    destruct (lookup_lt_is_Some_2 originals (S k) Hk) as [o Ho]. rewrite Ho.
    destruct (Hlook _ _ Ho) as (g & Hg & Hgt).
    destruct (advance_spec new_frames k o) as [[-> _]|[_ Hno]];
      [reflexivity|].
    exfalso. exact (Hno g Hg Hgt).
Qed.

(** ** CompareThumbnail *)

Variable indeterminate : float.

Local Abbreviation CompareThumbnail :=
  (Utils.CompareThumbnail AnimData2Frames PictureDistortion indeterminate).
Local Abbreviation declared_stats := (Utils.declared_stats indeterminate).

(** [AnimData2PSNR] returns [kOk] only with one value for each frame. *)
Lemma AnimData2PSNR_kOk_length originals webp_data st st' :
  AnimData2PSNR originals webp_data (Some st)
  = Utils.Returned Utils.kOk (Some st') ->
  length (Utils.psnr st') = length originals.
Proof.
  unfold Utils.AnimData2PSNR.
  destruct (AnimData2Frames webp_data) as [[] nf]; try discriminate.
  destruct (measure nf originals 0 (Utils.psnr st)) as [l|]; [|discriminate].
  destruct (Nat.eqb_spec (length l) (length originals)) as [E|E]; simpl;
    [|discriminate].
  unfold Utils.record_statistics.
  destruct (head (sort F32.ltb l)), (last (sort F32.ltb l)),
    (sort F32.ltb l !! (length originals / 2)%nat); try discriminate.
  intros H. injection H as <-. exact E.
Qed.

Lemma AnimData2PSNR_some originals webp_data st status o :
  AnimData2PSNR originals webp_data (Some st) = Utils.Returned status o ->
  exists st', o = Some st'.
Proof.
  unfold Utils.AnimData2PSNR.
  destruct (AnimData2Frames webp_data) as [[] nf];
    try (intros H; injection H as _ <-; eauto).
  destruct (measure nf originals 0 (Utils.psnr st)) as [l|]; [|discriminate].
  destruct (negb _); [intros H; injection H as _ <-; eauto|].
  destruct (Utils.record_statistics _ _); [|discriminate].
  intros H; injection H as _ <-; eauto.
Qed.

(** X16. A comparison that does not succeed writes nothing. When
    [CompareThumbnail] returns a status other than [kOk] (a null [diff],
    or the failure of one of the two measurements), and also when it returns
    [kOk] at once because there is no original frame, the object behind
    [diff] is as it was; with no original frame not even a null [diff] is
    an error. *)
Theorem CompareThumbnail_writes_only_on_success
    (originals : list Utils.Frame) (webp_data_1 webp_data_2 : WebPData)
    (diff diff' : option Utils.ThumbnailDiffPSNR) (status : Utils.UtilsStatus) :
  CompareThumbnail originals webp_data_1 webp_data_2 diff
  = Utils.DiffReturned status diff' ->
  (originals = [] -> status = Utils.kOk /\ diff' = diff)
  /\ (status <> Utils.kOk -> diff' = diff)
  /\ (originals <> [] -> diff = None -> status = Utils.kMemoryError).
Proof using Type.
  unfold Utils.CompareThumbnail. intros H.
  destruct originals as [|o rest].
  { injection H as <- <-. repeat split; auto. congruence. }
  split; [discriminate|].
  destruct diff as [df|].
  2:{ injection H as <- <-. split; auto. }
  split; [|discriminate]. intros Hst.
  destruct (AnimData2PSNR (o :: rest) webp_data_1 (Some declared_stats))
    as [[] o1|]; try discriminate;
    try (injection H as <- <-; reflexivity).
  destruct (AnimData2PSNR (o :: rest) webp_data_2 (Some declared_stats))
    as [[] o2|]; try discriminate;
    try (injection H as <- <-; reflexivity).
  destruct (Utils.differences _ _ _ _ _); [|discriminate].
  destruct (Utils.record_diff_statistics _ _); [|discriminate].
  injection H as <- _. congruence.
Qed.

Lemma differences_spec p1 p2 :
  forall n i acc,
    (i + n <= length p1)%nat -> (i + n <= length p2)%nat ->
    Utils.differences p1 p2 i n acc
    = Some (acc ++ zip_with F32.sub (take n (drop i p2))
                                    (take n (drop i p1))).
Proof.
  induction n as [|r IH]; intros i acc H1 H2; simpl.
  - now rewrite app_nil_r.
  - destruct (lookup_lt_is_Some_2 p2 i) as [b Hb]; [lia|].
    destruct (lookup_lt_is_Some_2 p1 i) as [a Ha]; [lia|].
    rewrite Hb, Ha. rewrite IH by lia.
    rewrite (drop_S _ _ _ Hb), (drop_S _ _ _ Ha). simpl.
    now rewrite <- app_assoc.
Qed.

(** The comparison when both measurements succeed. *)
Lemma CompareThumbnail_kOk
    (originals : list Utils.Frame) (webp_data_1 webp_data_2 : WebPData)
    (df : Utils.ThumbnailDiffPSNR) (stats_1 stats_2 : Utils.ThumbnailStatsPSNR) :
  originals <> [] ->
  AnimData2PSNR originals webp_data_1 (Some declared_stats)
  = Utils.Returned Utils.kOk (Some stats_1) ->
  AnimData2PSNR originals webp_data_2 (Some declared_stats)
  = Utils.Returned Utils.kOk (Some stats_2) ->
  exists df',
    CompareThumbnail originals webp_data_1 webp_data_2 (Some df)
    = Utils.DiffReturned Utils.kOk (Some df')
    /\ Utils.psnr_diff df'
       = Utils.psnr_diff df
         ++ zip_with F32.sub (Utils.psnr stats_2) (Utils.psnr stats_1)
    /\ length (Utils.psnr_diff df')
       = (length (Utils.psnr_diff df) + length originals)%nat
    /\ head (sort F32.ltb (Utils.psnr_diff df'))
       = Some (Utils.max_psnr_decrease df')
    /\ last (sort F32.ltb (Utils.psnr_diff df'))
       = Some (Utils.max_psnr_increase df')
    /\ sort F32.ltb (Utils.psnr_diff df') !! (length originals / 2)%nat
       = Some (Utils.median_psnr_diff df').
Proof.
  intros Hne H1 H2.
  pose proof (AnimData2PSNR_kOk_length _ _ _ _ H1) as L1.
  pose proof (AnimData2PSNR_kOk_length _ _ _ _ H2) as L2.
  unfold Utils.CompareThumbnail.
  destruct originals as [|o rest] eqn:Eo; [congruence|]. rewrite <- Eo in *.
  rewrite H1, H2. simpl default.
  rewrite differences_spec by (simpl; lia).
  rewrite !drop_0, !take_ge by lia.
  set (l := Utils.psnr_diff df ++ _).
  assert (Hlen : length l = (length (Utils.psnr_diff df) + length originals)%nat).
  { unfold l. rewrite length_app, length_zip_with. lia. }
  assert (Hpos : (0 < length originals)%nat) by (rewrite Eo; simpl; lia).
  unfold Utils.record_diff_statistics.
  pose proof (Permutation_length (sort_perm F32.ltb l)) as Hs.
  destruct (sort F32.ltb l) as [|m sorted] eqn:E; [simpl in Hs; lia|].
  rewrite <- E in *.
  assert (Hh : head (sort F32.ltb l) = Some m) by now rewrite E.
  rewrite Hh.
  destruct (last (sort F32.ltb l)) as [hi|] eqn:Hl.
  2:{ apply last_None in Hl. rewrite Hl in Hs. simpl in Hs. lia. }
  destruct (lookup_lt_is_Some_2 (sort F32.ltb l) (length originals / 2))
    as [med Hm].
  { rewrite Hs, Hlen.
    assert (length originals / 2 < length originals)%nat
      by (apply Nat.div_lt; lia). lia. }
  rewrite Hm. eexists. split; [reflexivity|]. simpl. auto.
Qed.

(** X17. A comparison that succeeds. When both animations are measured
    with [kOk], [CompareThumbnail] returns [kOk] and appends to
    [diff->psnr_diff], for each original frame in order, the PSNR of the
    second animation minus the PSNR of the first, in [float]. The summary
    is taken from the sorted copy of the whole vector, the values it held
    before included: its first element as largest decrease, its last as
    largest increase, and its element at index n/2, n the number of
    original frames, as median. *)
Theorem CompareThumbnail_differences
    (originals : list Utils.Frame) (webp_data_1 webp_data_2 : WebPData)
    (df : Utils.ThumbnailDiffPSNR) (stats_1 stats_2 : Utils.ThumbnailStatsPSNR) :
  originals <> [] ->
  AnimData2PSNR originals webp_data_1 (Some declared_stats)
  = Utils.Returned Utils.kOk (Some stats_1) ->
  AnimData2PSNR originals webp_data_2 (Some declared_stats)
  = Utils.Returned Utils.kOk (Some stats_2) ->
  exists df',
    CompareThumbnail originals webp_data_1 webp_data_2 (Some df)
    = Utils.DiffReturned Utils.kOk (Some df')
    /\ Utils.psnr_diff df'
       = Utils.psnr_diff df
         ++ zip_with F32.sub (Utils.psnr stats_2) (Utils.psnr stats_1)
    /\ length (Utils.psnr_diff df')
       = (length (Utils.psnr_diff df) + length originals)%nat
    /\ head (sort F32.ltb (Utils.psnr_diff df'))
       = Some (Utils.max_psnr_decrease df')
    /\ last (sort F32.ltb (Utils.psnr_diff df'))
       = Some (Utils.max_psnr_increase df')
    /\ sort F32.ltb (Utils.psnr_diff df') !! (length originals / 2)%nat
       = Some (Utils.median_psnr_diff df').
Proof using Type.
  intros Hne H1 H2. now apply CompareThumbnail_kOk.
Qed.

Lemma F32_sub_self x : F32.is_finite x = true -> F32.sub x x = F32.zero.
Proof.
  destruct x as [[]| | |[] m e]; simpl; try discriminate; try reflexivity;
    intros _; unfold F32.sub, SFsub; rewrite Z.sub_diag; reflexivity.
Qed.

Lemma zip_with_sub_self l :
  (forall x, In x l -> F32.is_finite x = true) ->
  zip_with F32.sub l l = repeat F32.zero (length l).
Proof.
  induction l as [|x l IH]; intros H; [reflexivity|]. simpl.
  rewrite F32_sub_self by (apply H; now left).
  rewrite IH by (intros y Hy; apply H; now right). reflexivity.
Qed.

Lemma lookup_repeat {A} (x : A) n :
  forall i, (i < n)%nat -> repeat x n !! i = Some x.
Proof.
  induction n as [|n IH]; intros [|i] H; simpl; try lia; [reflexivity|].
  apply IH. lia.
Qed.

Lemma sort_repeat_zero n :
  sort F32.ltb (repeat F32.zero n) = repeat F32.zero n.
Proof.
  induction n as [|n IH]; [reflexivity|]. unfold sort in *. simpl.
  rewrite IH. destruct n; reflexivity.
Qed.

(** X18. An animation compared with itself. When the measurement of the
    animation succeeds with PSNR values that are finite numbers, and [diff]
    holds no value yet, [CompareThumbnail] of the animation with itself
    returns [kOk] with a difference of +0 for every original frame, and
    with +0 as largest decrease, largest increase and median. *)
Theorem CompareThumbnail_with_itself
    (originals : list Utils.Frame) (webp_data : WebPData)
    (df : Utils.ThumbnailDiffPSNR) (stats : Utils.ThumbnailStatsPSNR) :
  originals <> [] ->
  Utils.psnr_diff df = [] ->
  AnimData2PSNR originals webp_data (Some declared_stats)
  = Utils.Returned Utils.kOk (Some stats) ->
  (forall x, In x (Utils.psnr stats) -> F32.is_finite x = true) ->
  exists df',
    CompareThumbnail originals webp_data webp_data (Some df)
    = Utils.DiffReturned Utils.kOk (Some df')
    /\ Utils.psnr_diff df' = repeat F32.zero (length originals)
    /\ Utils.max_psnr_decrease df' = F32.zero
    /\ Utils.max_psnr_increase df' = F32.zero
    /\ Utils.median_psnr_diff df' = F32.zero.
Proof using Type.
  intros Hne Hfresh Hrun Hfin.
  destruct (CompareThumbnail_kOk originals webp_data webp_data df stats stats
              Hne Hrun Hrun) as (df' & Hcmp & Hdiff & _ & Hlo & Hhi & Hmed).
  pose proof (AnimData2PSNR_kOk_length _ _ _ _ Hrun) as Hlen.
  rewrite Hfresh, zip_with_sub_self, Hlen in Hdiff by exact Hfin.
  simpl in Hdiff. rewrite Hdiff, sort_repeat_zero in Hlo, Hhi, Hmed.
  assert (Hpos : (0 < length originals)%nat)
    by (destruct originals; [congruence|simpl; lia]).
  exists df'. split; [exact Hcmp|]. split; [exact Hdiff|].
  destruct (length originals) as [|n] eqn:En; [lia|].
  split; [simpl in Hlo; congruence|]. split.
  - assert (E : last (repeat F32.zero (S n)) = Some F32.zero).
    { change (repeat F32.zero (S n)) with (F32.zero :: repeat F32.zero n).
      rewrite repeat_cons. apply last_snoc. }
    congruence.
  - assert (E : repeat F32.zero (S n) !! (S n / 2)%nat = Some F32.zero).
    { apply lookup_repeat. apply Nat.div_lt; lia. }
    congruence.
Qed.

(** X23. The summary is ordered. When [AnimData2PSNR] returns [kOk] and no
    value of [stats->psnr] is a NaN, the minimum is at most the median and
    the median at most the maximum, in the order of [float], and all three
    are values of the vector. *)
Theorem AnimData2PSNR_summary_ordered
    (originals : list Utils.Frame) (webp_data : WebPData)
    (st st' : Utils.ThumbnailStatsPSNR) :
  AnimData2PSNR originals webp_data (Some st)
  = Utils.Returned Utils.kOk (Some st') ->
  ordered_values (Utils.psnr st') ->
  F32.leb (Utils.min_psnr st') (Utils.median_psnr st') = true
  /\ F32.leb (Utils.median_psnr st') (Utils.max_psnr st') = true
  /\ In (Utils.min_psnr st') (Utils.psnr st')
  /\ In (Utils.median_psnr st') (Utils.psnr st')
  /\ In (Utils.max_psnr st') (Utils.psnr st').
Proof using Type.
  unfold Utils.AnimData2PSNR.
  destruct (AnimData2Frames webp_data) as [[] nf]; try discriminate.
  destruct (measure nf originals 0 (Utils.psnr st)) as [l|]; [|discriminate].
  destruct (negb _); [discriminate|].
  unfold Utils.record_statistics.
  destruct (head (sort F32.ltb l)) as [lo|] eqn:Hlo; [|discriminate].
  destruct (last (sort F32.ltb l)) as [hi|] eqn:Hhi; [|discriminate].
  destruct (sort F32.ltb l !! (length originals / 2)%nat) as [med|] eqn:Hmed;
    [|discriminate].
  intros H. injection H as <-. simpl. intros Hord.
  destruct (sorted_ends l lo hi Hord Hlo Hhi) as (Hlo_in & Hhi_in & Hall).
  assert (Hmed_in : In med l).
  { eapply Permutation_in; [apply sort_perm|].
    apply list_elem_of_In, list_elem_of_lookup. eauto. }
  destruct (Hall med Hmed_in) as [H1 H2]. auto.
Qed.

End UtilsFacts.

(** ** AnimData2Frames *)

Section DecodeFacts.
Variable WebPAnimDecoderNew : WebPData -> option Utils.WebPAnimDecoder.
Variable WebPPictureInit : bool.
Variable WebPPictureImportRGBA :
  Z -> Z -> Utils.RGBA -> Z -> option WebPPicture.
Variable empty_picture : WebPPicture.

Local Abbreviation decode_frames :=
  (Utils.decode_frames WebPPictureInit WebPPictureImportRGBA empty_picture).
Local Abbreviation AnimData2Frames :=
  (Utils.AnimData2Frames WebPAnimDecoderNew WebPPictureInit
     WebPPictureImportRGBA empty_picture).

Lemma decode_frames_kOk width height pending :
  forall frames frames',
    decode_frames width height pending frames = (Utils.kOk, frames')
    <-> exists decoded pics,
          pending = map Some decoded
          /\ Forall2 (imported WebPPictureImportRGBA width height) decoded pics
          /\ frames' = frames ++ pics
          /\ (decoded <> [] -> WebPPictureInit = true).
Proof.
  induction pending as [|[[rgba ts]|] rest IH]; intros frames frames'; simpl.
  - split.
    + intros H. injection H as <-. exists [], []. rewrite app_nil_r.
      repeat split; [constructor|congruence].
    + intros (decoded & pics & Hd & HF & -> & _).
      destruct decoded; [|discriminate]. inversion HF. now rewrite app_nil_r.
  - destruct WebPPictureInit eqn:Hinit; simpl.
    2:{ split; [discriminate|].
        intros (decoded & pics & Hd & _ & _ & Hi).
        destruct decoded; [discriminate|]. now specialize (Hi ltac:(discriminate)). }
    destruct (WebPPictureImportRGBA width height rgba (width * 4)) as [p|] eqn:Himp.
    + rewrite IH. split.
      * intros (decoded & pics & -> & HF & -> & _).
        exists ((rgba, ts) :: decoded),
               ({| Utils.pic := p; Utils.timestamp := ts |} :: pics).
        split; [reflexivity|]. split.
        { constructor; [split; [exact Himp|reflexivity]|exact HF]. }
        split; [now rewrite <- app_assoc|reflexivity].
      * intros (decoded & pics & Hd & HF & -> & _).
        destruct decoded as [|[rgba' ts'] decoded]; [discriminate|].
        injection Hd as <- <- ->. inversion HF as [|? fr ? pics' [Hp Ht] HF']; subst.
        simpl in Hp, Ht. exists decoded, pics'. split; [reflexivity|].
        split; [exact HF'|]. split; [|reflexivity].
        rewrite <- app_assoc. simpl. f_equal. f_equal.
        destruct fr as [p' t']. simpl in *. congruence.
    + split; [discriminate|].
      intros (decoded & pics & Hd & HF & _ & _).
      destruct decoded as [|[rgba' ts'] decoded]; [discriminate|].
      injection Hd as <- <- ->. inversion HF as [|? fr ? pics' [Hp Ht] HF']; subst.
      simpl in Hp. congruence.
  - split; [discriminate|].
    intros (decoded & pics & Hd & _). destruct decoded; discriminate.
Qed.

Lemma decode_frames_extends width height pending :
  forall frames status frames',
    decode_frames width height pending frames = (status, frames') ->
    (status = Utils.kOk \/ status = Utils.kMemoryError)
    /\ exists pushed,
         frames' = frames ++ pushed
         /\ (length pushed <= length pending)%nat
         /\ (status = Utils.kOk -> length pushed = length pending).
Proof.
  induction pending as [|[[rgba ts]|] rest IH]; intros frames status frames';
    simpl.
  - intros H. injection H as <- <-. split; [now left|]. exists [].
    rewrite app_nil_r. auto.
  - destruct WebPPictureInit; simpl.
    2:{ intros H. injection H as <- <-. split; [now right|].
        eexists. split; [reflexivity|]. simpl. split; [lia|discriminate]. }
    destruct (WebPPictureImportRGBA width height rgba (width * 4)) as [p|].
    + intros H. destruct (IH _ _ _ H) as (Hst & pushed & -> & Hlen & Hok).
      split; [exact Hst|]. eexists. rewrite <- app_assoc.
      split; [reflexivity|]. simpl. split; [lia|]. intros E.
      specialize (Hok E). lia.
    + intros H. injection H as <- <-. split; [now right|].
      eexists. split; [reflexivity|]. simpl. split; [lia|discriminate].
  - intros H. injection H as <- <-. split; [now right|]. exists [].
    rewrite app_nil_r. simpl. split; [reflexivity|]. split; [lia|discriminate].
Qed.

(** X19. Decoding that succeeds. [AnimData2Frames] returns [kOk] exactly
    when the decoder is created, gives the canvas size, gives every frame
    it has, and every frame is imported into a picture of the canvas size
    (with a stride of four bytes for each pixel of a row); the vector then
    holds the frames it held, followed by one frame for each decoded frame,
    in order, with the imported picture and the decoder's timestamp. *)
Theorem AnimData2Frames_kOk (webp_data : WebPData)
    (frames frames' : list Utils.Frame) :
  AnimData2Frames webp_data frames = (Utils.kOk, frames')
  <-> exists dec width height decoded pics,
        WebPAnimDecoderNew webp_data = Some dec
        /\ Utils.anim_info dec = Some (width, height)
        /\ Utils.next_frames dec = map Some decoded
        /\ Forall2 (imported WebPPictureImportRGBA width height) decoded pics
        /\ frames' = frames ++ pics
        /\ (decoded <> [] -> WebPPictureInit = true).
Proof using Type.
  unfold Utils.AnimData2Frames. split.
  - destruct (WebPAnimDecoderNew webp_data) as [dec|]; [|discriminate].
    destruct (Utils.anim_info dec) as [[w h]|] eqn:Hinfo; [|discriminate].
    rewrite decode_frames_kOk. intros (decoded & pics & H).
    exists dec, w, h, decoded, pics. split; [reflexivity|].
    split; [exact Hinfo|]. exact H.
  - intros (dec & w & h & decoded & pics & -> & -> & H).
    apply decode_frames_kOk. eauto.
Qed.

(** X20. Decoding that fails. Whatever [AnimData2Frames] returns, the
    vector holds the frames it held, followed by the frames pushed until
    the failure: nothing is removed, and a failure does not undo the frames
    already pushed. The status is [kGenericError] exactly when the decoder
    is created and cannot give the canvas size; every other failure, a
    null decoder included, is reported as [kMemoryError], and a null decoder
    or a missing canvas size leaves the vector as it was. *)
Theorem AnimData2Frames_keeps_what_it_pushed (webp_data : WebPData)
    (frames frames' : list Utils.Frame) (status : Utils.UtilsStatus) :
  AnimData2Frames webp_data frames = (status, frames') ->
  (exists pushed, frames' = frames ++ pushed)
  /\ (status = Utils.kGenericError
      <-> exists dec, WebPAnimDecoderNew webp_data = Some dec
                      /\ Utils.anim_info dec = None)
  /\ (status <> Utils.kOk -> status <> Utils.kGenericError ->
      status = Utils.kMemoryError)
  /\ ((WebPAnimDecoderNew webp_data = None
       \/ status = Utils.kGenericError) -> frames' = frames).
Proof using Type.
  unfold Utils.AnimData2Frames.
  destruct (WebPAnimDecoderNew webp_data) as [dec|].
  2:{ intros H. injection H as <- <-. split; [exists []; now rewrite app_nil_r|].
      split; [split; [discriminate|intros (? & ? & _); discriminate]|].
      split; auto. }
  destruct (Utils.anim_info dec) as [[w h]|] eqn:Hinfo.
  2:{ intros H. injection H as <- <-. split; [exists []; now rewrite app_nil_r|].
      split; [split; eauto|]. split; [congruence|auto]. }
  intros H. destruct (decode_frames_extends _ _ _ _ _ _ H)
    as (Hst & pushed & -> & _).
  split; [eauto|]. split.
  - split; [intros ->; destruct Hst; discriminate|].
    intros (dec' & Hd & Hi). injection Hd as <-. congruence.
  - split; [destruct Hst; congruence|].
    intros [Hn| ->]; [discriminate|destruct Hst; discriminate].
Qed.

End DecodeFacts.


(** * Worked examples *)

(** C9 on a run: a buffer of 200 bytes against a budget of 150. *)
Lemma NoSlopeOptim_over_budget_is_noop_witness :
  let s := {| frames_ := Examples.two_frames;
              webp_data := Examples.bytes 200; history := [] |} in
  LossyEncodeNoSlopeOptim 150 Examples.ramp_stats
    (Examples.sum_sizes Examples.ramp_stats) WebPData_size s
  = Return kOk s.
Proof.
  intros s.
  apply (NoSlopeOptim_over_budget_is_noop 150 Examples.ramp_stats
           (Examples.sum_sizes Examples.ramp_stats) WebPData_size s).
  vm_compute. reflexivity.
Defined.

(** C5 on a run: the first round over two frames, budget 150. *)
Lemma slope_round_active_set_witness :
  exists s',
    slope_round 150 Examples.ramp_stats (Examples.sum_sizes Examples.ramp_stats)
      Examples.one_fifth
      ({| min_quality := 0; max_quality := 100 |}, [0; 1]%nat)
      (Examples.start Examples.two_frames)
    = Done (Continue ({| min_quality := 51; max_quality := 100 |}, [0; 1]%nat)) s'
    /\ sublist [0; 1]%nat [0; 1]%nat
    /\ forall i, In i [0; 1]%nat ->
         exists f sl,
           frames_ (Examples.start Examples.two_frames) !! i = Some f
           /\ slope_between Examples.ramp_stats f 0 100 = Some sl
           /\ (In i [0; 1]%nat <->
               final_quality f = -1 \/ F32.ltb Examples.one_fifth sl = true)
           /\ (In i [0; 1]%nat ->
               exists f', frames_ s' !! i = Some f'
                          /\ quality (config f') = 50).
Proof.
  eexists. split; [vm_compute; reflexivity|].
  apply (slope_round_active_set 150 Examples.ramp_stats
           (Examples.sum_sizes Examples.ramp_stats) Examples.one_fifth
           {| min_quality := 0; max_quality := 100 |}
           {| min_quality := 51; max_quality := 100 |}).
  vm_compute. reflexivity.
Defined.

(** C3 as stated fails on a run: no frame is near-lossless after the
    near-lossless pass, the driver returns [kOk], and its calls are the
    slope pass, the near-lossless pass and the equal-quality pass: the
    top-up pass is not called. *)
Lemma driver_skips_topup_without_near_lossless :
  exists s',
    Examples.plain_driver (Examples.start Examples.two_frames) = Return kOk s'
    /\ history s' = [(PSlopeOptim, 0); (PNearLosslessEqual, 120);
                     (PEqualQuality, 120)]
    /\ ~ refined_then_topped_up (history s').
Proof.
  eexists. split; [vm_compute; reflexivity|]. split; [reflexivity|].
  intros (z0 & z1 & sizes & ze & H & _). simpl in H.
  injection H as _ _ H.
  destruct sizes as [|z sizes]; simpl in H; [discriminate|].
  destruct sizes; discriminate.
Qed.

Lemma ret_keeps_history : keeps_history (ret tt).
Proof. intros h. apply pres_ret. Defined.

Lemma switch_first_keeps_history : keeps_history Examples.switch_first.
Proof. intros h s Hs. exact Hs. Defined.

(** C3 on a run in which the first frame is switched to near-lossless. *)
Lemma driver_pass_sequence_witness :
  exists s',
    Examples.switching_driver (Examples.start Examples.two_frames)
    = Return kOk s'
    /\ exists s2 z0 z1,
         bind (call PSlopeOptim
                 (LossyEncodeSlopeOptim 150 0 Examples.ramp_stats
                    (Examples.sum_sizes Examples.ramp_stats)))
              (fun _ => call PNearLosslessEqual Examples.switch_first)
              (Examples.start Examples.two_frames) = Done tt s2
         /\ history s2 = [(PSlopeOptim, z0); (PNearLosslessEqual, z1)]
         /\ (num_near_ll_frames (frames_ s2) = 0%nat ->
             exists z2, history s' = history s2 ++ [(PEqualQuality, z2)])
         /\ (num_near_ll_frames (frames_ s2) <> 0%nat ->
             exists sizes ze,
               history s'
               = history s2 ++ refinement_calls sizes ++ [(PExtraLossy, ze)]
               /\ (1 <= length sizes <= 5)%nat
               /\ adjacent_differ sizes
               /\ ((length sizes < 5)%nat -> last sizes = Some ze)).
Proof.
  eexists. split; [vm_compute; reflexivity|].
  apply (driver_pass_sequence 150 0 Examples.ramp_stats
           (Examples.sum_sizes Examples.ramp_stats) WebPData_size
           Examples.switch_first (ret tt)).
  - exact switch_first_keeps_history.
  - exact ret_keeps_history.
  - reflexivity.
  - vm_compute. reflexivity.
Defined.

(** C7 on the frame whose encodings all have 100 bytes and 40 dB: the
    threshold search of [FindMedianSlope] divides by [float(0)], its slope
    and the median are NaN, while [ComputeSlope] gives 0 for the same frame
    and the same pair of qualities. *)
Lemma FindMedianSlope_divides_by_zero_size_difference :
  exists s1 s2,
    FindMedianSlope Examples.flat_stats (Examples.start Examples.one_frame)
    = Done S754_nan s1
    /\ boundary_slope 100 (F32.of_int 40) 100 (F32.of_int 40) = S754_nan
    /\ ComputeSlope Examples.flat_stats 0 50 100
         (Examples.start Examples.one_frame) = Done F32.zero s2.
Proof.
  eexists. eexists. split; [vm_compute; reflexivity|].
  split; vm_compute; reflexivity.
Qed.

(** C10 on a run: the scan raises the two frames from quality 50 to 71 and
    57 within the budget of 150 bytes, the container assembled afterwards
    has 1000 bytes, and the pass returns [kOk] with the buffer of 120 bytes
    and the raised qualities. *)
Lemma NoSlopeOptim_revert_keeps_scan_results_witness :
  exists s1,
    refine_scan_of 150 Examples.ramp_stats WebPData_size Examples.at_quality_50
    = Done 148 s1
    /\ map final_quality (frames_ Examples.at_quality_50) = [50; 50]
    /\ map final_quality (frames_ s1) = [71; 57]
    /\ exists s',
         LossyEncodeNoSlopeOptim 150 Examples.ramp_stats Examples.bulky
           WebPData_size Examples.at_quality_50 = Return kOk s'
         /\ webp_data s' = webp_data Examples.at_quality_50
         /\ map final_quality (frames_ s') = map final_quality (frames_ s1)
         /\ map final_psnr (frames_ s') = map final_psnr (frames_ s1)
         /\ map encoded_size (frames_ s') = map encoded_size (frames_ s1).
Proof.
  eexists. split; [vm_compute; reflexivity|].
  split; [reflexivity|]. split; [reflexivity|].
  eapply (NoSlopeOptim_revert_keeps_scan_results 150 Examples.ramp_stats
            Examples.bulky WebPData_size Examples.at_quality_50 _ 148
            (Examples.bytes 1000)).
  - vm_compute. discriminate.
  - vm_compute. reflexivity.
  - reflexivity.
  - vm_compute. reflexivity.
Defined.

Lemma in_qualities q : 0 <= q <= 100 -> In q Examples.qualities.
Proof.
  intros Hq. unfold Examples.qualities. apply in_map_iff.
  exists (Z.to_nat q). split; [lia|]. apply in_seq. lia.
Defined.

Lemma monotone_on_table_sound ps :
  Examples.monotone_on_table ps = true -> threshold_monotone ps.
Proof.
  intros H q q' Hq Hq' Hthr. unfold Examples.monotone_on_table in H.
  rewrite forallb_forall in H. specialize (H q (in_qualities q ltac:(lia))).
  rewrite forallb_forall in H. specialize (H q' (in_qualities q' ltac:(lia))).
  destruct (Z.leb_spec q q'); [|lia]. rewrite Hthr in H. simpl in H.
  destruct (within_1dB (ps 100) (ps q')); [reflexivity|discriminate].
Defined.

Lemma ordered_on_table_sound sz ps :
  Examples.ordered_on_table sz ps = true ->
  forall q, threshold_boundary ps q ->
    F32.is_nan (slope_to_100 sz ps q) = false.
Proof.
  intros H q (Hq & Hin & Hlow). unfold Examples.ordered_on_table in H.
  rewrite forallb_forall in H. specialize (H q (in_qualities q Hq)).
  rewrite Hin in H. simpl in H.
  assert (E : (q =? 0) || negb (within_1dB (ps 100) (ps (q - 1))) = true).
  { destruct Hlow as [->| ->]; [reflexivity|]. apply orb_true_r. }
  rewrite E in H. simpl in H. now apply negb_true_iff in H.
Defined.

Lemma threshold_quality_boundary ps q :
  threshold_quality ps q -> threshold_boundary ps q.
Proof.
  intros (Hq & Hin & Hlow). split; [exact Hq|]. split; [exact Hin|].
  destruct (Z.eq_dec q 0) as [E|E]; [now left|right]. apply Hlow. lia.
Defined.

(** C4 on a run: three frames under [scaled_stats], where the smallest
    quality within 1 dB of quality 100 is 95 for every frame and the slopes
    there are 1/5, 1/20 and 1/10, in the order of the frames. *)
Lemma FindMedianSlope_median_of_threshold_slopes_witness :
  exists median_slope s' slopes ascending,
    FindMedianSlope Examples.scaled_stats
      (Examples.start Examples.three_frames)
    = Done median_slope s'
    /\ Forall2 (threshold_slope Examples.scaled_stats)
         (frames_ (Examples.start Examples.three_frames)) slopes
    /\ Permutation ascending slopes
    /\ StronglySorted (fun a b => F32.leb a b = true) ascending
    /\ ascending
       !! (length (frames_ (Examples.start Examples.three_frames)) / 2)%nat
       = Some median_slope.
Proof.
  apply (FindMedianSlope_median_of_threshold_slopes Examples.scaled_stats
           (Examples.start Examples.three_frames)).
  - discriminate.
  - intros f Hf. split; [|split; [|split]].
    + intros q Hq. eexists. reflexivity.
    + destruct Hf as [<-|[<-|[<-|[]]]]; vm_compute; reflexivity.
    + apply monotone_on_table_sound.
      destruct Hf as [<-|[<-|[<-|[]]]]; vm_compute; reflexivity.
    + intros sl (q & Hq & ->). apply ordered_on_table_sound.
      * destruct Hf as [<-|[<-|[<-|[]]]]; vm_compute; reflexivity.
      * now apply threshold_quality_boundary.
Defined.

(** The values of that run: the slopes as the loop collects them, and the
    median 1/10, which is the second of the three in ascending order and
    the third in the order of the frames. *)
Lemma FindMedianSlope_three_frames :
  (exists s',
     collect [0; 1; 2]%nat (threshold_search Examples.scaled_stats)
       (Examples.start Examples.three_frames)
     = Done [F32.div F32.one (F32.of_int 5);
             F32.div F32.one (F32.of_int 20);
             F32.div F32.one (F32.of_int 10)] s')
  /\ exists s',
       FindMedianSlope Examples.scaled_stats
         (Examples.start Examples.three_frames)
       = Done (F32.div F32.one (F32.of_int 10)) s'.
Proof.
  split; eexists; vm_compute; reflexivity.
Qed.

(** The example codec and assembler answer every call, and the sizes of
    the assembler are monotone in the qualities. *)
Lemma clamped_stats_total : codec_total Examples.clamped_stats.
Proof.
  intros p c. eexists _, _. split; [reflexivity|].
  unfold Examples.clamp.
  set (k := Z.max 0 (Z.min (quality c) 100) ÷ 5).
  assert (Hk : 0 <= k <= 20) by (unfold k; Z.quot_rem_to_equations; lia).
  clearbody k.
  assert (Hin : In k (map Z.of_nat (seq 0 21))).
  { apply in_map_iff. exists (Z.to_nat k). split; [lia|]. apply in_seq. lia. }
  assert (HF : List.Forall
                 (fun k => F32.is_finite (F32.of_int (20 + k)) = true)
                 (map Z.of_nat (seq 0 21))) by (repeat constructor).
  exact (proj1 (List.Forall_forall _ _) HF k Hin).
Qed.

Lemma size_bytes n : 0 <= n -> WebPData_size (Examples.bytes n) = n.
Proof.
  intros Hn. unfold WebPData_size, Examples.bytes. rewrite repeat_length. lia.
Qed.

Lemma total_size_clamped_nonneg l :
  0 <= Examples.total_size Examples.clamped_stats l.
Proof.
  induction l as [|x l IH]; simpl; [lia|]. unfold Examples.clamp. lia.
Qed.

Lemma total_size_clamped_monotone l l' :
  Forall2 raised l l' ->
  Examples.total_size Examples.clamped_stats l
  <= Examples.total_size Examples.clamped_stats l'.
Proof.
  induction 1 as [|x x' l l' (_ & _ & Hq) _ IH]; simpl; [lia|].
  unfold Examples.clamp. lia.
Qed.

Lemma sum_sizes_clamped_monotone :
  assembly_monotone (Examples.sum_sizes Examples.clamped_stats).
Proof.
  intros l l' d d' HF Hd Hd'. unfold Examples.sum_sizes in *.
  injection Hd as <-. injection Hd' as <-.
  rewrite !size_bytes by apply total_size_clamped_nonneg.
  now apply total_size_clamped_monotone.
Qed.

Lemma sum_sizes_total stats : assembler_total (Examples.sum_sizes stats).
Proof. intros l. eexists. reflexivity. Qed.

Lemma ret_keeps_fit b : preserves (fits b) (ret tt).
Proof. apply pres_ret. Qed.

(** X25 on two runs over the same two frames: with a budget of 150 bytes
    the driver returns [kOk] and an animation of 120 bytes; with a budget
    of 15 bytes, below the 20 bytes of the animation at the floor quality
    0, it returns [kByteBudgetError] and an empty buffer. *)
Lemma budget_respected_or_budget_error_witness :
  (exists s',
     Examples.clamped_driver 150 (Examples.start Examples.two_frames)
     = Return kOk s'
     /\ WebPData_size (webp_data s') = 120
     /\ WebPData_size (webp_data s') <= 150)
  /\ (exists s',
        Examples.clamped_driver 15 (Examples.start Examples.two_frames)
        = Return kByteBudgetError s'
        /\ webp_data s' = WebPDataInit
        /\ Permutation (map final_quality (frames_ s'))
             (map final_quality
                (frames_ (Examples.start Examples.two_frames)))).
Proof.
  split.
  - eexists. split; [vm_compute; reflexivity|]. split; [reflexivity|].
    refine (proj1 (budget_respected_or_budget_error 150 0
                     Examples.clamped_stats
                     (Examples.sum_sizes Examples.clamped_stats)
                     WebPData_size (ret tt) (ret tt)
                     (Examples.start Examples.two_frames) ltac:(lia)
                     (ret_keeps_fit 150) (ret_keeps_fit 150) eq_refl) _ _ _).
    + vm_compute. reflexivity.
    + vm_compute. reflexivity.
  - refine (proj2 (budget_respected_or_budget_error 15 0
                     Examples.clamped_stats
                     (Examples.sum_sizes Examples.clamped_stats)
                     WebPData_size (ret tt) (ret tt)
                     (Examples.start Examples.two_frames) ltac:(lia)
                     (ret_keeps_fit 15) (ret_keeps_fit 15) eq_refl)
              _ _ _ _ _ _).
    + discriminate.
    + exact clamped_stats_total.
    + apply sum_sizes_total.
    + exact sum_sizes_clamped_monotone.
    + intros f sl Hf (q & Hbd & _ & ->). apply ordered_on_table_sound.
      * destruct Hf as [<-|[<-|[]]]; vm_compute; reflexivity.
      * exact Hbd.
    + intros fs Hfs. symmetry in Hfs.
      apply Permutation_length_2_inv in Hfs.
      destruct Hfs as [-> | ->]; intros d Hd; vm_compute in Hd;
        injection Hd as <-; vm_compute; reflexivity.
Defined.

(** C1. The driver on two fresh frames with a budget of 15 bytes, below the
    20 bytes of their animation at the floor quality 0, and a codec that
    encodes at the qualities from 0 to 100 only. No trial animation fits,
    nothing is committed and the buffer stays empty; the loop of lines
    182-186 then asks the codec for the statistics of every frame at its
    [final_quality], still the unset -1, before line 190 is reached, and
    the run returns the status of that query, [kStatsError], where line 190
    would return [kByteBudgetError]. *)
Theorem driver_returns_stats_error_when_nothing_fits :
  exceeds_at 15 (Examples.sum_sizes Examples.strict_stats) 0
    Examples.two_frames
  /\ (forall f q, 0 <= q <= 100 ->
        exists r, stats_at Examples.strict_stats f q = ExtOk r)
  /\ exists s',
       Examples.strict_driver 15 (Examples.start Examples.two_frames)
       = Return kStatsError s'
       /\ webp_data s' = WebPDataInit
       /\ map final_quality (frames_ s') = [-1; -1]
       /\ history s' = [(PSlopeOptim, 0)].
Proof.
  split; [|split].
  - intros d Hd. vm_compute in Hd. injection Hd as <-. vm_compute. reflexivity.
  - intros f q Hq. unfold stats_at, Examples.strict_stats. simpl.
    destruct (Z.leb_spec 0 q); [|lia]. destruct (Z.leb_spec q 100); [|lia].
    eexists. reflexivity.
  - eexists. split; [vm_compute; reflexivity|]. repeat split.
Qed.

(** C6 as stated fails on a round: with a budget of 2^24 bytes, an
    animation size of 0 and one remaining frame, the share is 2^24 bytes;
    the candidate at quality 85 costs 2^24 + 1 bytes more than the frame's
    encoding, and is accepted, because [float(2^24 + 1)] is 2^24; the
    search of the frame ends with this quality and an animation size above
    the budget. *)
Lemma refine_accepts_beyond_share :
  exists x x',
    In ({| min_quality := 70; max_quality := 100 |}, 0, x)
       (refine_rounds_of 16777216 Examples.huge_stats 0 1 0
          Examples.light_frame)
    /\ refine_probe 16777216 Examples.huge_stats 0 1
         ({| min_quality := 70; max_quality := 100 |}, 0) x
       = Done (Continue ({| min_quality := 86; max_quality := 100 |},
                         16777217)) x'
    /\ map final_quality (frames_ x') = [85]
    /\ map encoded_size (frames_ x) = [0]
    /\ map encoded_size (frames_ x') = [16777217]
    /\ F32.of_int (16777217 - 0) = F32.of_int ((16777216 - 0) ÷ 1)
    /\ ~ (16777217 - 0 <= (16777216 - 0) ÷ 1)
    /\ exists s_end,
         refine_frame 16777216 Examples.huge_stats 0 1 0 Examples.light_frame
         = Done 16777217 s_end
         /\ map final_quality (frames_ s_end) = [85]
         /\ map encoded_size (frames_ s_end) = [16777217].
Proof.
  eexists _, _. split; [left; reflexivity|].
  split; [vm_compute; reflexivity|].
  split; [reflexivity|]. split; [reflexivity|]. split; [reflexivity|].
  split; [reflexivity|].
  split; [vm_compute; intros H; apply H; reflexivity|].
  eexists. split; [vm_compute; reflexivity|]. split; reflexivity.
Qed.

(** C6 on a run: the scan of two frames at quality 50, from an animation
    of 120 bytes with a budget of 150 bytes; the first frame is searched in
    the window from 50 to 80 and the second from 50 to 80 with what the
    first has left of the slack. *)
Lemma refine_search_rounds_witness :
  (exists a_end s_end,
     refine_scan 150 Examples.ramp_stats [0; 1]%nat 2 120
       Examples.at_quality_50 = Done a_end s_end
     /\ scanned 150 Examples.ramp_stats [0; 1]%nat 2 120
          Examples.at_quality_50 a_end s_end
     /\ a_end = 148
     /\ map final_quality (frames_ s_end) = [71; 57])
  /\ (NoDup [0; 1]%nat
      /\ (forall i, In i [0; 1]%nat ->
            exists f, frames_ Examples.at_quality_50 !! i = Some f
                      /\ answered_in_window Examples.ramp_stats f)
      /\ exists a_end s_end,
           refine_scan 150 Examples.ramp_stats [0; 1]%nat 2 120
             Examples.at_quality_50 = Done a_end s_end).
Proof.
  pose proof (refine_search_rounds 150 Examples.ramp_stats [0; 1]%nat 2 120
                Examples.at_quality_50) as [Hrun Hends].
  assert (Hnd : NoDup [0; 1]%nat) by exact (NoDup_seq 0 2).
  assert (Hall : forall i, In i [0; 1]%nat ->
            exists f, frames_ Examples.at_quality_50 !! i = Some f
                      /\ answered_in_window Examples.ramp_stats f).
  { intros i [<-|[<-|[]]]; eexists; (split; [reflexivity|]);
      intros q _; eexists; reflexivity. }
  split; [|split; [exact Hnd|split; [exact Hall|exact (Hends Hnd Hall)]]].
  assert (Ev : exists s_end,
             refine_scan 150 Examples.ramp_stats [0; 1]%nat 2 120
               Examples.at_quality_50 = Done 148 s_end
             /\ map final_quality (frames_ s_end) = [71; 57]).
  { eexists. split; [vm_compute; reflexivity|reflexivity]. }
  destruct Ev as (s_end & E & Hq).
  exists 148, s_end. split; [exact E|]. split; [exact (Hrun _ _ E)|].
  split; [reflexivity|exact Hq].
Defined.

(** C2 as stated fails on two runs of the driver.
    - The slope pass sets both frames to the quality 94; the near-lossless
      pass switches the first frame; the scan of
      [LossyEncodeNoSlopeOptim] restarts that frame at 70 and accepts the
      quality 93, which has the PSNR of 94 in fewer bytes.
    - With three frames and 700 bytes the driver leaves the qualities 89,
      50 and 89; called again on these frames with an empty buffer, its
      slope pass keeps only the first frame in the search, commits the
      midpoint 50 to it in the first round and ends at 69. *)
Lemma later_writes_lower_final_quality :
  (exists s1 s',
     LossyEncodeSlopeOptim 208 0 Examples.ramp_stats
       (Examples.sum_sizes Examples.ramp_stats)
       (Examples.start Examples.two_frames) = Done tt s1
     /\ map final_quality (frames_ s1) = [94; 94]
     /\ Examples.tight_driver (Examples.start Examples.two_frames)
        = Return kOk s'
     /\ map final_quality (frames_ s') = [93; 95]
     /\ map fst (history s')
        = [PSlopeOptim; PNearLosslessEqual; PNoSlopeOptim; PExtraLossy])
  /\ exists s1 s2,
       Examples.scaled_driver (Examples.start Examples.three_frames)
       = Return kOk s1
       /\ map final_quality (frames_ s1) = [89; 50; 89]
       /\ Examples.scaled_driver (Examples.start (frames_ s1))
          = Return kOk s2
       /\ map final_quality (frames_ s2) = [69; 50; 89]
       /\ map fst (history s2)
          = [PSlopeOptim; PNearLosslessEqual; PEqualQuality].
Proof.
  split.
  - eexists. eexists. split; [vm_compute; reflexivity|].
    split; [reflexivity|]. split; [vm_compute; reflexivity|].
    split; reflexivity.
  - eexists. eexists. split; [vm_compute; reflexivity|].
    split; [reflexivity|]. split; [vm_compute; reflexivity|].
    split; reflexivity.
Qed.

Lemma psnr_monotone_on_table_sound stats f :
  Examples.psnr_monotone_on_table (psnr_at stats f) = true ->
  psnr_monotone stats f.
Proof.
  intros H q q' Hq Hq'. unfold Examples.psnr_monotone_on_table in H.
  rewrite forallb_forall in H. specialize (H q (in_qualities q ltac:(lia))).
  rewrite forallb_forall in H. specialize (H q' (in_qualities q' ltac:(lia))).
  destruct (Z.leb_spec q q'); [|lia]. exact H.
Defined.

(** C2 on runs with a budget of 150 bytes. The slope pass on two unset
    frames, given in the order of descending timestamps, sets both to the
    quality 50. The top-up pass on two frames at quality 50 with 30 dB
    raises both to the quality 65, where the codec gives 33 dB. *)
Lemma passes_on_final_quality_witness :
  (exists s1 fs,
     LossyEncodeSlopeOptim 150 0 Examples.ramp_stats
       (Examples.sum_sizes Examples.ramp_stats)
       (Examples.start (rev Examples.two_frames)) = Done tt s1
     /\ Permutation fs (rev Examples.two_frames)
     /\ Forall2 not_lowered fs (frames_ s1)
     /\ map final_quality (frames_ s1) = [50; 50])
  /\ exists s3,
       ExtraLossyEncode 150 Examples.ramp_stats
         (Examples.sum_sizes Examples.ramp_stats) Examples.at_quality_50
       = Done tt s3
       /\ Forall2 (fun f f' =>
                     not_lowered f f'
                     /\ psnr_le (final_psnr f) (final_psnr f'))
            (frames_ Examples.at_quality_50) (frames_ s3)
       /\ map final_quality (frames_ s3) = [65; 65]
       /\ map final_psnr (frames_ Examples.at_quality_50)
          = [F32.of_int 30; F32.of_int 30]
       /\ map final_psnr (frames_ s3) = [F32.of_int 33; F32.of_int 33].
Proof.
  split.
  - assert (E : exists s1,
               LossyEncodeSlopeOptim 150 0 Examples.ramp_stats
                 (Examples.sum_sizes Examples.ramp_stats)
                 (Examples.start (rev Examples.two_frames)) = Done tt s1
               /\ map final_quality (frames_ s1) = [50; 50]).
    { eexists. split; [vm_compute; reflexivity|reflexivity]. }
    destruct E as (s1 & E & Hq).
    pose proof (passes_on_final_quality 150 0 Examples.ramp_stats
                  (Examples.sum_sizes Examples.ramp_stats) WebPData_size
                  (Examples.start (rev Examples.two_frames)))
      as (_ & H & _).
    rewrite E in H.
    destruct H as (fs & Hperm & HF).
    { intros f [<-|[<-|[]]]; vm_compute; discriminate. }
    exists s1, fs. auto.
  - assert (E : exists s3,
               ExtraLossyEncode 150 Examples.ramp_stats
                 (Examples.sum_sizes Examples.ramp_stats)
                 Examples.at_quality_50 = Done tt s3
               /\ map final_quality (frames_ s3) = [65; 65]
               /\ map final_psnr (frames_ s3)
                  = [F32.of_int 33; F32.of_int 33]).
    { eexists. split; [vm_compute; reflexivity|].
      split; vm_compute; reflexivity. }
    destruct E as (s3 & E & Hq & Hp).
    pose proof (passes_on_final_quality 150 0 Examples.ramp_stats
                  (Examples.sum_sizes Examples.ramp_stats) WebPData_size
                  Examples.at_quality_50)
      as (_ & _ & _ & _ & _ & H).
    rewrite E in H.
    exists s3. split; [exact E|]. split; [|split; [exact Hq|]].
    + apply Forall2_same_length_lookup. split; [eapply Forall2_length, H|].
      intros i f f' Hf Hf'.
      destruct (Forall2_lookup_lr _ _ _ _ _ _ H Hf Hf') as [Hnl Hps].
      split; [exact Hnl|].
      assert (Hin : In f (frames_ Examples.at_quality_50)).
      { apply list_elem_of_In. eapply list_elem_of_lookup_2. exact Hf. }
      apply Hps.
      * destruct Hin as [<-|[<-|[]]]; vm_compute; discriminate.
      * destruct Hin as [<-|[<-|[]]]; vm_compute; reflexivity.
      * apply psnr_monotone_on_table_sound.
        destruct Hin as [<-|[<-|[]]]; vm_compute; reflexivity.
    + split; [vm_compute; reflexivity|exact Hp].
Defined.

(** C8. [AnimData2PSNR] on two original frames, decoded as they are, with
    a distortion measure that fails on the second frame and a statistics
    object that holds one value from an earlier call. The loop of lines
    74-89 measures the first frame only and stops; line 87 has appended the
    value to the one already there, so the size test of line 92 finds two
    elements for two frames and the status is [kOk], although the comment
    of line 91 gives this test as the detection of a failed
    [WebPPictureDistortion]; the statistics are those of the old value and
    of the one value measured. With a decoder that succeeds and gives no
    frame, line 80 reads [new_frames[0]] of an empty vector. *)
Theorem AnimData2PSNR_kOk_after_failed_distortion :
  (exists st',
     Utils.AnimData2PSNR Examples.decoded_as_given Examples.second_fails
       Examples.movie [] (Some Examples.used_stats)
     = Utils.Returned Utils.kOk (Some st')
     /\ Utils.measured Examples.second_fails Examples.movie Examples.movie
          (Utils.psnr Examples.used_stats) = Some 1%nat
     /\ length Examples.movie = 2%nat
     /\ Utils.psnr st' = [F32.of_int 35; F32.of_int 39]
     /\ Utils.min_psnr st' = F32.of_int 35
     /\ Utils.max_psnr st' = F32.of_int 39)
  /\ Utils.AnimData2PSNR Examples.decoded_nothing
       Examples.distortion_by_picture Examples.movie []
       (Some Examples.fresh_stats)
     = Utils.Undefined.
Proof.
  split; [|vm_compute; reflexivity].
  eexists. split; [vm_compute; reflexivity|].
  repeat split; vm_compute; reflexivity.
Qed.

(** X24 on a call with a fresh statistics object: two original frames,
    decoded as they are and measured at 39 and 38 dB. *)
Lemma AnimData2PSNR_statistics_witness :
  exists status st',
    Utils.AnimData2PSNR Examples.decoded_as_given
      Examples.distortion_by_picture Examples.movie []
      (Some Examples.fresh_stats)
    = Utils.Returned status (Some st')
    /\ (status <> Utils.kOk <-> length (Utils.psnr st') <> 2%nat)
    /\ (status = Utils.kOk ->
        head (sort F32.ltb (Utils.psnr st')) = Some (Utils.min_psnr st')
        /\ last (sort F32.ltb (Utils.psnr st')) = Some (Utils.max_psnr st')
        /\ sort F32.ltb (Utils.psnr st') !! 1%nat
           = Some (Utils.median_psnr st')).
Proof.
  destruct (AnimData2PSNR_statistics Examples.decoded_as_given
              Examples.distortion_by_picture Examples.movie []
              Examples.fresh_stats Utils.kOk Examples.movie)
    as (_ & status & st' & Hrun & _ & H);
    [discriminate|reflexivity|reflexivity|discriminate|].
  destruct (H eq_refl) as (l & _ & Hpsnr & _ & Hiff & Hstats).
  exists status, st'. split; [exact Hrun|]. rewrite Hpsnr.
  split; [exact Hiff|]. intros Hok.
  destruct (Hstats Hok) as (_ & Hmin & Hmax & Hmed & _). auto.
Defined.

(** The values of that call. *)
Lemma AnimData2PSNR_fresh_example :
  Utils.AnimData2PSNR Examples.decoded_as_given
    Examples.distortion_by_picture Examples.movie []
    (Some Examples.fresh_stats)
  = Utils.Returned Utils.kOk
      (Some {| Utils.psnr := [F32.of_int 39; F32.of_int 38];
               Utils.min_psnr := F32.of_int 38;
               Utils.max_psnr := F32.of_int 39;
               Utils.mean_psnr := F32.div (F32.of_int 77) (F32.of_int 2);
               Utils.median_psnr := F32.of_int 39 |}).
Proof. vm_compute. reflexivity. Qed.

(** * Further worked examples *)

(** X4 on the first of two frames under [ramp_stats]: between the
    qualities 50 and 100 the slope is 10 dB for 50 bytes. *)
Lemma ComputeSlope_outcome_witness :
  ComputeSlope Examples.ramp_stats 0 50 100
    (Examples.start Examples.two_frames)
  = Done Examples.one_fifth
      {| frames_ := alter (set_quality 100) 0%nat Examples.two_frames;
         webp_data := WebPDataInit; history := [] |}.
Proof.
  exact (ComputeSlope_outcome Examples.ramp_stats
           (Examples.start Examples.two_frames) 0 (Examples.frame 1%nat 0)
           50 100 eq_refl).
Defined.

(** X5 on the driver with no frame. *)
Lemma no_frame_no_defined_behaviour_witness :
  Examples.plain_driver (Examples.start []) = Undefined.
Proof.
  exact (proj2 (proj2 (no_frame_no_defined_behaviour 150 0 Examples.ramp_stats
                         (Examples.sum_sizes Examples.ramp_stats)
                         WebPData_size (ret tt) (ret tt) (Examples.start [])
                         eq_refl))).
Defined.

(** X6 on the slope pass over two frames, budget 150. *)
Lemma SlopeOptim_success_records_stats_witness :
  exists s',
    LossyEncodeSlopeOptim 150 0 Examples.ramp_stats
      (Examples.sum_sizes Examples.ramp_stats)
      (Examples.start Examples.two_frames) = Done tt s'
    /\ 0 < WebPData_size (webp_data s')
    /\ forall f', In f' (frames_ s') -> recorded Examples.ramp_stats f'.
Proof.
  eexists. split; [vm_compute; reflexivity|].
  apply (SlopeOptim_success_records_stats 150 0 Examples.ramp_stats
           (Examples.sum_sizes Examples.ramp_stats)
           (Examples.start Examples.two_frames)).
  vm_compute. reflexivity.
Defined.

(** X7 on the same run. *)
Lemma SlopeOptim_success_sets_every_quality_witness :
  exists s',
    LossyEncodeSlopeOptim 150 0 Examples.ramp_stats
      (Examples.sum_sizes Examples.ramp_stats)
      (Examples.start Examples.two_frames) = Done tt s'
    /\ forall f', In f' (frames_ s') -> 0 <= final_quality f' <= 100.
Proof.
  eexists. split; [vm_compute; reflexivity|].
  apply (SlopeOptim_success_sets_every_quality 150 0 Examples.ramp_stats
           (Examples.sum_sizes Examples.ramp_stats)
           (Examples.start Examples.two_frames)).
  - reflexivity.
  - intros f [<-|[<-|[]]]; reflexivity.
  - vm_compute. reflexivity.
Defined.

(** X8 on the scan over two frames at quality 50, budget 150. *)
Lemma refine_scan_books_encoded_sizes_witness :
  exists anim_size s',
    refine_scan_of 150 Examples.ramp_stats WebPData_size
      Examples.at_quality_50 = Done anim_size s'
    /\ anim_size - WebPData_size (webp_data Examples.at_quality_50)
       = total_encoded (frames_ s')
         - total_encoded (frames_ Examples.at_quality_50).
Proof.
  eexists. eexists. split; [vm_compute; reflexivity|].
  apply (refine_scan_books_encoded_sizes 150 Examples.ramp_stats WebPData_size
           Examples.at_quality_50).
  vm_compute. reflexivity.
Defined.

(** X9 on the refinement pass over two frames at quality 50. *)
Lemma NoSlopeOptim_restores_configurations_witness :
  match LossyEncodeNoSlopeOptim 150 Examples.ramp_stats
          (Examples.sum_sizes Examples.ramp_stats) WebPData_size
          Examples.at_quality_50 with
  | Done _ s' | Return kOk s' => forall f', In f' (frames_ s') -> restored f'
  | _ => True
  end.
Proof.
  apply (NoSlopeOptim_restores_configurations 150 Examples.ramp_stats
           (Examples.sum_sizes Examples.ramp_stats) WebPData_size
           Examples.at_quality_50).
  vm_compute. discriminate.
Defined.

(** X12 on two near-lossless frames. *)
Lemma ExtraLossy_without_lossy_frame_witness :
  ExtraLossyEncode 150 Examples.ramp_stats
    (Examples.sum_sizes Examples.ramp_stats) Examples.all_near_lossless
  = Done tt Examples.all_near_lossless.
Proof.
  exact (ExtraLossy_without_lossy_frame 150 Examples.ramp_stats
           (Examples.sum_sizes Examples.ramp_stats) Examples.all_near_lossless
           ltac:(intros f [<-|[<-|[]]]; reflexivity)).
Defined.

(** X22 on a frame that the codec reproduces exactly. *)
Lemma threshold_search_never_assigns_witness :
  threshold_search Examples.exact_stats 0 (Examples.start Examples.one_frame)
  = Undefined.
Proof.
  apply (threshold_search_never_assigns Examples.exact_stats
           (Examples.start Examples.one_frame) 0 (Examples.frame 1%nat 0)
           (fun q => 10 + q) (fun _ => S754_infinity false)).
  - reflexivity.
  - intros q _. reflexivity.
  - right. reflexivity.
Defined.

(** X21 on the driver whose near-lossless pass switches the first
    frame, with the later frame given first. *)
Lemma driver_leaves_frames_sorted_witness :
  match Examples.switching_driver (Examples.start (rev Examples.two_frames))
  with
  | Done _ s' | Return _ s' =>
      (exists fs, Permutation fs (rev Examples.two_frames)
                  /\ Forall2 same_source fs (frames_ s'))
      /\ StronglySorted (fun a b => timestamp_ms a <= timestamp_ms b)
           (frames_ s')
  | _ => True
  end.
Proof.
  apply (driver_leaves_frames_sorted 150 0 Examples.ramp_stats
           (Examples.sum_sizes Examples.ramp_stats) WebPData_size
           Examples.switch_first (ret tt)
           (Examples.start (rev Examples.two_frames))).
  - intros fs0 x Hx. simpl. apply same_source_upd; [|exact Hx].
    intros f. split; reflexivity.
  - intros fs0. apply pres_ret.
Defined.

(** X2 on the three passes with a budget of 150 bytes, from two frames at
    quality 50 and their animation of 120 bytes. *)
Lemma passes_store_within_budget_witness :
  0 <= 150
  /\ match LossyEncodeSlopeOptim 150 0 Examples.ramp_stats
             (Examples.sum_sizes Examples.ramp_stats) Examples.at_quality_50
     with
     | Done _ s' | Return _ s' =>
         webp_data s' = webp_data Examples.at_quality_50 \/ fits 150 s'
     | _ => True
     end
  /\ match LossyEncodeNoSlopeOptim 150 Examples.ramp_stats
             (Examples.sum_sizes Examples.ramp_stats) WebPData_size
             Examples.at_quality_50
     with
     | Done _ s' | Return _ s' =>
         webp_data s' = webp_data Examples.at_quality_50 \/ fits 150 s'
     | _ => True
     end
  /\ match ExtraLossyEncode 150 Examples.ramp_stats
             (Examples.sum_sizes Examples.ramp_stats) Examples.at_quality_50
     with
     | Done _ s' | Return _ s' =>
         webp_data s' = webp_data Examples.at_quality_50 \/ fits 150 s'
     | _ => True
     end.
Proof.
  split; [lia|].
  apply (passes_store_within_budget 150 0 Examples.ramp_stats
           (Examples.sum_sizes Examples.ramp_stats) WebPData_size
           Examples.at_quality_50).
  lia.
Defined.

(** X13 on a fresh statistics object and no original frame. *)
Lemma AnimData2PSNR_without_original_frame_witness :
  Utils.AnimData2PSNR Examples.decoded_as_given
    Examples.distortion_by_picture [] [] (Some Examples.fresh_stats)
  = Utils.Undefined.
Proof.
  exact (AnimData2PSNR_without_original_frame Examples.decoded_as_given
           Examples.distortion_by_picture [] Examples.fresh_stats
           Examples.movie eq_refl).
Defined.

(** X15 on two frames decoded as they are. *)
Lemma alignment_of_unmerged_frames_witness :
  matched Examples.movie Examples.movie 1 = 1%nat.
Proof.
  apply (alignment_of_unmerged_frames Examples.movie Examples.movie 1).
  - reflexivity.
  - intros a b Ha Hb. injection Ha as <-. injection Hb as <-. discriminate.
  - simpl. lia.
Defined.

(** X16 on a comparison whose first measurement fails on the second
    frame. *)
Lemma CompareThumbnail_writes_only_on_success_witness :
  exists status diff',
    Utils.CompareThumbnail Examples.decoded_as_given Examples.second_fails
      F32.zero Examples.movie [] [] (Some Examples.fresh_diff)
    = Utils.DiffReturned status diff'
    /\ status = Utils.kGenericError
    /\ diff' = Some Examples.fresh_diff.
Proof.
  eexists. eexists. split; [vm_compute; reflexivity|].
  split; [reflexivity|].
  refine (proj1 (proj2 (CompareThumbnail_writes_only_on_success
                          Examples.decoded_as_given Examples.second_fails
                          F32.zero Examples.movie [] []
                          (Some Examples.fresh_diff) _ Utils.kGenericError _))
            _); [vm_compute; reflexivity|discriminate].
Defined.

Lemma movie_measured :
  Utils.AnimData2PSNR Examples.decoded_as_given
    Examples.distortion_by_picture Examples.movie []
    (Some (Utils.declared_stats F32.zero))
  = Utils.Returned Utils.kOk (Some Examples.movie_stats).
Proof. vm_compute. reflexivity. Defined.

(** X17 on the comparison of two animations that decode to the same
    frames. *)
Lemma CompareThumbnail_differences_witness :
  exists df',
    Utils.CompareThumbnail Examples.decoded_as_given
      Examples.distortion_by_picture F32.zero Examples.movie [] [Byte.x01]
      (Some Examples.fresh_diff)
    = Utils.DiffReturned Utils.kOk (Some df')
    /\ Utils.psnr_diff df'
       = [] ++ zip_with F32.sub (Utils.psnr Examples.movie_stats)
                 (Utils.psnr Examples.movie_stats)
    /\ length (Utils.psnr_diff df') = (0 + 2)%nat.
Proof.
  destruct (CompareThumbnail_differences Examples.decoded_as_given
              Examples.distortion_by_picture F32.zero Examples.movie
              [] [Byte.x01] Examples.fresh_diff Examples.movie_stats
              Examples.movie_stats ltac:(discriminate) movie_measured
              movie_measured)
    as (df' & Hrun & Hdiff & Hlen & _).
  exists df'. auto.
Defined.

(** X18 on the comparison of an animation with itself. *)
Lemma CompareThumbnail_with_itself_witness :
  exists df',
    Utils.CompareThumbnail Examples.decoded_as_given
      Examples.distortion_by_picture F32.zero Examples.movie [] []
      (Some Examples.fresh_diff)
    = Utils.DiffReturned Utils.kOk (Some df')
    /\ Utils.psnr_diff df' = [F32.zero; F32.zero].
Proof.
  destruct (CompareThumbnail_with_itself Examples.decoded_as_given
              Examples.distortion_by_picture F32.zero Examples.movie []
              Examples.fresh_diff Examples.movie_stats
              ltac:(discriminate) eq_refl movie_measured
              ltac:(intros x [<-|[<-|[]]]; reflexivity))
    as (df' & Hrun & Hdiff & _).
  exists df'. auto.
Defined.

(** X20 on a decoder whose second frame cannot be imported: the first
    frame stays, and the second is pushed with a picture without
    samples. *)
Lemma AnimData2Frames_keeps_what_it_pushed_witness :
  Utils.AnimData2Frames Examples.two_frame_decoder true Examples.import_empty
    0%nat [] []
  = (Utils.kMemoryError,
     [{| Utils.pic := 7%nat; Utils.timestamp := 0 |};
      {| Utils.pic := 0%nat; Utils.timestamp := 10 |}])
  /\ exists pushed : list Utils.Frame,
       [{| Utils.pic := 7%nat; Utils.timestamp := 0 |};
        {| Utils.pic := 0%nat; Utils.timestamp := 10 |}] = [] ++ pushed.
Proof.
  split; [reflexivity|].
  exact (proj1 (AnimData2Frames_keeps_what_it_pushed
                  Examples.two_frame_decoder true Examples.import_empty 0%nat
                  [] [] _ Utils.kMemoryError eq_refl)).
Defined.

(** X23 on the two frames measured at 39 and 38 dB. *)
Lemma AnimData2PSNR_summary_ordered_witness :
  F32.leb (F32.of_int 38) (F32.of_int 39) = true
  /\ F32.leb (F32.of_int 39) (F32.of_int 39) = true.
Proof.
  destruct (AnimData2PSNR_summary_ordered Examples.decoded_as_given
              Examples.distortion_by_picture Examples.movie []
              (Utils.declared_stats F32.zero) Examples.movie_stats
              movie_measured
              ltac:(intros d [<-|[<-|[]]]; reflexivity))
    as (H1 & H2 & _).
  split; [exact H1|exact H2].
Defined.
